(** * Luma API control plane: rate limiter, priority scheduler, job lifecycle

    A shallow embedding of the Python sources under [src/luma_api] and the
    properties the specification states about them.

    Conventions of the embedding.
    - Python [float] timestamps ([time.time()]) are exact rationals [Q];
      rounding of IEEE doubles is outside the model.  The clock, the
      [uuid4] generator and [random.randint] are inputs of the functions that
      read them.
    - Python [int] is [Z]; [int(x)] on a float truncates toward zero.
    - A [dict] is a [gmap]; the three-key dict of local queues is a record.
    - A raised exception is the [Raised] / [inl] branch of a result type.
    - The Redis server is a finite map from keys to sorted sets together with
      a reachability flag: every command sent to an unreachable server raises.

    Part I holds the embedding, Part II the vocabulary of the specification,
    Part III the lemmas and theorems, Part IV further properties of the
    code: of the limiter, the queue, the job service, the worker, the account
    service, the job listing and the middleware. *)

From Stdlib Require Import QArith Qround Lqa ZArith Lia Bool String Ascii DecimalString.
From Stdlib Require Import Sorting.Sorted.
From stdpp Require Import gmap strings list fin_maps.

Local Open Scope Z_scope.

(** * Part I: the embedding *)

(** ** Python built-ins *)

Module Py.

(** [int(x)] for a float [x]: truncation toward zero. *)
Definition int (x : Q) : Z := Z.quot (Qnum x) (Zpos (Qden x)).

(** [x <= y] and [x < y] on floats. *)
Definition le (x y : Q) : bool := Qle_bool x y.
Definition lt (x y : Q) : bool := negb (Qle_bool y x).

(** [min(l)] for a non-empty list [x :: l] of floats. *)
Definition min (x : Q) (l : list Q) : Q :=
  fold_left (fun m y => if lt y m then y else m) l x.

(** [l.sort(key=key)]: the sort is stable, so its result is the one of a
    stable insertion sort. *)
Fixpoint insert_by {A} (key : A -> Q) (x : A) (l : list A) : list A :=
  match l with
  | [] => [x]
  | y :: t => if lt (key y) (key x) then y :: insert_by key x t else x :: y :: t
  end.

Definition sort_by {A} (key : A -> Q) (l : list A) : list A :=
  fold_right (insert_by key) [] l.

(** [d.get(k, default)] on a dict written as a list of items. *)
Fixpoint dict_get {K V} `{EqDecision K} (d : list (K * V)) (k : K) (default : V) : V :=
  match d with
  | [] => default
  | (k', v) :: rest => if decide (k' = k) then v else dict_get rest k default
  end.

(** [x in s] for a set literal. *)
Definition set_mem {A} `{EqDecision A} (x : A) (s : list A) : bool :=
  bool_decide (x ∈ s).

(** Truthiness of a [str]: the empty string is falsy. *)
Definition truthy (s : string) : bool :=
  match s with EmptyString => false | _ => true end.

(** [l[start:stop]] for ints [start] and [stop]: a negative index counts
    from the end, and both are clamped to the list. *)
Definition slice {A} (l : list A) (start stop : Z) : list A :=
  let n := Z.of_nat (length l) in
  let clamp i := if i <? 0 then Z.max 0 (i + n) else Z.min i n in
  take (Z.to_nat (clamp stop) - Z.to_nat (clamp start)) (drop (Z.to_nat (clamp start)) l).

(** [l.sort(key=key, reverse=True)]: descending, and still stable: elements
    with equal keys keep their original order. *)
Fixpoint insert_by_desc {A} (key : A -> Q) (x : A) (l : list A) : list A :=
  match l with
  | [] => [x]
  | y :: t => if lt (key x) (key y) then y :: insert_by_desc key x t else x :: y :: t
  end.

Definition sort_by_desc {A} (key : A -> Q) (l : list A) : list A :=
  fold_right (insert_by_desc key) [] l.

(** [str(n)] for an int: the decimal numeral, with a minus sign when
    negative. *)
Definition str_int (n : Z) : string := NilZero.string_of_int (Z.to_int n).

End Py.

(** The outcome of a call that may raise. *)
Inductive outcome (A : Type) :=
| Returned (a : A)
| Raised (msg : string).
Arguments Returned {A} a.
Arguments Raised {A} msg.

(** ** config.py *)

Inductive UserTier := FREE | DEVELOPER | PRO | ENTERPRISE.

#[global] Instance UserTier_eq_dec : EqDecision UserTier.
Proof. solve_decision. Defined.

Record TierConfig := mkTierConfig {
  rate_limit_per_minute : Z;
  daily_quota : Z;
  max_concurrent_jobs : Z;
  max_video_duration : Z;
  queue_priority_weight : Z;
  can_generate : bool;
  can_batch_generate : bool
}.

(** [TIER_CONFIGS[tier]]; the dict has an entry for each of the four tiers,
    so the subscript never raises [KeyError]. *)
Definition TIER_CONFIGS (tier : UserTier) : TierConfig :=
  match tier with
  | FREE => mkTierConfig 10 100 0 0 0 false false
  | DEVELOPER => mkTierConfig 30 500 3 30 1 true false
  | PRO => mkTierConfig 100 5000 10 120 5 true true
  | ENTERPRISE => mkTierConfig 1000 (-1) 100 300 10 true true
  end.

Definition get_tier_config (tier : UserTier) : TierConfig := TIER_CONFIGS tier.

(** ** models/job.py *)

Inductive JobStatus :=
  PENDING | QUEUED | PROCESSING | COMPLETED | FAILED | CANCELLED | EXPIRED.

#[global] Instance JobStatus_eq_dec : EqDecision JobStatus.
Proof. solve_decision. Defined.

Inductive QueuePriority := CRITICAL | HIGH | NORMAL.

#[global] Instance QueuePriority_eq_dec : EqDecision QueuePriority.
Proof. solve_decision. Defined.

(** [JOB_TRANSITIONS]: the dict from a status to the set of its successors. *)
Definition JOB_TRANSITIONS : list (JobStatus * list JobStatus) :=
  [ (PENDING, [QUEUED; CANCELLED]);
    (QUEUED, [PROCESSING; CANCELLED; EXPIRED]);
    (PROCESSING, [COMPLETED; FAILED]);
    (COMPLETED, []);
    (FAILED, []);
    (CANCELLED, []);
    (EXPIRED, []) ].

Definition can_transition (from_status to_status : JobStatus) : bool :=
  Py.set_mem to_status (Py.dict_get JOB_TRANSITIONS from_status []).

(** The [Job] model.  [request_metadata] (a free-form dict) is left out; no
    modelled function reads it. *)
Record Job := mkJob {
  job_id : string;
  job_user_id : string;
  job_status : JobStatus;
  job_priority : QueuePriority;
  job_prompt : string;
  job_duration : Z;
  job_resolution : string;
  job_style : option string;
  job_aspect_ratio : string;
  job_model : string;
  job_webhook_url : option string;
  job_queue_position : option Z;
  job_estimated_wait_seconds : option Z;
  job_progress : option Q;
  job_created_at : Q;
  job_queued_at : option Q;
  job_started_at : option Q;
  job_completed_at : option Q;
  job_video_id : option string;
  job_error : option string;
  job_retry_count : Z;
  job_max_retries : Z
}.

(** Attribute assignments [job.status = s], [job.completed_at = t] and the
    three assignments made after enqueueing. *)
Definition set_status (j : Job) (s : JobStatus) : Job :=
  mkJob (job_id j) (job_user_id j) s (job_priority j) (job_prompt j)
    (job_duration j) (job_resolution j) (job_style j) (job_aspect_ratio j)
    (job_model j) (job_webhook_url j) (job_queue_position j)
    (job_estimated_wait_seconds j) (job_progress j) (job_created_at j)
    (job_queued_at j) (job_started_at j) (job_completed_at j) (job_video_id j)
    (job_error j) (job_retry_count j) (job_max_retries j).

Definition set_completed_at (j : Job) (t : Q) : Job :=
  mkJob (job_id j) (job_user_id j) (job_status j) (job_priority j) (job_prompt j)
    (job_duration j) (job_resolution j) (job_style j) (job_aspect_ratio j)
    (job_model j) (job_webhook_url j) (job_queue_position j)
    (job_estimated_wait_seconds j) (job_progress j) (job_created_at j)
    (job_queued_at j) (job_started_at j) (Some t) (job_video_id j)
    (job_error j) (job_retry_count j) (job_max_retries j).

Definition set_queue_info (j : Job) (t : Q) (pos wait : Z) : Job :=
  mkJob (job_id j) (job_user_id j) (job_status j) (job_priority j) (job_prompt j)
    (job_duration j) (job_resolution j) (job_style j) (job_aspect_ratio j)
    (job_model j) (job_webhook_url j) (Some pos)
    (Some wait) (job_progress j) (job_created_at j)
    (Some t) (job_started_at j) (job_completed_at j) (job_video_id j)
    (job_error j) (job_retry_count j) (job_max_retries j).

(** ** queue/worker.py: the validated transition helper *)

Module Worker.

(** [JobWorker._update_job_status(job, new_status)]: the job after the call
    and the returned flag. *)
Definition _update_job_status (job : Job) (new_status : JobStatus) : Job * bool :=
  if negb (can_transition (job_status job) new_status)
  then (job, false)
  else (set_status job new_status, true).

End Worker.

(** ** The Redis server and queue/lua_scripts.py *)

Module Redis.

(** A sorted set: members are unique, each with a score.  Redis orders the
    entries by score and, among equal scores, by member. *)
Definition entry_lt (a b : string * Q) : bool :=
  Py.lt a.2 b.2 || (Qeq_bool a.2 b.2 && String.ltb a.1 b.1).

Definition ZCARD (z : gmap string Q) : Z := Z.of_nat (size z).

Definition in_range (lo hi s : Q) : bool := Py.le lo s && Py.le s hi.

Definition ZREMRANGEBYSCORE (z : gmap string Q) (lo hi : Q) : gmap string Q :=
  filter (fun kv : string * Q => in_range lo hi kv.2 = false) z.

(** [ZADD key score member]: a member already present gets the new score. *)
Definition ZADD (z : gmap string Q) (score : Q) (member : string) : gmap string Q :=
  <[member := score]> z.

Definition ZREM (z : gmap string Q) (member : string) : gmap string Q :=
  delete member z.

Definition first_of (l : list (string * Q)) : option (string * Q) :=
  match l with
  | [] => None
  | x :: t => Some (fold_left (fun best y => if entry_lt y best then y else best) t x)
  end.

(** [ZRANGE key 0 0 WITHSCORES]: the first entry in the set's order. *)
Definition ZRANGE_first (z : gmap string Q) : option (string * Q) :=
  first_of (map_to_list z).

(** [ZRANK key member]: the 0-indexed rank, or nil for a missing member. *)
Definition ZRANK (z : gmap string Q) (member : string) : option Z :=
  match z !! member with
  | None => None
  | Some s =>
      Some (Z.of_nat (size (filter (fun kv : string * Q =>
                                      entry_lt kv (member, s) = true) z)))
  end.

(** [RATE_LIMIT_SCRIPT] on the sorted set at [KEYS[1]]: the set after the
    script and the reply.  [EXPIRE key (2*window)] is not modelled: a key
    that lives to its expiry holds only entries older than [2*window], which
    the next run of the script would remove before counting. *)
Definition RATE_LIMIT_SCRIPT (z : gmap string Q) (window limit : Z) (now : Q)
    (request_id : string) : gmap string Q * list Z :=
  let z1 := ZREMRANGEBYSCORE z 0 (now - inject_Z window) in
  let count := ZCARD z1 in
  if count <? limit then
    let z2 := ZADD z1 now request_id in
    (z2, [1; limit - count - 1; Qfloor (now + inject_Z window)])
  else
    let oldest := ZRANGE_first z1 in
    let reset_at :=
      match oldest with
      | Some (_, s) => (s + inject_Z window)%Q
      | None => (now + inject_Z window)%Q
      end in
    (z1, [0; 0; Qfloor reset_at]).

(** [QUEUE_ENQUEUE_SCRIPT]: [ZADD], then the rank plus one. *)
Definition QUEUE_ENQUEUE_SCRIPT (z : gmap string Q) (job_id : string) (score : Q)
    : gmap string Q * Z :=
  let z1 := ZADD z score job_id in
  (z1, default 0 (ZRANK z1 job_id) + 1).

(** [QUEUE_DEQUEUE_SCRIPT]: pop the entry with the lowest score, or nil. *)
Definition QUEUE_DEQUEUE_SCRIPT (z : gmap string Q) : gmap string Q * option string :=
  match ZRANGE_first z with
  | None => (z, None)
  | Some (job_id, _) => (ZREM z job_id, Some job_id)
  end.

(** The server: its keys, and whether a command reaches it. *)
Record Server := mkServer {
  data : gmap string (gmap string Q);
  reachable : bool
}.

(** A key that does not exist reads as the empty sorted set. *)
Definition zset_at (r : Server) (key : string) : gmap string Q :=
  default ∅ (data r !! key).

Definition store (r : Server) (key : string) (z : gmap string Q) : Server :=
  mkServer (<[key := z]> (data r)) (reachable r).

Definition unreachable : string := "ConnectionError".

Definition eval_rate_limit (r : Server) (key : string) (window limit : Z) (now : Q)
    (request_id : string) : outcome (list Z) * Server :=
  if reachable r then
    let '(z, reply) := RATE_LIMIT_SCRIPT (zset_at r key) window limit now request_id in
    (Returned reply, store r key z)
  else (Raised unreachable, r).

Definition eval_enqueue (r : Server) (key job_id : string) (score : Q)
    : outcome Z * Server :=
  if reachable r then
    let '(z, pos) := QUEUE_ENQUEUE_SCRIPT (zset_at r key) job_id score in
    (Returned pos, store r key z)
  else (Raised unreachable, r).

(** The dequeue script writes ([ZREM]) only when it found an entry. *)
Definition eval_dequeue (r : Server) (key : string) : outcome (option string) * Server :=
  if reachable r then
    match QUEUE_DEQUEUE_SCRIPT (zset_at r key) with
    | (z, Some job_id) => (Returned (Some job_id), store r key z)
    | (_, None) => (Returned None, r)
    end
  else (Raised unreachable, r).

(** [redis.zrem(key, member)]: the number of members removed. *)
Definition zrem (r : Server) (key member : string) : outcome Z * Server :=
  if reachable r then
    let z := zset_at r key in
    (Returned (match z !! member with Some _ => 1 | None => 0 end),
     store r key (ZREM z member))
  else (Raised unreachable, r).

Definition zcard (r : Server) (key : string) : outcome Z :=
  if reachable r then Returned (ZCARD (zset_at r key)) else Raised unreachable.

Definition zrank (r : Server) (key member : string) : outcome (option Z) :=
  if reachable r then Returned (ZRANK (zset_at r key) member) else Raised unreachable.

(** [redis.zremrangebyscore(key, lo, hi)]: the number of members removed. *)
Definition zremrangebyscore (r : Server) (key : string) (lo hi : Q)
    : outcome Z * Server :=
  if reachable r then
    let z := zset_at r key in
    let z' := ZREMRANGEBYSCORE z lo hi in
    (Returned (ZCARD z - ZCARD z'), store r key z')
  else (Raised unreachable, r).

End Redis.

(** ** services/rate_limit_service.py *)

Module RateLimit.

Record RateLimitResult := mkResult {
  allowed : bool;
  limit : Z;
  remaining : Z;
  reset_at : Z;
  window_seconds : Z
}.

(** The service: the Redis client, if any, and the in-memory fallback log. *)
Record RateLimitService := mkService {
  _redis : option Redis.Server;
  _local_counts : gmap string (list Q)
}.

Definition _get_key (user_id endpoint : string) : string :=
  "rate_limit:" +:+ user_id +:+ ":" +:+ endpoint.

(** The result returned when the Redis call raises. *)
Definition fail_open (limit window_seconds : Z) (now : Q) : RateLimitResult :=
  mkResult true limit (limit - 1) (Py.int (now + inject_Z window_seconds)) window_seconds.

(** [_check_redis]: [now] is the reading of [time.time()], [request_id] the
    fresh [uuid4].  An [IndexError] on a short reply is caught by the same
    [except Exception] as a failure of the call. *)
Definition _check_redis (svc : RateLimitService) (redis : Redis.Server)
    (user_id endpoint : string) (limit window_seconds : Z) (now : Q)
    (request_id : string) : RateLimitResult * RateLimitService :=
  let key := _get_key user_id endpoint in
  let '(res, redis') :=
    Redis.eval_rate_limit redis key window_seconds limit now request_id in
  let svc' := mkService (Some redis') (_local_counts svc) in
  match res with
  | Returned result =>
      match result !! 0%nat, result !! 1%nat, result !! 2%nat with
      | Some r0, Some r1, Some r2 =>
          (mkResult (negb (r0 =? 0)) limit r1 r2 window_seconds, svc')
      | _, _, _ => (fail_open limit window_seconds now, svc')
      end
  | Raised _ => (fail_open limit window_seconds now, svc')
  end.

(** [_check_local]: the in-memory sliding-window log. *)
Definition _check_local (svc : RateLimitService) (user_id endpoint : string)
    (limit window_seconds : Z) (now : Q) : RateLimitResult * RateLimitService :=
  let key := _get_key user_id endpoint in
  let cutoff := (now - inject_Z window_seconds)%Q in
  let entries := default [] (_local_counts svc !! key) in
  let kept := List.filter (fun ts => Py.lt cutoff ts) entries in
  let count := Z.of_nat (length kept) in
  if count <? limit then
    (mkResult true limit (limit - count - 1)
       (Py.int (now + inject_Z window_seconds)) window_seconds,
     mkService (_redis svc) (<[key := kept ++ [now]]> (_local_counts svc)))
  else
    let oldest := match kept with [] => now | x :: l => Py.min x l end in
    (mkResult false limit 0 (Py.int (oldest + inject_Z window_seconds)) window_seconds,
     mkService (_redis svc) (<[key := kept]> (_local_counts svc))).

Definition check_and_increment (svc : RateLimitService) (user_id : string)
    (tier : UserTier) (endpoint : string) (now : Q) (request_id : string)
    : RateLimitResult * RateLimitService :=
  let tier_config := get_tier_config tier in
  let limit := rate_limit_per_minute tier_config in
  let window_seconds := 60 in
  match _redis svc with
  | Some redis => _check_redis svc redis user_id endpoint limit window_seconds now request_id
  | None => _check_local svc user_id endpoint limit window_seconds now
  end.

(** One call of [check_and_increment] as the middleware makes it. *)
Record Call := mkCall {
  call_user : string;
  call_tier : UserTier;
  call_endpoint : string;
  call_now : Q;
  call_request_id : string
}.

Definition call_key (c : Call) : string := _get_key (call_user c) (call_endpoint c).

(** A sequence of calls, each on the state the previous one left. *)
Fixpoint run (svc : RateLimitService) (calls : list Call)
    : list (Call * RateLimitResult) * RateLimitService :=
  match calls with
  | [] => ([], svc)
  | c :: rest =>
      let '(r, svc1) :=
        check_and_increment svc (call_user c) (call_tier c) (call_endpoint c)
          (call_now c) (call_request_id c) in
      let '(log, svc2) := run svc1 rest in
      ((c, r) :: log, svc2)
  end.

(** [RateLimitResult.retry_after]: [clock] is the reading of [time.time()]
    when the property is read. *)
Definition retry_after (r : RateLimitResult) (clock : Q) : Z :=
  Z.max 0 (reset_at r - Py.int clock).

(** The result [get_current_usage] builds from the count of live entries. *)
Definition usage_result (limit window_seconds count : Z) (now : Q) : RateLimitResult :=
  mkResult (count <? limit) limit (Z.max 0 (limit - count))
    (Py.int (now + inject_Z window_seconds)) window_seconds.

(** The fallback branch of [get_current_usage]: the in-memory log is pruned
    when the key is present, and nothing is inserted. *)
Definition usage_fallback (svc : RateLimitService) (key : string)
    (limit window_seconds : Z) (now : Q) : RateLimitResult * RateLimitService :=
  match _local_counts svc !! key with
  | Some entries =>
      let cutoff := (now - inject_Z window_seconds)%Q in
      let kept := List.filter (fun ts => Py.lt cutoff ts) entries in
      (usage_result limit window_seconds (Z.of_nat (length kept)) now,
       mkService (_redis svc) (<[key := kept]> (_local_counts svc)))
  | None => (usage_result limit window_seconds 0 now, svc)
  end.

(** [get_current_usage]: with a Redis client, [zremrangebyscore] and
    [zcard]; an error in either is logged and the fallback runs. *)
Definition get_current_usage (svc : RateLimitService) (user_id : string)
    (tier : UserTier) (endpoint : string) (now : Q)
    : RateLimitResult * RateLimitService :=
  let tier_config := get_tier_config tier in
  let limit := rate_limit_per_minute tier_config in
  let window_seconds := 60 in
  let key := _get_key user_id endpoint in
  match _redis svc with
  | Some redis =>
      let cutoff := (now - inject_Z window_seconds)%Q in
      let '(removed, redis1) := Redis.zremrangebyscore redis key 0 cutoff in
      let svc1 := mkService (Some redis1) (_local_counts svc) in
      match removed with
      | Returned _ =>
          match Redis.zcard redis1 key with
          | Returned count => (usage_result limit window_seconds count now, svc1)
          | Raised _ => usage_fallback svc1 key limit window_seconds now
          end
      | Raised _ => usage_fallback svc1 key limit window_seconds now
      end
  | None => usage_fallback svc key limit window_seconds now
  end.

End RateLimit.

(** ** queue/priority_queue.py *)

Module PQ.

Record QueuePosition := mkPosition {
  position : Z;
  priority : QueuePriority;
  estimated_wait_seconds : Z
}.

Definition QUEUE_KEYS (p : QueuePriority) : string :=
  match p with
  | CRITICAL => "queue:critical"
  | HIGH => "queue:high"
  | NORMAL => "queue:normal"
  end.

Definition WEIGHTS (p : QueuePriority) : Z :=
  match p with CRITICAL => 10 | HIGH => 5 | NORMAL => 1 end.

Definition ESTIMATED_PROCESSING_TIME : Z := 30.

(** [_local_queues]: one list of [(job_id, score)] per priority. *)
Record LocalQueues := mkQueues {
  q_critical : list (string * Q);
  q_high : list (string * Q);
  q_normal : list (string * Q)
}.

Definition get_q (qs : LocalQueues) (p : QueuePriority) : list (string * Q) :=
  match p with
  | CRITICAL => q_critical qs
  | HIGH => q_high qs
  | NORMAL => q_normal qs
  end.

Definition set_q (qs : LocalQueues) (p : QueuePriority) (q : list (string * Q))
    : LocalQueues :=
  match p with
  | CRITICAL => mkQueues q (q_high qs) (q_normal qs)
  | HIGH => mkQueues (q_critical qs) q (q_normal qs)
  | NORMAL => mkQueues (q_critical qs) (q_high qs) q
  end.

Record PriorityQueue := mkPQ {
  _redis : option Redis.Server;
  _local_queues : LocalQueues
}.

(** The list [priorities] both loops of [dequeue] walk. *)
Definition priorities : list QueuePriority := [CRITICAL; HIGH; NORMAL].

(** [sum(self.WEIGHTS.values())]. *)
Definition total_weight : Z :=
  fold_right Z.add 0 (map WEIGHTS priorities).

(** *** enqueue *)

Definition _enqueue_local (pq : PriorityQueue) (job_id : string)
    (priority : QueuePriority) (score : Q) : Z * PriorityQueue :=
  let queue := get_q (_local_queues pq) priority in
  let queue := queue ++ [(job_id, score)] in
  let queue := Py.sort_by snd queue in
  (Z.of_nat (length queue),
   mkPQ (_redis pq) (set_q (_local_queues pq) priority queue)).

Definition _enqueue_redis (pq : PriorityQueue) (redis : Redis.Server)
    (job_id : string) (priority : QueuePriority) (score : Q) : Z * PriorityQueue :=
  let key := QUEUE_KEYS priority in
  let '(res, redis') := Redis.eval_enqueue redis key job_id score in
  let pq' := mkPQ (Some redis') (_local_queues pq) in
  match res with
  | Returned position => (position, pq')
  | Raised _ => _enqueue_local pq' job_id priority score
  end.

(** *** get_queue_lengths and the wait estimate *)

Definition local_lengths (qs : LocalQueues) (p : QueuePriority) : Z :=
  Z.of_nat (length (get_q qs p)).

(** The lengths read from Redis; the first failing [zcard] sends the whole
    call to the local fallback. *)
Definition get_queue_lengths (pq : PriorityQueue) : QueuePriority -> Z :=
  match _redis pq with
  | Some redis =>
      match Redis.zcard redis (QUEUE_KEYS CRITICAL),
            Redis.zcard redis (QUEUE_KEYS HIGH),
            Redis.zcard redis (QUEUE_KEYS NORMAL) with
      | Returned c, Returned h, Returned n =>
          fun p => match p with CRITICAL => c | HIGH => h | NORMAL => n end
      | _, _, _ => local_lengths (_local_queues pq)
      end
  | None => local_lengths (_local_queues pq)
  end.

(** [_estimate_wait] once the lengths have been read. *)
Definition estimate_from (lengths : QueuePriority -> Z) (position : Z)
    (priority : QueuePriority) : Z :=
  let jobs_ahead := position - 1 in
  let jobs_ahead :=
    match priority with
    | NORMAL =>
        let weight_factor := 0.3%Q in
        let jobs_ahead :=
          jobs_ahead + Py.int (inject_Z (lengths CRITICAL) * weight_factor) in
        jobs_ahead + Py.int (inject_Z (lengths HIGH) * weight_factor * 0.5)
    | HIGH =>
        let weight_factor := 0.5%Q in
        jobs_ahead + Py.int (inject_Z (lengths CRITICAL) * weight_factor)
    | CRITICAL => jobs_ahead
    end in
  jobs_ahead * ESTIMATED_PROCESSING_TIME.

Definition _estimate_wait (pq : PriorityQueue) (position : Z)
    (priority : QueuePriority) : Z :=
  estimate_from (get_queue_lengths pq) position priority.

(** [enqueue]: [score] is the reading of [time.time()]. *)
Definition enqueue (pq : PriorityQueue) (job_id : string) (priority : QueuePriority)
    (score : Q) : QueuePosition * PriorityQueue :=
  let '(position, pq') :=
    match _redis pq with
    | Some redis => _enqueue_redis pq redis job_id priority score
    | None => _enqueue_local pq job_id priority score
    end in
  let estimated_wait := _estimate_wait pq' position priority in
  (mkPosition position priority estimated_wait, pq').

(** *** dequeue *)

(** The first loop of [_dequeue_local]: [Some] is a [return], [None] is
    falling out of the loop, by [break] or by exhaustion. *)
Fixpoint weighted_pass_local (qs : LocalQueues) (choice cumulative : Z)
    (ps : list QueuePriority) : option (string * LocalQueues) :=
  match ps with
  | [] => None
  | p :: rest =>
      let cumulative := cumulative + WEIGHTS p in
      if choice <=? cumulative then
        match get_q qs p with
        | (job_id, _) :: tail => Some (job_id, set_q qs p tail)
        | [] => None
        end
      else weighted_pass_local qs choice cumulative rest
  end.

(** The second loop: the first non-empty queue in priority order. *)
Fixpoint fallback_pass_local (qs : LocalQueues) (ps : list QueuePriority)
    : option (string * LocalQueues) :=
  match ps with
  | [] => None
  | p :: rest =>
      match get_q qs p with
      | (job_id, _) :: tail => Some (job_id, set_q qs p tail)
      | [] => fallback_pass_local qs rest
      end
  end.

(** [_dequeue_local]: [choice] is the draw [random.randint(1, total_weight)]. *)
Definition _dequeue_local (pq : PriorityQueue) (choice : Z)
    : option string * PriorityQueue :=
  let qs := _local_queues pq in
  match weighted_pass_local qs choice 0 priorities with
  | Some (job_id, qs') => (Some job_id, mkPQ (_redis pq) qs')
  | None =>
      match fallback_pass_local qs priorities with
      | Some (job_id, qs') => (Some job_id, mkPQ (_redis pq) qs')
      | None => (None, pq)
      end
  end.

(** [_pop_from_redis_queue]: [str(result) if result else None]; a raised
    error is logged and gives [None]. *)
Definition _pop_from_redis_queue (redis : Redis.Server) (priority : QueuePriority)
    : option string * Redis.Server :=
  let key := QUEUE_KEYS priority in
  let '(res, redis') := Redis.eval_dequeue redis key in
  match res with
  | Returned (Some result) =>
      (if Py.truthy result then Some result else None, redis')
  | Returned None => (None, redis')
  | Raised _ => (None, redis')
  end.

(** [if job_id:] on an [str | None]. *)
Definition truthy_id (job_id : option string) : bool :=
  match job_id with Some s => Py.truthy s | None => false end.

Fixpoint weighted_pass_redis (redis : Redis.Server) (choice cumulative : Z)
    (ps : list QueuePriority) : option string * Redis.Server :=
  match ps with
  | [] => (None, redis)
  | p :: rest =>
      let cumulative := cumulative + WEIGHTS p in
      if choice <=? cumulative then
        let '(job_id, redis') := _pop_from_redis_queue redis p in
        if truthy_id job_id then (job_id, redis') else (None, redis')
      else weighted_pass_redis redis choice cumulative rest
  end.

Fixpoint fallback_pass_redis (redis : Redis.Server) (ps : list QueuePriority)
    : option string * Redis.Server :=
  match ps with
  | [] => (None, redis)
  | p :: rest =>
      let '(job_id, redis') := _pop_from_redis_queue redis p in
      if truthy_id job_id then (job_id, redis')
      else fallback_pass_redis redis' rest
  end.

Definition _dequeue_redis (pq : PriorityQueue) (redis : Redis.Server) (choice : Z)
    : option string * PriorityQueue :=
  let '(job_id, redis1) := weighted_pass_redis redis choice 0 priorities in
  match job_id with
  | Some j => (Some j, mkPQ (Some redis1) (_local_queues pq))
  | None =>
      let '(job_id, redis2) := fallback_pass_redis redis1 priorities in
      (job_id, mkPQ (Some redis2) (_local_queues pq))
  end.

Definition dequeue (pq : PriorityQueue) (choice : Z) : option string * PriorityQueue :=
  match _redis pq with
  | Some redis => _dequeue_redis pq redis choice
  | None => _dequeue_local pq choice
  end.

(** *** get_position and remove *)

(** [for i, (jid, _) in enumerate(queue): if jid == job_id: return i + 1]. *)
Fixpoint position_from (queue : list (string * Q)) (job_id : string) (i : Z)
    : option Z :=
  match queue with
  | [] => None
  | (jid, _) :: rest =>
      if String.eqb jid job_id then Some (i + 1) else position_from rest job_id (i + 1)
  end.

Definition get_position_local (pq : PriorityQueue) (job_id : string)
    (priority : QueuePriority) : option Z :=
  position_from (get_q (_local_queues pq) priority) job_id 0.

Definition get_position (pq : PriorityQueue) (job_id : string)
    (priority : QueuePriority) : option Z :=
  match _redis pq with
  | Some redis =>
      match Redis.zrank redis (QUEUE_KEYS priority) job_id with
      | Returned (Some rank) => if 0 <? rank + 1 then Some (rank + 1) else None
      | Returned None => None
      | Raised _ => get_position_local pq job_id priority
      end
  | None => get_position_local pq job_id priority
  end.

(** [queue.pop(i)] at the first index whose job id matches. *)
Fixpoint remove_first (queue : list (string * Q)) (job_id : string)
    : option (list (string * Q)) :=
  match queue with
  | [] => None
  | (jid, s) :: rest =>
      if String.eqb jid job_id then Some rest
      else match remove_first rest job_id with
           | Some rest' => Some ((jid, s) :: rest')
           | None => None
           end
  end.

Definition remove_local (pq : PriorityQueue) (job_id : string)
    (priority : QueuePriority) : bool * PriorityQueue :=
  match remove_first (get_q (_local_queues pq) priority) job_id with
  | Some queue' => (true, mkPQ (_redis pq) (set_q (_local_queues pq) priority queue'))
  | None => (false, pq)
  end.

Definition remove (pq : PriorityQueue) (job_id : string) (priority : QueuePriority)
    : bool * PriorityQueue :=
  match _redis pq with
  | Some redis =>
      let '(res, redis') := Redis.zrem redis (QUEUE_KEYS priority) job_id in
      let pq' := mkPQ (Some redis') (_local_queues pq) in
      match res with
      | Returned removed => (0 <? removed, pq')
      | Raised _ => remove_local pq' job_id priority
      end
  | None => remove_local pq job_id priority
  end.

End PQ.

(** ** services/queue_service.py *)

Module QueueService.

Definition TIER_PRIORITY_MAP : list (UserTier * QueuePriority) :=
  [ (ENTERPRISE, CRITICAL); (PRO, HIGH); (DEVELOPER, NORMAL) ].

Definition get_priority_for_tier (tier : UserTier) : QueuePriority :=
  Py.dict_get TIER_PRIORITY_MAP tier NORMAL.

Definition enqueue_job (pq : PQ.PriorityQueue) (job : Job) (score : Q)
    : PQ.QueuePosition * PQ.PriorityQueue :=
  PQ.enqueue pq (job_id job) (job_priority job) score.

Definition cancel_job (pq : PQ.PriorityQueue) (job : Job) : bool * PQ.PriorityQueue :=
  PQ.remove pq (job_id job) (job_priority job).

Definition dequeue_next_job (pq : PQ.PriorityQueue) (choice : Z)
    : option string * PQ.PriorityQueue :=
  PQ.dequeue pq choice.

(** [get_job_position]: the position read back, with a fresh estimate. *)
Definition get_job_position (pq : PQ.PriorityQueue) (job : Job)
    : option PQ.QueuePosition :=
  match PQ.get_position pq (job_id job) (job_priority job) with
  | None => None
  | Some position =>
      let estimated_wait := PQ._estimate_wait pq position (job_priority job) in
      Some (PQ.mkPosition position (job_priority job) estimated_wait)
  end.

End QueueService.

(** ** errors/exceptions.py, models/user.py, models/generation.py *)

(** The exceptions the job service raises, with the details they carry. *)
Inductive LumaAPIError :=
| InsufficientTierError (current_tier required_tier : UserTier)
    (details : list (string * Z))
| QuotaExceededError (quota_type : string) (limit used : Z)
| JobNotFoundError (job_id : string)
| PermissionDeniedError (job_id : string)
| JobCancelledError (job_id : string) (current_status : JobStatus).

Record User := mkUser {
  user_id : string;
  user_email : string;
  user_tier : UserTier;
  user_api_key : string;
  user_is_active : bool
}.

(** [GenerationRequest]; the enum fields are carried by their [.value]. *)
Record GenerationRequest := mkRequest {
  req_prompt : string;
  req_duration : Z;
  req_resolution : string;
  req_style : option string;
  req_aspect_ratio : string;
  req_model : string;
  req_webhook_url : option string
}.

(** ** storage/memory.py *)

Module Storage.

(** [InMemoryStorage[Job]._store]. *)
Definition get (store : gmap string Job) (id : string) : option Job := store !! id.

Definition create (store : gmap string Job) (item : Job) : gmap string Job :=
  <[job_id item := item]> store.

(** [update]: a missing id leaves the store as it is. *)
Definition update (store : gmap string Job) (id : string) (item : Job)
    : gmap string Job :=
  match store !! id with
  | None => store
  | Some _ => <[id := item]> store
  end.

(** [count(filter_fn)]. *)
Definition count (store : gmap string Job) (filter_fn : Job -> bool) : Z :=
  Z.of_nat (length (List.filter filter_fn (snd <$> map_to_list store))).

(** [UsageCounter.get_daily]: [today] is [date.strftime('%Y-%m-%d')]. *)
Definition _get_daily_key (user_id today : string) : string :=
  user_id +:+ ":" +:+ today.

Definition get_daily (daily : gmap string Z) (user_id today : string) : Z :=
  default 0 (daily !! _get_daily_key user_id today).

(** [InMemoryStorage.list]: [values] is [list(self._store.values())], the
    stored items in insertion order; [sort_key], an attribute name in the
    source, is the accessor of that attribute. *)
Definition list {T} (values : list T) (offset limit : Z)
    (filter_fn : option (T -> bool)) (sort_key : option (T -> Q)) (sort_desc : bool)
    : list T * Z :=
  let items := values in
  let items :=
    match filter_fn with
    | Some f => List.filter f items
    | None => items
    end in
  let total := Z.of_nat (length items) in
  let items :=
    match sort_key with
    | Some key => if sort_desc then Py.sort_by_desc key items else Py.sort_by key items
    | None => items
    end in
  let items := Py.slice items offset (offset + limit) in
  (items, total).

End Storage.

(** ** services/job_service.py *)

Module JobService.

(** What the service reaches through [self.storage] and [self.queue_service]. *)
Record State := mkState {
  jobs : gmap string Job;
  usage_daily : gmap string Z;
  queue : PQ.PriorityQueue
}.

(** The readings [create_job] takes from its environment: the [uuid4] hex
    digits, the calendar day, and the three clock readings in call order. *)
Record Env := mkEnv {
  uuid_hex : string;
  today : string;
  created_at : Q;
  enqueue_score : Q;
  queued_at : Q
}.

Definition terminal_statuses : list JobStatus :=
  [COMPLETED; FAILED; CANCELLED; EXPIRED].

Definition _count_active_jobs (st : State) (user_id : string) : Z :=
  Storage.count (jobs st)
    (fun j => String.eqb (job_user_id j) user_id
              && negb (Py.set_mem (job_status j) terminal_statuses)).

(** The job [create_job] constructs once the four checks have passed. *)
Definition new_job (request : GenerationRequest) (user : User) (env : Env) : Job :=
  mkJob ("job_" +:+ substring 0 12 (uuid_hex env))
    (user_id user)
    PENDING
    (QueueService.get_priority_for_tier (user_tier user))
    (req_prompt request)
    (req_duration request)
    (req_resolution request)
    (req_style request)
    (req_aspect_ratio request)
    (req_model request)
    (req_webhook_url request)
    None None None
    (created_at env)
    None None None None None
    0 3.

(** The steps of [create_job] after the checks: store, enqueue, mark QUEUED. *)
Definition store_and_enqueue (st : State) (job : Job) (env : Env) : Job * State :=
  let jobs1 := Storage.create (jobs st) job in
  let '(position, queue1) := QueueService.enqueue_job (queue st) job (enqueue_score env) in
  let job := set_status job QUEUED in
  let job := set_queue_info job (queued_at env) (PQ.position position)
               (PQ.estimated_wait_seconds position) in
  let jobs2 := Storage.update jobs1 (job_id job) job in
  (job, mkState jobs2 (usage_daily st) queue1).

Definition create_job (st : State) (request : GenerationRequest) (user : User)
    (env : Env) : (LumaAPIError + Job) * State :=
  let tier_config := get_tier_config (user_tier user) in
  if negb (can_generate tier_config) then
    (inl (InsufficientTierError (user_tier user) DEVELOPER []), st)
  else if max_video_duration tier_config <? req_duration request then
    (inl (InsufficientTierError (user_tier user)
            (if req_duration request <=? 120 then PRO else ENTERPRISE)
            [("requested_duration"%string, req_duration request);
             ("max_duration"%string, max_video_duration tier_config)]), st)
  else
    let daily_usage := Storage.get_daily (usage_daily st) (user_id user) (today env) in
    if (0 <? daily_quota tier_config) && (daily_quota tier_config <=? daily_usage) then
      (inl (QuotaExceededError "daily" (daily_quota tier_config) daily_usage), st)
    else
      let active_jobs := _count_active_jobs st (user_id user) in
      if max_concurrent_jobs tier_config <=? active_jobs then
        (inl (QuotaExceededError "concurrent_jobs"
                (max_concurrent_jobs tier_config) active_jobs), st)
      else
        let '(job, st') := store_and_enqueue st (new_job request user env) env in
        (inr job, st').

Definition get_job (st : State) (job_id : string) (user : User) : LumaAPIError + Job :=
  match Storage.get (jobs st) job_id with
  | None => inl (JobNotFoundError job_id)
  | Some job =>
      if negb (String.eqb (job_user_id job) (user_id user))
      then inl (PermissionDeniedError job_id)
      else inr job
  end.

(** [cancel_job]: [now] is the reading of [datetime.now(UTC)]. *)
Definition cancel_job (st : State) (job_id : string) (user : User) (now : Q)
    : (LumaAPIError + Job) * State :=
  match get_job st job_id user with
  | inl e => (inl e, st)
  | inr job =>
      if negb (can_transition (job_status job) CANCELLED) then
        (inl (JobCancelledError job_id (job_status job)), st)
      else
        let queue1 :=
          if decide (job_status job = QUEUED)
          then snd (QueueService.cancel_job (queue st) job)
          else queue st in
        let job := set_status job CANCELLED in
        let job := set_completed_at job now in
        (inr job, mkState (Storage.update (jobs st) job_id job) (usage_daily st) queue1)
  end.

(** [list_jobs]: [values] is the content of the job store in insertion
    order.  A [JobStatus] is a non-empty string, so [if status and ...]
    tests for [None]. *)
Definition list_jobs (values : list Job) (user : User) (page per_page : Z)
    (status : option JobStatus) : list Job * Z :=
  let offset := (page - 1) * per_page in
  let filter_fn (job : Job) : bool :=
    if negb (String.eqb (job_user_id job) (user_id user)) then false
    else match status with
         | Some s => if negb (bool_decide (job_status job = s)) then false else true
         | None => true
         end in
  Storage.list values offset per_page (Some filter_fn) (Some job_created_at) true.

End JobService.

(** ** models/video.py *)

Inductive VideoStatus := VIDEO_PENDING | VIDEO_PROCESSING | VIDEO_READY | VIDEO_FAILED.

(** The [Video] model; the enum fields are carried by their [.value], and
    [metadata] (a free-form dict) is left out. *)
Record Video := mkVideo {
  video_id : string;
  video_title : string;
  video_description : option string;
  video_duration : Q;
  video_resolution : string;
  video_aspect_ratio : string;
  video_style : option string;
  video_status : VideoStatus;
  video_url : option string;
  video_thumbnail_url : option string;
  video_created_at : Q;
  video_updated_at : Q;
  video_owner_id : string;
  video_job_id : option string
}.

(** ** storage/memory.py: the usage counters and the storage manager *)

Module UsageCounter.

(** [_get_monthly_key]: [month] is [date.strftime('%Y-%m')]. *)
Definition _get_monthly_key (user_id month : string) : string :=
  user_id +:+ ":" +:+ month.

(** [increment_daily]: the new value and the counters after the call;
    [today] is the day read from the clock inside the call. *)
Definition increment_daily (daily : gmap string Z) (user_id today : string) (amount : Z)
    : Z * gmap string Z :=
  let key := Storage._get_daily_key user_id today in
  let daily' := <[key := default 0 (daily !! key) + amount]> daily in
  (default 0 (daily' !! key), daily').

Definition increment_monthly (monthly : gmap string Z) (user_id month : string)
    (amount : Z) : Z * gmap string Z :=
  let key := _get_monthly_key user_id month in
  let monthly' := <[key := default 0 (monthly !! key) + amount]> monthly in
  (default 0 (monthly' !! key), monthly').

Definition get_monthly (monthly : gmap string Z) (user_id month : string) : Z :=
  default 0 (monthly !! _get_monthly_key user_id month).

End UsageCounter.

Module StorageManager.

(** The stores the worker and the account service reach: [jobs], [videos],
    the two dicts of [usage] and [_usage_details], whose values are the
    pair [(videos_generated, total_duration_seconds)]. *)
Record t := mk {
  jobs : gmap string Job;
  videos : gmap string Video;
  usage_daily : gmap string Z;
  usage_monthly : gmap string Z;
  _usage_details : gmap string (Z * Q)
}.

(** The three readings of the clock [record_usage] takes, in call order:
    the day inside [increment_daily], the month inside [increment_monthly]
    and the day of its own [daily_key]. *)
Record Clock := mkClock {
  counter_day : string;
  counter_month : string;
  details_day : string
}.

Definition record_usage (sm : t) (user_id : string) (videos_generated : Z)
    (duration_seconds : Q) (clock : Clock) : t :=
  let daily := snd (UsageCounter.increment_daily (usage_daily sm) user_id
                      (counter_day clock) 1) in
  let monthly := snd (UsageCounter.increment_monthly (usage_monthly sm) user_id
                        (counter_month clock) 1) in
  let daily_key := user_id +:+ ":" +:+ details_day clock in
  let details :=
    match _usage_details sm !! daily_key with
    | None => <[daily_key := (0, 0%Q)]> (_usage_details sm)
    | Some _ => _usage_details sm
    end in
  let '(videos_so_far, duration_so_far) := default (0, 0%Q) (details !! daily_key) in
  let details := <[daily_key := (videos_so_far + videos_generated,
                                 (duration_so_far + duration_seconds)%Q)]> details in
  mk (jobs sm) (videos sm) daily monthly details.

Definition get_usage_details (sm : t) (user_id today : string) : Z * Q :=
  default (0, 0%Q) (_usage_details sm !! (user_id +:+ ":" +:+ today)).

End StorageManager.

(** ** queue/worker.py: processing a job *)

(** Attribute assignments the worker makes on a job. *)
Definition set_started_at (j : Job) (t : Q) : Job :=
  mkJob (job_id j) (job_user_id j) (job_status j) (job_priority j) (job_prompt j)
    (job_duration j) (job_resolution j) (job_style j) (job_aspect_ratio j)
    (job_model j) (job_webhook_url j) (job_queue_position j)
    (job_estimated_wait_seconds j) (job_progress j) (job_created_at j)
    (job_queued_at j) (Some t) (job_completed_at j) (job_video_id j)
    (job_error j) (job_retry_count j) (job_max_retries j).

Definition set_video_id (j : Job) (v : string) : Job :=
  mkJob (job_id j) (job_user_id j) (job_status j) (job_priority j) (job_prompt j)
    (job_duration j) (job_resolution j) (job_style j) (job_aspect_ratio j)
    (job_model j) (job_webhook_url j) (job_queue_position j)
    (job_estimated_wait_seconds j) (job_progress j) (job_created_at j)
    (job_queued_at j) (job_started_at j) (job_completed_at j) (Some v)
    (job_error j) (job_retry_count j) (job_max_retries j).

Definition set_progress (j : Job) (x : Q) : Job :=
  mkJob (job_id j) (job_user_id j) (job_status j) (job_priority j) (job_prompt j)
    (job_duration j) (job_resolution j) (job_style j) (job_aspect_ratio j)
    (job_model j) (job_webhook_url j) (job_queue_position j)
    (job_estimated_wait_seconds j) (Some x) (job_created_at j)
    (job_queued_at j) (job_started_at j) (job_completed_at j) (job_video_id j)
    (job_error j) (job_retry_count j) (job_max_retries j).

Definition set_error (j : Job) (e : string) : Job :=
  mkJob (job_id j) (job_user_id j) (job_status j) (job_priority j) (job_prompt j)
    (job_duration j) (job_resolution j) (job_style j) (job_aspect_ratio j)
    (job_model j) (job_webhook_url j) (job_queue_position j)
    (job_estimated_wait_seconds j) (job_progress j) (job_created_at j)
    (job_queued_at j) (job_started_at j) (job_completed_at j) (job_video_id j)
    (Some e) (job_retry_count j) (job_max_retries j).

Module JobWorker.

(** What [self._generator.generate(job)] did: it returned a video, raised a
    [GenerationError] with a message, raised another [Exception], whose
    [str(e)] is carried, or was interrupted by an exception that is no
    [Exception] (an [asyncio.CancelledError] when the worker task is cancelled
    during the call), whose class name is carried. *)
Inductive Generation :=
| Generated (video : Video)
| GenerationError (message : string)
| OtherError (text : string)
| Interrupted (name : string).

(** The readings [_process_job] takes from its environment: the clock at
    the start, the generator's outcome, the clock at the end and the
    readings of [record_usage]. *)
Record Env := mkEnv {
  started_at : Q;
  generation : Generation;
  completed_at : Q;
  usage_clock : StorageManager.Clock
}.

Definition with_jobs (sm : StorageManager.t) (jobs : gmap string Job) : StorageManager.t :=
  StorageManager.mk jobs (StorageManager.videos sm) (StorageManager.usage_daily sm)
    (StorageManager.usage_monthly sm) (StorageManager._usage_details sm).

Definition with_videos (sm : StorageManager.t) (videos : gmap string Video)
    : StorageManager.t :=
  StorageManager.mk (StorageManager.jobs sm) videos (StorageManager.usage_daily sm)
    (StorageManager.usage_monthly sm) (StorageManager._usage_details sm).

(** [_process_job]: whether the call returned or raised, and the storage it
    left.  The job read from the store is the stored object, so each
    assignment to it is a write to the slot [job_id]; the calls of
    [jobs.update(job_id, job)] store the same object again.  The two
    [except] clauses catch [GenerationError] and [Exception]; an
    interruption passes both and leaves the function with the job as the
    first update stored it. *)
Definition _process_job (sm : StorageManager.t) (job_id : string) (env : Env)
    : outcome unit * StorageManager.t :=
  match Storage.get (StorageManager.jobs sm) job_id with
  | None => (Returned tt, sm)
  | Some job =>
      let '(job, updated) := Worker._update_job_status job PROCESSING in
      if negb updated then (Returned tt, sm)
      else
        let job := set_started_at job (started_at env) in
        let sm := with_jobs sm (Storage.update (StorageManager.jobs sm) job_id job) in
        match generation env with
        | Generated video =>
            let sm := with_videos sm (<[video_id video := video]> (StorageManager.videos sm)) in
            let job := set_status job COMPLETED in
            let job := set_completed_at job (completed_at env) in
            let job := set_video_id job (video_id video) in
            let job := set_progress job 1 in
            let sm := with_jobs sm (Storage.update (StorageManager.jobs sm) job_id job) in
            (Returned tt,
             StorageManager.record_usage sm (job_user_id job) 1 (video_duration video)
               (usage_clock env))
        | GenerationError message =>
            let job := set_status job FAILED in
            let job := set_error job message in
            let job := set_completed_at job (completed_at env) in
            (Returned tt, with_jobs sm (Storage.update (StorageManager.jobs sm) job_id job))
        | OtherError text =>
            let job := set_status job FAILED in
            let job := set_error job ("Unexpected error: " +:+ text) in
            let job := set_completed_at job (completed_at env) in
            (Returned tt, with_jobs sm (Storage.update (StorageManager.jobs sm) job_id job))
        | Interrupted name => (Raised name, sm)
        end
  end.

End JobWorker.

(** ** services/account_service.py *)

Module AccountService.

(** The three dicts of [QuotaResponse] and its scalar fields; a quota value
    that is the string ["unlimited"] is [None]. *)
Record QuotaResponse := mkQuota {
  quota_user_id : string;
  quota_tier : UserTier;
  rate_limit_limit : Z;
  rate_limit_remaining : Z;
  rate_limit_reset : Z;
  rate_limit_window_seconds : Z;
  daily_quota_limit : option Z;
  daily_quota_used : Z;
  daily_quota_remaining : option Z;
  concurrent_jobs_limit : Z;
  concurrent_jobs_active : Z;
  concurrent_jobs_available : Z;
  quota_max_video_duration : Z;
  quota_can_generate : bool;
  quota_can_batch_generate : bool
}.

(** [get_quota]: [now] is the clock read by [get_current_usage], [today]
    the day read by [get_daily].  The limiter is returned as the call
    leaves it. *)
Definition get_quota (jobs : gmap string Job) (usage_daily : gmap string Z)
    (limiter : RateLimit.RateLimitService) (user : User) (now : Q) (today : string)
    : QuotaResponse * RateLimit.RateLimitService :=
  let tier_config := get_tier_config (user_tier user) in
  let '(rate_limit, limiter') :=
    RateLimit.get_current_usage limiter (user_id user) (user_tier user) "default" now in
  let daily_usage := Storage.get_daily usage_daily (user_id user) today in
  let daily_limit := daily_quota tier_config in
  let daily_remaining :=
    if 0 <? daily_limit then Z.max 0 (daily_limit - daily_usage) else -1 in
  let active_jobs :=
    Storage.count jobs
      (fun j => String.eqb (job_user_id j) (user_id user)
                && negb (Py.set_mem (job_status j) JobService.terminal_statuses)) in
  (mkQuota (user_id user) (user_tier user)
     (RateLimit.limit rate_limit) (RateLimit.remaining rate_limit)
     (RateLimit.reset_at rate_limit) (RateLimit.window_seconds rate_limit)
     (if 0 <? daily_limit then Some daily_limit else None)
     daily_usage
     (if 0 <? daily_limit then Some daily_remaining else None)
     (max_concurrent_jobs tier_config) active_jobs
     (Z.max 0 (max_concurrent_jobs tier_config - active_jobs))
     (max_video_duration tier_config) (can_generate tier_config)
     (can_batch_generate tier_config),
   limiter').

End AccountService.


(** ** models/responses.py *)

Module Responses.

Record PaginationMeta := mkMeta {
  total : Z;
  page : Z;
  per_page : Z;
  total_pages : Z;
  has_next : bool;
  has_prev : bool
}.

Record PaginatedResponse (T : Type) := mkPaginated {
  items : list T;
  meta : PaginationMeta
}.
Arguments mkPaginated {T} items meta.
Arguments items {T} _.
Arguments meta {T} _.

(** [PaginatedResponse.create]. *)
Definition create {T} (items : list T) (total page per_page : Z) : PaginatedResponse T :=
  let total_pages := if 0 <? per_page then (total + per_page - 1) / per_page else 0 in
  mkPaginated items
    (mkMeta total page per_page total_pages (page <? total_pages) (1 <? page)).

End Responses.

(** ** auth/mock_auth.py *)

Module MockAuthService.

(** [validate_api_key]: [users] is [self._users], from API key to user;
    the message of the [InvalidAPIKeyError] raised is carried. *)
Definition validate_api_key (users : gmap string User) (api_key : string) : outcome User :=
  match users !! api_key with
  | None => Raised "Invalid API key provided"
  | Some user =>
      if negb (user_is_active user) then Raised "User account is deactivated"
      else Returned user
  end.

End MockAuthService.

(** ** middleware/rate_limiter.py *)

(** [tier.value]. *)
Definition UserTier_value (tier : UserTier) : string :=
  match tier with
  | FREE => "free"
  | DEVELOPER => "developer"
  | PRO => "pro"
  | ENTERPRISE => "enterprise"
  end.

Module RateLimitMiddleware.

Definition EXCLUDED_PATHS : list string :=
  ["/health"; "/docs"; "/redoc"; "/openapi.json"]%string.

(** What [dispatch] reads of the request, and [request.state.request_id],
    which it sets before anything else. *)
Record Request := mkHttpRequest {
  url_path : string;
  x_api_key : option string;
  state_request_id : option string
}.

(** The [ErrorDetail] a [TooManyRequestsError] is turned into; its
    [timestamp] is left out. *)
Record ErrorDetail := mkErrorDetail {
  error_code : string;
  error_message : string;
  details_limit : Z;
  details_window : string;
  details_retry_after : Z;
  details_tier : string;
  details_upgrade_url : string;
  error_request_id : string
}.

(** A response: the body is the application's or the error of the
    middleware.  Header names are in lower case, as Starlette stores them;
    an assignment [headers[name] = value] replaces the header. *)
Inductive Content (Body : Type) :=
| FromApp (body : Body)
| ErrorResponse (error : ErrorDetail).
Arguments FromApp {Body} body.
Arguments ErrorResponse {Body} error.

Record Response (Body : Type) := mkResponse {
  status_code : Z;
  headers : gmap string string;
  content : Content Body
}.
Arguments mkResponse {Body} status_code headers content.
Arguments status_code {Body} _.
Arguments headers {Body} _.
Arguments content {Body} _.

Definition set_header {Body} (response : Response Body) (name value : string)
    : Response Body :=
  mkResponse (status_code response) (<[name := value]> (headers response))
    (content response).

Definition _add_rate_limit_headers {Body} (response : Response Body)
    (result : RateLimit.RateLimitResult) (request_id : string) : Response Body :=
  let response := set_header response "x-request-id" request_id in
  let response := set_header response "x-ratelimit-limit"
                    (Py.str_int (RateLimit.limit result)) in
  let response := set_header response "x-ratelimit-remaining"
                    (Py.str_int (RateLimit.remaining result)) in
  let response := set_header response "x-ratelimit-reset"
                    (Py.str_int (RateLimit.reset_at result)) in
  let response := set_header response "x-ratelimit-window"
                    (Py.str_int (RateLimit.window_seconds result)) in
  set_header response "x-ratelimit-policy" "sliding-window".

(** The readings [dispatch] takes from its environment: its own [uuid4],
    the clock and the [uuid4] of the limiter, the clock at each of the two
    reads of [result.retry_after], and the headers [JSONResponse] computes
    for the error body. *)
Record Env := mkEnv {
  request_id : string;
  now : Q;
  limiter_request_id : string;
  clock_error : Q;
  clock_header : Q;
  json_headers : gmap string string
}.

(** [dispatch]: [call_next] is the rest of the application, a function of
    the request and the application's state. *)
Definition dispatch {Body App : Type} (rate_limit_enabled : bool)
    (users : gmap string User) (limiter : RateLimit.RateLimitService)
    (call_next : Request -> App -> Response Body * App)
    (request : Request) (app : App) (env : Env)
    : Response Body * RateLimit.RateLimitService * App :=
  let request_id := request_id env in
  let request := mkHttpRequest (url_path request) (x_api_key request) (Some request_id) in
  let pass_through :=
    let '(response, app') := call_next request app in
    (set_header response "x-request-id" request_id, limiter, app') in
  if Py.set_mem (url_path request) EXCLUDED_PATHS then pass_through
  else if negb rate_limit_enabled then pass_through
  else
    match x_api_key request with
    | None => pass_through
    | Some api_key =>
        if negb (Py.truthy api_key) then pass_through
        else
          match MockAuthService.validate_api_key users api_key with
          | Raised _ => pass_through
          | Returned user =>
              let '(result, limiter') :=
                RateLimit.check_and_increment limiter (user_id user) (user_tier user)
                  (url_path request) (now env) (limiter_request_id env) in
              if negb (RateLimit.allowed result) then
                let limit := RateLimit.limit result in
                let window_seconds := RateLimit.window_seconds result in
                let error_detail :=
                  mkErrorDetail "RATE_LIMIT_EXCEEDED"
                    ("Rate limit exceeded: " +:+ Py.str_int limit +:+ " requests per "
                     +:+ Py.str_int window_seconds +:+ "s")
                    limit (Py.str_int window_seconds +:+ "s")
                    (RateLimit.retry_after result (clock_error env))
                    (UserTier_value (user_tier user))
                    "https://lumalabs.ai/pricing" request_id in
                let response :=
                  mkResponse 429 (json_headers env) (ErrorResponse error_detail) in
                let response := _add_rate_limit_headers response result request_id in
                let response :=
                  set_header response "retry-after"
                    (Py.str_int (RateLimit.retry_after result (clock_header env))) in
                (response, limiter', app)
              else
                let '(response, app') := call_next request app in
                (_add_rate_limit_headers response result request_id, limiter', app')
          end
    end.

End RateLimitMiddleware.

(** * Part II: the vocabulary of the specification

    Predicates and reference functions in the words of the specification,
    decision procedures for them, and the small states the examples use. *)

(** ** Comparisons on timestamps *)

#[global] Instance Q_lt_dec (x y : Q) : Decision (x < y)%Q.
Proof. destruct (Qlt_le_dec x y); [left|right]; lra. Defined.

#[global] Instance Q_le_dec (x y : Q) : Decision (x <= y)%Q.
Proof. destruct (Qlt_le_dec y x); [right|left]; lra. Defined.

(** ** The job state machine *)

(** The seven edges of the state machine, as the specification lists them. *)
Inductive edge : JobStatus -> JobStatus -> Prop :=
| edge_pending_queued : edge PENDING QUEUED
| edge_pending_cancelled : edge PENDING CANCELLED
| edge_queued_processing : edge QUEUED PROCESSING
| edge_queued_cancelled : edge QUEUED CANCELLED
| edge_queued_expired : edge QUEUED EXPIRED
| edge_processing_completed : edge PROCESSING COMPLETED
| edge_processing_failed : edge PROCESSING FAILED.

(** The four terminal statuses. *)
Definition terminal (s : JobStatus) : Prop :=
  s = COMPLETED \/ s = FAILED \/ s = CANCELLED \/ s = EXPIRED.

#[global] Instance terminal_dec s : Decision (terminal s).
Proof. unfold terminal. solve_decision. Defined.

(** The job as [cancel_job] leaves it. *)
Definition cancelled (job : Job) (now : Q) : Job :=
  set_completed_at (set_status job CANCELLED) now.

(** ** The rate limiter *)

(** An entry is live at [now] when it is younger than the window. *)
Definition live (now : Q) (window : Z) (ts : Q) : Prop :=
  (now - inject_Z window < ts)%Q.

#[global] Instance live_dec now window ts : Decision (live now window ts).
Proof. unfold live. apply _. Defined.

(** [s] is the timestamp of an oldest entry of the log [l]. *)
Definition oldest_in (l : list Q) (s : Q) : Prop :=
  s ∈ l /\ forall t, t ∈ l -> (s <= t)%Q.

(** [s] is the score of an oldest entry of the sorted set [z]. *)
Definition oldest_of (z : gmap string Q) (s : Q) : Prop :=
  (exists m, z !! m = Some s) /\ forall m t, z !! m = Some t -> (s <= t)%Q.

(** The number of entries logged under [key] with timestamp at least [a]. *)
Definition occupancy (svc : RateLimit.RateLimitService) (key : string) (a : Q) : nat :=
  match RateLimit._redis svc with
  | None =>
      length (filter (fun ts => (a <= ts)%Q)
                (default [] (RateLimit._local_counts svc !! key)))
  | Some r =>
      size (filter (fun kv : string * Q => (a <= kv.2)%Q) (Redis.zset_at r key))
  end.

(** The backing store is available for a call: there is no Redis client
    (the in-memory log is the store), or the server answers and the
    request id is not yet a member of the set (a fresh [uuid4]). *)
Definition store_ready (svc : RateLimit.RateLimitService) (key request_id : string)
    : Prop :=
  match RateLimit._redis svc with
  | None => True
  | Some r => Redis.reachable r = true /\ Redis.zset_at r key !! request_id = None
  end.

(** The backing store is available throughout a sequence of calls: the
    server answers, and the request ids are distinct and new to it. *)
Definition store_available (svc : RateLimit.RateLimitService)
    (calls : list RateLimit.Call) : Prop :=
  match RateLimit._redis svc with
  | None => True
  | Some r =>
      Redis.reachable r = true /\
      NoDup (RateLimit.call_request_id <$> calls) /\
      forall c k, c ∈ calls -> Redis.zset_at r k !! RateLimit.call_request_id c = None
  end.

(** A logged call on [key] that was admitted inside the window
    [[a, a + 60)]. *)
Definition admitted (key : string) (a : Q) (e : RateLimit.Call * RateLimit.RateLimitResult)
    : Prop :=
  RateLimit.call_key e.1 = key /\ RateLimit.allowed e.2 = true /\
  (a <= RateLimit.call_now e.1)%Q /\ (RateLimit.call_now e.1 < a + 60)%Q.

#[global] Instance admitted_dec key a e : Decision (admitted key a e).
Proof. unfold admitted. apply _. Defined.

(** How many calls of a log were admitted on [key] inside [[a, a + 60)]. *)
Definition admitted_in (key : string) (a : Q)
    (log : list (RateLimit.Call * RateLimit.RateLimitResult)) : nat :=
  length (filter (admitted key a) log).

(** The calls are made at non-decreasing times. *)
Definition in_time_order (calls : list RateLimit.Call) : Prop :=
  StronglySorted (fun c1 c2 => (RateLimit.call_now c1 <= RateLimit.call_now c2)%Q) calls.

(** ** The priority queue *)

(** The estimate as the specification words it, without rounding. *)
Definition spec_estimate (lengths : QueuePriority -> Z) (p : Z) (pr : QueuePriority) : Q :=
  match pr with
  | CRITICAL => (inject_Z (p - 1) * 30)%Q
  | HIGH => ((inject_Z (p - 1) + 0.5 * inject_Z (lengths CRITICAL)) * 30)%Q
  | NORMAL =>
      ((inject_Z (p - 1) + 0.3 * inject_Z (lengths CRITICAL)
        + 0.15 * inject_Z (lengths HIGH)) * 30)%Q
  end.

(** The bucket the weighted draw selects: the first priority, in the order
    CRITICAL, HIGH, NORMAL, whose accumulated weight reaches the draw. *)
Definition selected (choice : Z) : QueuePriority :=
  if choice <=? PQ.WEIGHTS CRITICAL then CRITICAL
  else if choice <=? PQ.WEIGHTS CRITICAL + PQ.WEIGHTS HIGH then HIGH
  else NORMAL.

(** Popping the head of one local queue. *)
Definition pop_local (qs : PQ.LocalQueues) (p : QueuePriority)
    : option (string * PQ.LocalQueues) :=
  match PQ.get_q qs p with
  | (job_id, _) :: tail => Some (job_id, PQ.set_q qs p tail)
  | [] => None
  end.

(** Popping the first entry of one Redis queue. *)
Definition pop_redis (r : Redis.Server) (p : QueuePriority)
    : option (string * Redis.Server) :=
  let z := Redis.zset_at r (PQ.QUEUE_KEYS p) in
  match Redis.ZRANGE_first z with
  | Some (job_id, _) => Some (job_id, Redis.store r (PQ.QUEUE_KEYS p) (delete job_id z))
  | None => None
  end.

(** What [dequeue] has to do, for a store [S] with a pop per priority: pop
    the selected bucket, or else the first non-empty queue in the order
    CRITICAL, HIGH, NORMAL. *)
Definition spec_dequeue {S} (pop : QueuePriority -> option (string * S)) (choice : Z)
    : option (string * S) :=
  match pop (selected choice) with
  | Some r => Some r
  | None =>
      match pop CRITICAL with
      | Some r => Some r
      | None =>
          match pop HIGH with
          | Some r => Some r
          | None => pop NORMAL
          end
      end
  end.

(** The priorities the fallback loop walks before it reaches [p]. *)
Definition walked_before (p : QueuePriority) : list QueuePriority :=
  match p with
  | CRITICAL => []
  | HIGH => [CRITICAL]
  | NORMAL => [CRITICAL; HIGH]
  end.

(** Job ids are non-empty strings ([create_job] builds them as
    ["job_" + 12 hex digits]), so an id read from Redis is truthy. *)
Definition ids_truthy (r : Redis.Server) : Prop :=
  forall p j s, Redis.zset_at r (PQ.QUEUE_KEYS p) !! j = Some s -> Py.truthy j = true.

(** Queue entries in ascending order of score. *)
Definition score_le (a b : string * Q) : Prop := (a.2 <= b.2)%Q.

(** ** States used in the examples *)

(** One CRITICAL job queued, and one HIGH job behind it. *)
Definition one_critical : PQ.PriorityQueue :=
  PQ.mkPQ None (PQ.mkQueues [("job_a"%string, 1%Q)] [("job_b"%string, 2%Q)] []).

(** One HIGH job queued in process, and the same job queued in Redis. *)
Definition one_high_local : PQ.PriorityQueue :=
  PQ.mkPQ None (PQ.mkQueues [] [("job_h"%string, 7%Q)] []).

Definition one_high_server : Redis.Server :=
  Redis.mkServer {[ "queue:high"%string := {[ "job_h"%string := 7%Q ]} ]} true.

Definition one_high_redis : PQ.PriorityQueue :=
  PQ.mkPQ (Some one_high_server) (PQ.mkQueues [] [] []).

(** The queue of one NORMAL job scored 5, in process and in Redis. *)
Definition one_normal_local : PQ.PriorityQueue :=
  PQ.mkPQ None (PQ.mkQueues [] [] [("job_a"%string, 5%Q)]).

Definition one_normal_zset : gmap string Q := {[ "job_a"%string := 5%Q ]}.

(** A limiter whose Redis server cannot be reached. *)
Definition down_service : RateLimit.RateLimitService :=
  RateLimit.mkService (Some (Redis.mkServer ∅ false)) ∅.

(** A log and a sorted set with one request, made at second 50. *)
Definition one_request_service : RateLimit.RateLimitService :=
  RateLimit.mkService None {[ "rate_limit:u1:default"%string := [50%Q] ]}.

Definition one_request_zset : gmap string Q := {[ "r1"%string := 50%Q ]}.

(** Twelve calls of one FREE user, one per second from second 0, on an
    empty in-memory limiter. *)
Definition twelve_calls : list RateLimit.Call :=
  map (fun n => RateLimit.mkCall "u1" FREE "default" (inject_Z (Z.of_nat n)) "req")
    (seq 0 12).

Definition empty_service : RateLimit.RateLimitService := RateLimit.mkService None ∅.

(** The users, request and environment of the scenarios S1, S2, S4. *)
Definition free_user : User := mkUser "user_free" "free@example.com" FREE "free_test_key" true.

Definition dev_user : User :=
  mkUser "user_dev" "dev@example.com" DEVELOPER "dev_test_key" true.

Definition sunset (duration : Z) : GenerationRequest :=
  mkRequest "sunset" duration "1080p" None "16:9" "dream-machine-1.5" None.

Definition first_env : JobService.Env :=
  JobService.mkEnv "0123456789abcdef0123456789abcdef" "2025-01-01" 100 101 102.

Definition fresh_state : JobService.State :=
  JobService.mkState ∅ ∅ (PQ.mkPQ None (PQ.mkQueues [] [] [])).

(** ** Vocabulary of the further properties *)

(** The backing store answers: there is no Redis client, or the server is
    reachable. *)
Definition store_answers (svc : RateLimit.RateLimitService) : Prop :=
  match RateLimit._redis svc with
  | None => True
  | Some r => Redis.reachable r = true
  end.

(** [ts] is a timestamp logged under [key], in the store the service uses. *)
Definition logged (svc : RateLimit.RateLimitService) (key : string) (ts : Q) : Prop :=
  match RateLimit._redis svc with
  | None => ts ∈ default [] (RateLimit._local_counts svc !! key)
  | Some r => exists m, Redis.zset_at r key !! m = Some ts
  end.

(** One call of [check_and_increment], and one of [get_current_usage]. *)
Definition check (svc : RateLimit.RateLimitService) (c : RateLimit.Call)
    : RateLimit.RateLimitResult * RateLimit.RateLimitService :=
  RateLimit.check_and_increment svc (RateLimit.call_user c) (RateLimit.call_tier c)
    (RateLimit.call_endpoint c) (RateLimit.call_now c) (RateLimit.call_request_id c).

Definition inspect (svc : RateLimit.RateLimitService) (c : RateLimit.Call)
    : RateLimit.RateLimitResult * RateLimit.RateLimitService :=
  RateLimit.get_current_usage svc (RateLimit.call_user c) (RateLimit.call_tier c)
    (RateLimit.call_endpoint c) (RateLimit.call_now c).

(** What [_check_local] does to the entries logged under its key. *)
Definition local_step (entries : list Q) (limit window_seconds : Z) (now : Q)
    : RateLimit.RateLimitResult * list Q :=
  let kept := List.filter (fun ts => Py.lt (now - inject_Z window_seconds) ts) entries in
  let count := Z.of_nat (length kept) in
  if count <? limit then
    (RateLimit.mkResult true limit (limit - count - 1)
       (Py.int (now + inject_Z window_seconds)) window_seconds,
     kept ++ [now])
  else
    (RateLimit.mkResult false limit 0
       (Py.int (match kept with [] => now | x :: l => Py.min x l end
                + inject_Z window_seconds)) window_seconds,
     kept).

(** What [_check_redis] reads from the script's reply. *)
Definition decode_reply (limit window_seconds : Z) (now : Q) (reply : list Z)
    : RateLimit.RateLimitResult :=
  match reply !! 0%nat, reply !! 1%nat, reply !! 2%nat with
  | Some r0, Some r1, Some r2 =>
      RateLimit.mkResult (negb (r0 =? 0)) limit r1 r2 window_seconds
  | _, _, _ => RateLimit.fail_open limit window_seconds now
  end.

(** An in-memory limiter whose log holds ten requests of one FREE user,
    one per second from second 0. *)
Definition full_service : RateLimit.RateLimitService :=
  RateLimit.mkService None
    {[ "rate_limit:u1:default"%string := map (fun n => inject_Z (Z.of_nat n)) (seq 0 10) ]}.

(** The number of entries under [key] that a check at [now] keeps. *)
Definition live_entries (svc : RateLimit.RateLimitService) (key : string) (now : Q)
    : nat :=
  match RateLimit._redis svc with
  | None =>
      length (filter (live now 60) (default [] (RateLimit._local_counts svc !! key)))
  | Some r =>
      size (filter (fun kv : string * Q => live now 60 kv.2) (Redis.zset_at r key))
  end.

(** The number of entries under [key]. *)
Definition entry_count (svc : RateLimit.RateLimitService) (key : string) : nat :=
  match RateLimit._redis svc with
  | None => length (default [] (RateLimit._local_counts svc !! key))
  | Some r => size (Redis.zset_at r key)
  end.

(** The answers [(allowed, remaining)] to [n] checks in a row when [k]
    entries are already counted: admitted while the count is below the
    limit, with [remaining] counting down, and denied from then on. *)
Fixpoint countdown (limit k : Z) (n : nat) : list (bool * Z) :=
  match n with
  | O => []
  | S n' =>
      if k <? limit then (true, limit - k - 1) :: countdown limit (k + 1) n'
      else (false, 0) :: countdown limit k n'
  end.

(** ** Vocabulary of the queue properties *)

(** Every in-memory queue is in ascending order of score. *)
Definition queues_sorted (pq : PQ.PriorityQueue) : Prop :=
  forall p, StronglySorted score_le (PQ.get_q (PQ._local_queues pq) p).

(** [(job_id, score)] is an entry of the queue of priority [p], in the
    store the queue uses. *)
Definition queued (pq : PQ.PriorityQueue) (p : QueuePriority) (job_id : string)
    (score : Q) : Prop :=
  match PQ._redis pq with
  | None => (job_id, score) ∈ PQ.get_q (PQ._local_queues pq) p
  | Some r => Redis.zset_at r (PQ.QUEUE_KEYS p) !! job_id = Some score
  end.

(** The store is in the state [dequeue] expects: the in-memory queues are
    sorted, or the server answers and holds non-empty job ids. *)
Definition queue_ready (pq : PQ.PriorityQueue) : Prop :=
  match PQ._redis pq with
  | None => queues_sorted pq
  | Some r => Redis.reachable r = true /\ ids_truthy r
  end.

(** The server answers, or there is none and the in-memory queue of [p]
    holds each job id once. *)
Definition queue_answers (pq : PQ.PriorityQueue) (p : QueuePriority) : Prop :=
  match PQ._redis pq with
  | None => NoDup (PQ.get_q (PQ._local_queues pq) p).*1
  | Some r => Redis.reachable r = true
  end.

(** A new job arrives behind the queued ones: the server answers, or the
    in-memory queue is sorted, holds no later score and not this job id. *)
Definition arrives_last (pq : PQ.PriorityQueue) (job : Job) (score : Q) : Prop :=
  match PQ._redis pq with
  | None =>
      let queue := PQ.get_q (PQ._local_queues pq) (job_priority job) in
      StronglySorted score_le queue /\
      Forall (fun y => score_le y (job_id job, score)) queue /\
      job_id job ∉ queue.*1
  | Some r => Redis.reachable r = true
  end.

(** A queue whose Redis server cannot be reached, with one HIGH job left in
    memory by an earlier outage. *)
Definition outage_queue : PQ.PriorityQueue :=
  PQ.mkPQ (Some (Redis.mkServer ∅ false)) (PQ.mkQueues [] [("job_h"%string, 7%Q)] []).

(** A job of the example user, as [create_job] would build it. *)
Definition example_job (id : string) (p : QueuePriority) (status : JobStatus) : Job :=
  mkJob id "user_dev" status p "sunset" 10 "1080p" None "16:9" "dream-machine-1.5"
    None None None None 100 None None None None None 0 3.


(** ** States of the job-lifecycle examples *)

(** The state after the example user's first job was created, and a
    storage manager holding its jobs. *)
Definition queued_state : JobService.State :=
  snd (JobService.create_job fresh_state (sunset 10) dev_user first_env).

Definition queued_storage : StorageManager.t :=
  StorageManager.mk (JobService.jobs queued_state) ∅ ∅ ∅ ∅.

Definition example_video : Video :=
  mkVideo "vid_0123456789ab" "sunset" (Some "sunset"%string) 10 "1080p" "16:9" None
    VIDEO_READY None None 300 300 "user_dev" (Some "job_0123456789ab"%string).

Definition example_clock : StorageManager.Clock :=
  StorageManager.mkClock "2025-01-01" "2025-01" "2025-01-01".

Definition success_env : JobWorker.Env :=
  JobWorker.mkEnv 200 (JobWorker.Generated example_video) 300 example_clock.

(** The generator is interrupted: the worker task is cancelled in the call. *)
Definition interrupted_env : JobWorker.Env :=
  JobWorker.mkEnv 200 (JobWorker.Interrupted "CancelledError") 300 example_clock.


(** A store with one finished job. *)
Definition finished_jobs : gmap string Job :=
  {[ "job_a"%string := example_job "job_a" NORMAL COMPLETED ]}.


(** ** Vocabulary of the listing properties *)

(** A job that [list_jobs] shows to [user] under the filter [status]. *)
Definition listed_for (user : User) (status : option JobStatus) (job : Job) : Prop :=
  job_user_id job = user_id user /\
  match status with Some s => job_status job = s | None => True end.

#[global] Instance listed_for_dec user status job : Decision (listed_for user status job).
Proof. unfold listed_for. destruct status; apply _. Defined.

(** Newest first. *)
Definition newer_first (a b : Job) : Prop := (job_created_at b <= job_created_at a)%Q.

(** Three jobs of the example user, in the order they were stored. *)
Definition three_jobs : list Job :=
  [ example_job "job_a" NORMAL COMPLETED;
    example_job "job_b" NORMAL QUEUED;
    example_job "job_c" NORMAL QUEUED ].


(** ** Vocabulary of the middleware properties *)

(** A request [dispatch] does not rate-limit: an excluded path, rate
    limiting switched off, or no API key that names an active user. *)
Definition unchecked (rate_limit_enabled : bool) (users : gmap string User)
    (request : RateLimitMiddleware.Request) : Prop :=
  RateLimitMiddleware.url_path request ∈ RateLimitMiddleware.EXCLUDED_PATHS \/
  rate_limit_enabled = false \/
  match RateLimitMiddleware.x_api_key request with
  | None => True
  | Some api_key =>
      api_key = ""%string \/
      match users !! api_key with
      | None => True
      | Some user => user_is_active user = false
      end
  end.

(** The request as the application sees it, with the request id set. *)
Definition forwarded (request : RateLimitMiddleware.Request)
    (env : RateLimitMiddleware.Env) : RateLimitMiddleware.Request :=
  RateLimitMiddleware.mkHttpRequest (RateLimitMiddleware.url_path request)
    (RateLimitMiddleware.x_api_key request) (Some (RateLimitMiddleware.request_id env)).

(** The check [dispatch] makes for [user] on the path of [request]. *)
Definition dispatch_call (user : User) (request : RateLimitMiddleware.Request)
    (env : RateLimitMiddleware.Env) : RateLimit.Call :=
  RateLimit.mkCall (user_id user) (user_tier user) (RateLimitMiddleware.url_path request)
    (RateLimitMiddleware.now env) (RateLimitMiddleware.limiter_request_id env).

(** The example application counts the requests it serves; the example
    limiter has logged ten requests of the FREE user on [/v1/jobs]. *)
Definition counting_app (request : RateLimitMiddleware.Request) (served : nat)
    : RateLimitMiddleware.Response unit * nat :=
  (RateLimitMiddleware.mkResponse 200 ∅ (RateLimitMiddleware.FromApp tt), S served).

Definition example_users : gmap string User := {[ "free_test_key"%string := free_user ]}.

Definition busy_limiter : RateLimit.RateLimitService :=
  RateLimit.mkService None
    {[ "rate_limit:user_free:/v1/jobs"%string
       := map (fun n => inject_Z (Z.of_nat n)) (seq 0 10) ]}.

Definition jobs_request : RateLimitMiddleware.Request :=
  RateLimitMiddleware.mkHttpRequest "/v1/jobs" (Some "free_test_key"%string) None.

Definition health_request : RateLimitMiddleware.Request :=
  RateLimitMiddleware.mkHttpRequest "/health" (Some "free_test_key"%string) None.

Definition example_env : RateLimitMiddleware.Env :=
  RateLimitMiddleware.mkEnv "req-1" 30 "req-2" 31 32 ∅.


(** ** States of the outage examples *)

(** The queue of [outage_queue] before the HIGH job arrived, the same queue
    once the server answers again (its sets are empty: the job was queued in
    memory), and a queue whose unreachable server holds the job. *)
Definition empty_outage_queue : PQ.PriorityQueue :=
  PQ.mkPQ (Some (Redis.mkServer ∅ false)) (PQ.mkQueues [] [] []).

Definition recovered_queue : PQ.PriorityQueue :=
  PQ.mkPQ (Some (Redis.mkServer ∅ true)) (PQ.mkQueues [] [("job_h"%string, 7%Q)] []).

Definition down_high_server : Redis.Server :=
  Redis.mkServer {[ "queue:high"%string := {[ "job_h"%string := 7%Q ]} ]} false.

Definition down_high_queue : PQ.PriorityQueue :=
  PQ.mkPQ (Some down_high_server) (PQ.mkQueues [] [] []).



(** * Part III: properties *)

(** ** Python numerics *)

Lemma py_le_iff x y : Py.le x y = true <-> (x <= y)%Q.
Proof. apply Qle_bool_iff. Qed.

Lemma py_lt_iff x y : Py.lt x y = true <-> (x < y)%Q.
Proof.
  unfold Py.lt. rewrite negb_true_iff.
  destruct (Qle_bool y x) eqn:E; split; intros H; try discriminate.
  - apply Qle_bool_iff in E. lra.
  - destruct (Qlt_le_dec x y) as [Hlt|Hle]; [exact Hlt|].
    apply Qle_bool_iff in Hle. congruence.
  - reflexivity.
Qed.

Lemma py_lt_false_iff x y : Py.lt x y = false <-> (y <= x)%Q.
Proof. unfold Py.lt. rewrite negb_false_iff. apply Qle_bool_iff. Qed.

Lemma py_le_false_iff x y : Py.le x y = false <-> (y < x)%Q.
Proof.
  split; intros H.
  - destruct (Qlt_le_dec y x) as [Hlt|Hle]; [exact Hlt|].
    apply py_le_iff in Hle. congruence.
  - destruct (Py.le x y) eqn:E; [|reflexivity].
    apply py_le_iff in E. lra.
Qed.

(** On a non-negative float, [int] is the floor. *)
Lemma py_int_floor x : (0 <= x)%Q -> Py.int x = Qfloor x.
Proof.
  destruct x as [n d]. unfold Qle, Py.int, Qfloor. simpl. intros H.
  apply Z.quot_div_nonneg; lia.
Qed.

(** ** The job state machine *)

Lemma can_transition_edge f t : can_transition f t = true <-> edge f t.
Proof.
  split.
  - destruct f, t; vm_compute; intros H; try discriminate; constructor.
  - destruct 1; reflexivity.
Qed.

Lemma can_transition_cancelled s :
  can_transition s CANCELLED = true <-> s = PENDING \/ s = QUEUED.
Proof.
  split.
  - destruct s; vm_compute; intros H; try discriminate; auto.
  - intros [-> | ->]; reflexivity.
Qed.

(** C3. [can_transition] holds exactly on the seven edges of the state
    machine and on no pair whose source is COMPLETED, FAILED, CANCELLED or
    EXPIRED; a call of the validated helper [_update_job_status] either
    follows one of these edges and installs the requested status, or leaves
    the job as it was and reports failure. *)
Theorem transition_table_exact :
  (forall f t, can_transition f t = true <-> edge f t) /\
  (forall f t, terminal f -> can_transition f t = false) /\
  (forall job new_status,
      let '(job', ok) := Worker._update_job_status job new_status in
      (ok = true -> edge (job_status job) (job_status job') /\
                    job_status job' = new_status) /\
      (ok = false -> job' = job /\ ~ edge (job_status job) new_status)).
Proof.
  split; [exact can_transition_edge|]. split.
  - intros f t [-> | [-> | [-> | ->]]]; destruct t; reflexivity.
  - intros job new_status. unfold Worker._update_job_status.
    destruct (can_transition (job_status job) new_status) eqn:E; simpl.
    + split; [|discriminate]. intros _. split; [|reflexivity].
      now apply can_transition_edge.
    + split; [discriminate|]. intros _. split; [reflexivity|].
      intros He. apply can_transition_edge in He. congruence.
Qed.

(** ** The wait-time estimate *)

Lemma queue_lengths_nonneg pq p : 0 <= PQ.get_queue_lengths pq p.
Proof.
  unfold PQ.get_queue_lengths, PQ.local_lengths, Redis.zcard, Redis.ZCARD.
  destruct (PQ._redis pq) as [r|]; [|lia].
  destruct (Redis.reachable r); destruct p; lia.
Qed.

Lemma py_int_scaled n f : 0 <= n -> (0 <= f)%Q ->
  Py.int (inject_Z n * f) = Qfloor (f * inject_Z n).
Proof.
  intros Hn Hf. rewrite py_int_floor.
  - apply Qfloor_comp. ring.
  - apply Qmult_le_0_compat; [|exact Hf].
    unfold Qle, inject_Z. simpl. lia.
Qed.

(** C6, the claim fails as stated: for the HIGH job at position 1 with one
    CRITICAL job queued the code answers 0 seconds, the unrounded formula
    15. *)
Lemma estimate_wait_unrounded_fails :
  PQ._estimate_wait one_critical 1 HIGH = 0 /\
  (spec_estimate (PQ.get_queue_lengths one_critical) 1 HIGH == 15)%Q /\
  ~ (inject_Z (PQ._estimate_wait one_critical 1 HIGH)
     == spec_estimate (PQ.get_queue_lengths one_critical) 1 HIGH)%Q.
Proof.
  split; [reflexivity|]. split; [reflexivity|].
  intros H. vm_compute in H. discriminate.
Qed.

(** C6, as amended. For every queue state and position [p] the estimate is
    [(p-1)*30] for CRITICAL, [(p-1 + floor(0.5*|CRITICAL|))*30] for HIGH and
    [(p-1 + floor(0.3*|CRITICAL|) + floor(0.15*|HIGH|))*30] for NORMAL: each
    weighted length is rounded down to an integer before it is added. *)
Theorem estimate_wait_floored (pq : PQ.PriorityQueue) (p : Z) (pr : QueuePriority) :
  let lengths := PQ.get_queue_lengths pq in
  PQ._estimate_wait pq p pr =
  match pr with
  | CRITICAL => (p - 1) * 30
  | HIGH => (p - 1 + Qfloor (0.5 * inject_Z (lengths CRITICAL))) * 30
  | NORMAL =>
      (p - 1 + Qfloor (0.3 * inject_Z (lengths CRITICAL))
       + Qfloor (0.15 * inject_Z (lengths HIGH))) * 30
  end.
Proof.
  intros lengths. unfold PQ._estimate_wait, PQ.estimate_from.
  fold lengths. unfold PQ.ESTIMATED_PROCESSING_TIME.
  pose proof (queue_lengths_nonneg pq CRITICAL) as Hc.
  pose proof (queue_lengths_nonneg pq HIGH) as Hh.
  fold lengths in Hc, Hh.
  destruct pr; [reflexivity| |].
  - rewrite py_int_scaled by (lia || (unfold Qle; simpl; lia)). reflexivity.
  - rewrite py_int_scaled by (lia || (unfold Qle; simpl; lia)).
    rewrite py_int_floor.
    + f_equal. f_equal. apply Qfloor_comp. ring.
    + apply Qmult_le_0_compat; [|unfold Qle; simpl; lia].
      apply Qmult_le_0_compat; [|unfold Qle; simpl; lia].
      unfold Qle, inject_Z. simpl. lia.
Qed.

(** ** The tier-to-priority map *)

(** C10. [get_priority_for_tier] sends ENTERPRISE to CRITICAL, PRO to HIGH
    and DEVELOPER to NORMAL; FREE is the one tier without an entry in
    [TIER_PRIORITY_MAP] and gets the default NORMAL instead of an error;
    and a FREE user never passes admission: [create_job] raises
    [InsufficientTierError] (required DEVELOPER) in every state. *)
Theorem priority_for_tier_default :
  QueueService.get_priority_for_tier ENTERPRISE = CRITICAL /\
  QueueService.get_priority_for_tier PRO = HIGH /\
  QueueService.get_priority_for_tier DEVELOPER = NORMAL /\
  (forall tier, tier ∉ map fst QueueService.TIER_PRIORITY_MAP <-> tier = FREE) /\
  (forall tier, tier ∉ map fst QueueService.TIER_PRIORITY_MAP ->
                QueueService.get_priority_for_tier tier = NORMAL) /\
  (forall st request uid email key active env,
      JobService.create_job st request (mkUser uid email FREE key active) env
      = (inl (InsufficientTierError FREE DEVELOPER []), st)).
Proof.
  assert (Hout : forall tier,
             tier ∉ map fst QueueService.TIER_PRIORITY_MAP <-> tier = FREE).
  { intros tier. simpl. split.
    - intros Hn. destruct tier; [reflexivity|..]; exfalso; apply Hn;
        repeat (first [apply list_elem_of_here | apply list_elem_of_further]).
    - intros -> Hin.
      repeat (apply elem_of_cons in Hin as [Hin|Hin]; [discriminate|]).
      now apply not_elem_of_nil in Hin. }
  repeat split; try reflexivity; try apply Hout.
  intros tier Hn. apply Hout in Hn. subst. reflexivity.
Qed.

(** ** The limiter fails open *)

(** C7, the claim fails as stated: at a clock reading of half a second the
    fail-open result carries [reset_at = 60], not [now + window = 60.5]. *)
Lemma fail_open_reset_is_truncated :
  RateLimit.allowed
    (fst (RateLimit.check_and_increment down_service "u1" FREE "default" 0.5 "r1")) = true /\
  RateLimit.reset_at
    (fst (RateLimit.check_and_increment down_service "u1" FREE "default" 0.5 "r1")) = 60 /\
  ~ (inject_Z (RateLimit.reset_at
       (fst (RateLimit.check_and_increment down_service "u1" FREE "default" 0.5 "r1")))
     == 0.5 + 60)%Q.
Proof.
  split; [reflexivity|]. split; [reflexivity|].
  intros H. vm_compute in H. discriminate.
Qed.

(** C7, as amended. When the Redis call made by [check_and_increment]
    raises, the call still returns: allowed, with the tier's limit,
    [remaining = limit - 1], a 60 second window and
    [reset_at = floor(now + 60)], the integer part of [now + window]; the
    service is left as it was. *)
Theorem check_and_increment_fails_open
    (svc : RateLimit.RateLimitService) (redis : Redis.Server)
    (user_id : string) (tier : UserTier) (endpoint : string) (now : Q)
    (request_id msg : string) :
  RateLimit._redis svc = Some redis ->
  fst (Redis.eval_rate_limit redis (RateLimit._get_key user_id endpoint) 60
         (rate_limit_per_minute (get_tier_config tier)) now request_id) = Raised msg ->
  (0 <= now)%Q ->
  RateLimit.check_and_increment svc user_id tier endpoint now request_id =
  (RateLimit.mkResult true
     (rate_limit_per_minute (get_tier_config tier))
     (rate_limit_per_minute (get_tier_config tier) - 1)
     (Qfloor (now + 60)) 60,
   svc).
Proof.
  intros Hredis Hraise Hnow.
  unfold RateLimit.check_and_increment. rewrite Hredis.
  unfold RateLimit._check_redis.
  unfold Redis.eval_rate_limit in *.
  destruct (Redis.reachable redis) eqn:Hup.
  - destruct (Redis.RATE_LIMIT_SCRIPT _ _ _ _ _) as [z reply]. discriminate.
  - simpl. unfold RateLimit.fail_open.
    rewrite py_int_floor by (change (inject_Z 60) with 60%Q; lra).
    destruct svc as [r l]. simpl in Hredis. subst r. reflexivity.
Qed.

Lemma check_and_increment_fails_open_witness :
  RateLimit.check_and_increment down_service "u1" FREE "default" 0.5 "r1" =
  (RateLimit.mkResult true 10 9 60 60, down_service).
Proof.
  exact (check_and_increment_fails_open down_service (Redis.mkServer ∅ false)
           "u1" FREE "default" 0.5 "r1" Redis.unreachable
           eq_refl eq_refl ltac:(unfold Qle; simpl; lia)).
Defined.

(** ** Admission *)

Lemma bool_filter_prop {A} (f : A -> bool) (P : A -> Prop) `{!forall x, Decision (P x)}
    (l : list A) :
  (forall x, f x = true <-> P x) -> List.filter f l = filter P l.
Proof.
  intros Hf. induction l as [|x l IH]; [reflexivity|].
  simpl. rewrite filter_cons. destruct (decide (P x)) as [Hp|Hp].
  - apply Hf in Hp. rewrite Hp. now f_equal.
  - destruct (f x) eqn:E; [|exact IH]. apply Hf in E. contradiction.
Qed.

Lemma terminal_statuses_spec s :
  Py.set_mem s JobService.terminal_statuses = true <-> terminal s.
Proof.
  unfold terminal. split.
  - destruct s; vm_compute; intros H; try discriminate; auto.
  - intros [-> | [-> | [-> | ->]]]; reflexivity.
Qed.

(** The active-job count is the number of stored jobs of the user whose
    status is not terminal. *)
Lemma count_active_jobs_spec st uid :
  JobService._count_active_jobs st uid =
  Z.of_nat (length (filter (fun j => job_user_id j = uid /\ ~ terminal (job_status j))
                      (snd <$> map_to_list (JobService.jobs st)))).
Proof.
  unfold JobService._count_active_jobs, Storage.count. do 2 f_equal.
  apply bool_filter_prop. intros j.
  rewrite andb_true_iff, negb_true_iff, String.eqb_eq.
  rewrite <- terminal_statuses_spec.
  destruct (Py.set_mem (job_status j) JobService.terminal_statuses);
    intuition congruence.
Qed.

(** One branch of [create_job]: the conjuncts whose premises contradict the
    branch are closed, the equation of the branch holds by computation. *)
Ltac admission_case Hres :=
  rewrite Hres; simpl;
  repeat match goal with |- _ /\ _ => split end;
  try (apply count_active_jobs_spec);
  try solve [ intros; first [congruence | tauto | lia | exfalso; tauto | exfalso; lia] ];
  try solve [ split; [ intros [? ?]; discriminate
                     | intros (?&?&?&?); exfalso; first [congruence | tauto | lia] ] ].

(** C4. [create_job] evaluates its four admission checks in order, the
    first failing one decides the error, and an error leaves the state
    untouched: (1) tier cannot generate: [InsufficientTierError] requiring
    DEVELOPER; (2) duration above the tier's maximum: [InsufficientTierError]
    requiring PRO when the duration is at most 120 and ENTERPRISE otherwise;
    (3) a positive daily quota that is used up: [QuotaExceededError "daily"],
    never for ENTERPRISE; (4) as many active jobs as the tier allows, where
    active means stored for this user with a non-terminal status:
    [QuotaExceededError "concurrent_jobs"]; and when all four pass the job is
    constructed with status PENDING, stored and enqueued. *)
Theorem create_job_admission_order
    (st : JobService.State) (request : GenerationRequest) (user : User)
    (env : JobService.Env) :
  let cfg := get_tier_config (user_tier user) in
  let used := Storage.get_daily (JobService.usage_daily st) (user_id user)
                (JobService.today env) in
  let active := JobService._count_active_jobs st (user_id user) in
  let result := JobService.create_job st request user env in
  let check1 := can_generate cfg = true in
  let check2 := req_duration request <= max_video_duration cfg in
  let check3 := ~ (0 < daily_quota cfg /\ daily_quota cfg <= used) in
  let check4 := active < max_concurrent_jobs cfg in
  (~ check1 ->
     result = (inl (InsufficientTierError (user_tier user) DEVELOPER []), st)) /\
  (check1 -> ~ check2 ->
     result = (inl (InsufficientTierError (user_tier user)
                      (if req_duration request <=? 120 then PRO else ENTERPRISE)
                      [("requested_duration"%string, req_duration request);
                       ("max_duration"%string, max_video_duration cfg)]), st)) /\
  (check1 -> check2 -> ~ check3 ->
     result = (inl (QuotaExceededError "daily" (daily_quota cfg) used), st)) /\
  (check1 -> check2 -> check3 -> ~ check4 ->
     result = (inl (QuotaExceededError "concurrent_jobs"
                      (max_concurrent_jobs cfg) active), st)) /\
  (check1 -> check2 -> check3 -> check4 ->
     result = (inr (fst (JobService.store_and_enqueue st
                           (JobService.new_job request user env) env)),
               snd (JobService.store_and_enqueue st
                      (JobService.new_job request user env) env)) /\
     job_status (JobService.new_job request user env) = PENDING) /\
  ((exists job, fst result = inr job) <-> check1 /\ check2 /\ check3 /\ check4) /\
  (user_tier user = ENTERPRISE ->
     forall l u, fst result <> inl (QuotaExceededError "daily" l u)) /\
  active = Z.of_nat (length (filter
             (fun j => job_user_id j = user_id user /\ ~ terminal (job_status j))
             (snd <$> map_to_list (JobService.jobs st)))).
Proof.
  intros cfg used active result check1 check2 check3 check4.
  assert (Hres : result = JobService.create_job st request user env) by reflexivity.
  unfold JobService.create_job in Hres.
  fold cfg in Hres. fold used in Hres. fold active in Hres.
  destruct (JobService.store_and_enqueue st (JobService.new_job request user env) env)
    as [job st'] eqn:Hse.
  subst check1 check2 check3 check4. simpl.
  destruct (can_generate cfg) eqn:E1; simpl in Hres.
  2:{ admission_case Hres. }
  destruct (max_video_duration cfg <? req_duration request) eqn:E2.
  { apply Z.ltb_lt in E2. admission_case Hres. }
  apply Z.ltb_ge in E2.
  destruct ((0 <? daily_quota cfg) && (daily_quota cfg <=? used)) eqn:E3.
  { pose proof E3 as E3'. rewrite andb_true_iff, Z.ltb_lt, Z.leb_le in E3'.
    admission_case Hres.
    intros Hent. subst cfg. rewrite Hent in E3'. simpl in E3'. lia. }
  assert (N3 : ~ (0 < daily_quota cfg /\ daily_quota cfg <= used)).
  { rewrite andb_false_iff, Z.ltb_ge, Z.leb_gt in E3. lia. }
  destruct (max_concurrent_jobs cfg <=? active) eqn:E4.
  { apply Z.leb_le in E4. admission_case Hres. }
  apply Z.leb_gt in E4. admission_case Hres.
  split; [intros _; tauto | intros _; eauto].
Qed.

(** ** Cancellation *)

Lemma get_job_found st jid user job :
  JobService.jobs st !! jid = Some job ->
  job_user_id job = user_id user ->
  JobService.get_job st jid user = inr job.
Proof.
  intros Hj Hu. unfold JobService.get_job, Storage.get. rewrite Hj.
  apply String.eqb_eq in Hu. now rewrite Hu.
Qed.


Lemma cancel_job_done st jid user job now :
  JobService.jobs st !! jid = Some job ->
  job_user_id job = user_id user ->
  can_transition (job_status job) CANCELLED = true ->
  JobService.cancel_job st jid user now
  = (inr (cancelled job now),
     JobService.mkState (<[jid := cancelled job now]> (JobService.jobs st))
       (JobService.usage_daily st)
       (if decide (job_status job = QUEUED)
        then snd (PQ.remove (JobService.queue st) (job_id job) (job_priority job))
        else JobService.queue st)).
Proof.
  intros Hj Hu Hc. unfold JobService.cancel_job.
  rewrite (get_job_found _ _ _ _ Hj Hu), Hc. simpl.
  unfold Storage.update. rewrite Hj. reflexivity.
Qed.

(** [remove] on the in-process queue drops the first entry of the job, and
    reports [False] and changes nothing when the job is not queued. *)
Lemma remove_first_spec queue job_id :
  match PQ.remove_first queue job_id with
  | Some queue' =>
      exists before score after,
        queue = before ++ (job_id, score) :: after /\
        queue' = before ++ after /\ job_id ∉ before.*1
  | None => job_id ∉ queue.*1
  end.
Proof.
  induction queue as [|[jid s] rest IH]; simpl.
  - apply not_elem_of_nil.
  - destruct (String.eqb jid job_id) eqn:E.
    + apply String.eqb_eq in E. subst jid.
      exists [], s, rest. split; [reflexivity|]. split; [reflexivity|].
      apply not_elem_of_nil.
    + apply String.eqb_neq in E.
      destruct (PQ.remove_first rest job_id) as [rest'|].
      * destruct IH as (before & score & after & -> & -> & Hnot).
        exists ((jid, s) :: before), score, after.
        split; [reflexivity|]. split; [reflexivity|].
        intros Hin.
        apply elem_of_cons in Hin as [Hin|Hin]; [simpl in Hin; congruence|contradiction].
      * intros Hin.
        apply elem_of_cons in Hin as [Hin|Hin]; [simpl in Hin; congruence|contradiction].
Qed.

Lemma position_from_None queue job_id : forall i,
  PQ.position_from queue job_id i = None <-> job_id ∉ queue.*1.
Proof.
  induction queue as [|[jid s] queue IH]; intros i; simpl.
  - split; [intros _; apply not_elem_of_nil|reflexivity].
  - rewrite not_elem_of_cons. destruct (String.eqb jid job_id) eqn:E.
    + apply String.eqb_eq in E. split; [discriminate|]. intros [Hne _]. congruence.
    + apply String.eqb_neq in E. rewrite IH. simpl. split; [intros H; split; [congruence|exact H]|tauto].
Qed.

Lemma zset_at_store_eq r k z : Redis.zset_at (Redis.store r k z) k = z.
Proof. unfold Redis.zset_at, Redis.store. simpl. now rewrite lookup_insert_eq. Qed.

Lemma zset_at_store_ne r k k' z :
  k <> k' -> Redis.zset_at (Redis.store r k z) k' = Redis.zset_at r k'.
Proof.
  intros H. unfold Redis.zset_at, Redis.store. simpl. now rewrite lookup_insert_ne.
Qed.




(** ** One rate-limit check *)

Lemma py_min_oldest l : forall x, oldest_in (x :: l) (Py.min x l).
Proof.
  unfold Py.min. induction l as [|y l IH]; intros x; simpl.
  - split; [apply list_elem_of_here|].
    intros t Ht. apply list_elem_of_singleton in Ht. subst. lra.
  - destruct (IH (if Py.lt y x then y else x)) as [Hin Hle].
    assert (Hxy : ((if Py.lt y x then y else x) <= x
                   /\ (if Py.lt y x then y else x) <= y)%Q).
    { destruct (Py.lt y x) eqn:E.
      - apply py_lt_iff in E. lra.
      - apply py_lt_false_iff in E. lra. }
    pose proof (Hle _ (list_elem_of_here _ _)) as Hm.
    split.
    + apply elem_of_cons in Hin as [Hin|Hin].
      * rewrite Hin. destruct (Py.lt y x).
        -- apply list_elem_of_further, list_elem_of_here.
        -- apply list_elem_of_here.
      * now do 2 apply list_elem_of_further.
    + intros t Ht.
      apply elem_of_cons in Ht as [->|Ht]; [lra|].
      apply elem_of_cons in Ht as [->|Ht]; [lra|].
      apply Hle. now apply list_elem_of_further.
Qed.

Lemma oldest_in_unique l s1 s2 : oldest_in l s1 -> oldest_in l s2 -> (s1 == s2)%Q.
Proof.
  intros [H1 L1] [H2 L2]. specialize (L1 _ H2). specialize (L2 _ H1). lra.
Qed.

Lemma kept_is_live (now : Q) (window : Z) (l : list Q) :
  List.filter (fun ts => Py.lt (now - inject_Z window) ts) l = filter (live now window) l.
Proof. apply bool_filter_prop. intros ts. apply py_lt_iff. Qed.

Lemma filter_live_idem now window (l : list Q) :
  filter (live now window) (filter (live now window) l) = filter (live now window) l.
Proof.
  induction l as [|x l IH]; [reflexivity|].
  rewrite filter_cons. destruct (decide (live now window x)) as [H|H]; [|exact IH].
  rewrite filter_cons_True by exact H. now f_equal.
Qed.

Lemma floor_shift_nonneg (s : Q) (window : Z) :
  (0 <= s)%Q -> 0 <= window -> (0 <= s + inject_Z window)%Q.
Proof.
  intros Hs Hw. assert (0 <= inject_Z window)%Q by (unfold Qle; simpl; lia). lra.
Qed.

(** The in-memory check, step by step. *)
Lemma check_local_step svc user_id endpoint limit window now :
  let key := RateLimit._get_key user_id endpoint in
  let entries := default [] (RateLimit._local_counts svc !! key) in
  let kept := filter (live now window) entries in
  let c := Z.of_nat (length kept) in
  (0 <= now)%Q -> 0 <= window -> (forall t, t ∈ entries -> (0 <= t)%Q) ->
  (c < limit ->
     RateLimit._check_local svc user_id endpoint limit window now =
     (RateLimit.mkResult true limit (limit - c - 1)
        (Qfloor (now + inject_Z window)) window,
      RateLimit.mkService (RateLimit._redis svc)
        (<[key := kept ++ [now]]> (RateLimit._local_counts svc)))) /\
  (limit <= c ->
     exists reset,
       RateLimit._check_local svc user_id endpoint limit window now =
       (RateLimit.mkResult false limit 0 reset window,
        RateLimit.mkService (RateLimit._redis svc)
          (<[key := kept]> (RateLimit._local_counts svc))) /\
       (forall s_min, oldest_in kept s_min ->
                      reset = Qfloor (s_min + inject_Z window)) /\
       (0 < limit -> exists s_min, oldest_in kept s_min) /\
       RateLimit._check_local
         (RateLimit.mkService (RateLimit._redis svc)
            (<[key := kept]> (RateLimit._local_counts svc)))
         user_id endpoint limit window now =
       (RateLimit.mkResult false limit 0 reset window,
        RateLimit.mkService (RateLimit._redis svc)
          (<[key := kept]> (RateLimit._local_counts svc)))).
Proof.
  intros key entries kept c Hnow Hw Hpos.
  assert (Hstep : forall svc0,
    default [] (RateLimit._local_counts svc0 !! key) = entries \/
    default [] (RateLimit._local_counts svc0 !! key) = kept ->
    RateLimit._check_local svc0 user_id endpoint limit window now =
    if c <? limit then
      (RateLimit.mkResult true limit (limit - c - 1)
         (Py.int (now + inject_Z window)) window,
       RateLimit.mkService (RateLimit._redis svc0)
         (<[key := kept ++ [now]]> (RateLimit._local_counts svc0)))
    else
      (RateLimit.mkResult false limit 0
         (Py.int (match kept with [] => now | x :: l => Py.min x l end
                  + inject_Z window)) window,
       RateLimit.mkService (RateLimit._redis svc0)
         (<[key := kept]> (RateLimit._local_counts svc0)))).
  { intros svc0 Hent. unfold RateLimit._check_local. fold key.
    rewrite kept_is_live.
    destruct Hent as [-> | ->]; [reflexivity|].
    unfold kept. rewrite filter_live_idem. reflexivity. }
  split.
  - intros Hc. rewrite Hstep by (left; reflexivity).
    apply Z.ltb_lt in Hc. rewrite Hc.
    rewrite py_int_floor by (now apply floor_shift_nonneg). reflexivity.
  - intros Hc. apply Z.ltb_ge in Hc.
    eexists. split; [|split; [|split]].
    + rewrite Hstep by (left; reflexivity). rewrite Hc. reflexivity.
    + intros s_min Hs. rewrite py_int_floor.
      * apply Qfloor_comp. apply Qplus_comp; [|reflexivity].
        destruct kept as [|x l] eqn:Hk.
        -- destruct Hs as [Hin _]. now apply not_elem_of_nil in Hin.
        -- apply (oldest_in_unique (x :: l)); [apply py_min_oldest|exact Hs].
      * apply floor_shift_nonneg; [|exact Hw].
        destruct kept as [|x l] eqn:Hk; [exact Hnow|].
        apply Hpos. destruct (py_min_oldest l x) as [Hin _].
        rewrite <- Hk in Hin. unfold kept in Hin.
        apply list_elem_of_filter in Hin. tauto.
    + intros Hl. destruct kept as [|x l] eqn:Hk.
      * apply Z.ltb_ge in Hc. subst c. simpl in Hc. lia.
      * exists (Py.min x l). apply py_min_oldest.
    + rewrite Hstep.
      * rewrite Hc. simpl. now rewrite insert_insert_eq.
      * right. simpl. now rewrite lookup_insert_eq.
Qed.

(** The first entry of a sorted set carries a least score. *)
Lemma entry_lt_le a b : Redis.entry_lt a b = true -> (a.2 <= b.2)%Q.
Proof.
  unfold Redis.entry_lt. rewrite orb_true_iff, andb_true_iff.
  intros [H | [H _]].
  - apply py_lt_iff in H. lra.
  - apply Qeq_bool_iff in H. lra.
Qed.

Lemma entry_lt_ge a b : Redis.entry_lt a b = false -> (b.2 <= a.2)%Q.
Proof.
  unfold Redis.entry_lt. rewrite orb_false_iff.
  intros [H _]. now apply py_lt_false_iff in H.
Qed.

Lemma fold_first_spec (t : list (string * Q)) : forall x,
  let e := fold_left (fun best y => if Redis.entry_lt y best then y else best) t x in
  e ∈ x :: t /\ forall e', e' ∈ x :: t -> (e.2 <= e'.2)%Q.
Proof.
  induction t as [|y t IH]; intros x; simpl.
  - split; [apply list_elem_of_here|].
    intros e' He. apply list_elem_of_singleton in He. subst. lra.
  - destruct (IH (if Redis.entry_lt y x then y else x)) as [Hin Hle].
    assert (Hxy : (((if Redis.entry_lt y x then y else x).2 <= x.2)
                   /\ ((if Redis.entry_lt y x then y else x).2 <= y.2))%Q).
    { destruct (Redis.entry_lt y x) eqn:E.
      - apply entry_lt_le in E. lra.
      - apply entry_lt_ge in E. lra. }
    pose proof (Hle _ (list_elem_of_here _ _)) as Hm.
    split.
    + apply elem_of_cons in Hin as [Hin|Hin].
      * rewrite Hin. destruct (Redis.entry_lt y x).
        -- apply list_elem_of_further, list_elem_of_here.
        -- apply list_elem_of_here.
      * now do 2 apply list_elem_of_further.
    + intros e' He.
      apply elem_of_cons in He as [->|He]; [lra|].
      apply elem_of_cons in He as [->|He]; [lra|].
      apply Hle. now apply list_elem_of_further.
Qed.

Lemma ZRANGE_first_None z : Redis.ZRANGE_first z = None <-> z = ∅.
Proof.
  unfold Redis.ZRANGE_first, Redis.first_of.
  rewrite <- map_to_list_empty_iff.
  destruct (map_to_list z); split; intros H; congruence.
Qed.

Lemma ZRANGE_first_Some z m s :
  Redis.ZRANGE_first z = Some (m, s) -> z !! m = Some s /\ oldest_of z s.
Proof.
  unfold Redis.ZRANGE_first, Redis.first_of.
  destruct (map_to_list z) as [|x t] eqn:Hl; [discriminate|].
  intros H. injection H as H.
  destruct (fold_first_spec t x) as [Hin Hle]. simpl in Hin, Hle.
  rewrite H in Hin, Hle. rewrite <- Hl in Hin, Hle.
  apply elem_of_map_to_list in Hin.
  split; [exact Hin|]. split; [eauto|].
  intros m' t' Hm'. apply elem_of_map_to_list in Hm'.
  apply (Hle (m', t') Hm').
Qed.

Lemma oldest_of_unique z s1 s2 : oldest_of z s1 -> oldest_of z s2 -> (s1 == s2)%Q.
Proof.
  intros [[m1 H1] L1] [[m2 H2] L2].
  specialize (L1 _ _ H2). specialize (L2 _ _ H1). lra.
Qed.

(** [ZREMRANGEBYSCORE key 0 (now - window)] keeps exactly the live entries,
    scores being Unix times and so non-negative. *)
Lemma zremrange_live (z : gmap string Q) now window :
  (forall m s, z !! m = Some s -> (0 <= s)%Q) ->
  Redis.ZREMRANGEBYSCORE z 0 (now - inject_Z window)
  = filter (fun kv : string * Q => live now window kv.2) z.
Proof.
  intros Hpos. unfold Redis.ZREMRANGEBYSCORE.
  apply map_filter_ext. intros m s Hm. simpl.
  unfold Redis.in_range, live. specialize (Hpos _ _ Hm).
  rewrite andb_false_iff, !py_le_false_iff. split.
  - intros [H|H]; lra.
  - intros H. now right.
Qed.

Lemma live_filter_idem (z : gmap string Q) now window :
  filter (fun kv : string * Q => live now window kv.2)
    (filter (fun kv : string * Q => live now window kv.2) z)
  = filter (fun kv : string * Q => live now window kv.2) z.
Proof.
  apply map_filter_id. intros m s Hm.
  now apply map_lookup_filter_Some in Hm as [_ Hm].
Qed.

(** The Lua script, step by step. *)
Lemma rate_limit_script_step (z : gmap string Q) window limit now request_id :
  let z1 := filter (fun kv : string * Q => live now window kv.2) z in
  let c := Z.of_nat (size z1) in
  (forall m s, z !! m = Some s -> (0 <= s)%Q) ->
  z !! request_id = None ->
  (c < limit ->
     Redis.RATE_LIMIT_SCRIPT z window limit now request_id =
     (<[request_id := now]> z1,
      [1; limit - c - 1; Qfloor (now + inject_Z window)]) /\
     size (<[request_id := now]> z1) = S (size z1)) /\
  (limit <= c ->
     exists reset,
       Redis.RATE_LIMIT_SCRIPT z window limit now request_id = (z1, [0; 0; reset]) /\
       (forall s_min, oldest_of z1 s_min ->
                      reset = Qfloor (s_min + inject_Z window)) /\
       (0 < limit -> exists s_min, oldest_of z1 s_min) /\
       Redis.RATE_LIMIT_SCRIPT z1 window limit now request_id = (z1, [0; 0; reset])).
Proof.
  intros z1 c Hpos Hfresh.
  assert (Hpos1 : forall m s, z1 !! m = Some s -> (0 <= s)%Q).
  { intros m s Hm. apply map_lookup_filter_Some in Hm as [Hm _]. eauto. }
  assert (Hfresh1 : z1 !! request_id = None).
  { apply map_lookup_filter_None. now left. }
  assert (Hstep : forall z0,
    filter (fun kv : string * Q => live now window kv.2) z0 = z1 ->
    (forall m s, z0 !! m = Some s -> (0 <= s)%Q) ->
    Redis.RATE_LIMIT_SCRIPT z0 window limit now request_id =
    if c <? limit then
      (<[request_id := now]> z1, [1; limit - c - 1; Qfloor (now + inject_Z window)])
    else
      (z1, [0; 0; Qfloor (match Redis.ZRANGE_first z1 with
                          | Some (_, s) => s + inject_Z window
                          | None => now + inject_Z window
                          end)%Q])).
  { intros z0 Hz0 Hp0. unfold Redis.RATE_LIMIT_SCRIPT.
    change (inject_Z 0) with 0%Q.
    rewrite (zremrange_live z0 now window Hp0), Hz0.
    unfold Redis.ZCARD, Redis.ZADD. fold c.
    destruct (c <? limit); [reflexivity|].
    destruct (Redis.ZRANGE_first z1) as [[m s]|]; reflexivity. }
  split.
  - intros Hc. rewrite (Hstep z eq_refl Hpos).
    apply Z.ltb_lt in Hc. rewrite Hc. split; [reflexivity|].
    now apply map_size_insert_None.
  - intros Hc. apply Z.ltb_ge in Hc.
    eexists. split; [|split; [|split]].
    + rewrite (Hstep z eq_refl Hpos), Hc. reflexivity.
    + intros s_min Hs. apply Qfloor_comp.
      destruct (Redis.ZRANGE_first z1) as [[m s]|] eqn:Hf.
      * apply ZRANGE_first_Some in Hf as [_ Hf].
        apply Qplus_comp; [|reflexivity].
        now apply (oldest_of_unique z1).
      * apply ZRANGE_first_None in Hf. destruct Hs as [[m Hm] _].
        rewrite Hf in Hm. now rewrite lookup_empty in Hm.
    + intros Hl. destruct (Redis.ZRANGE_first z1) as [[m s]|] eqn:Hf.
      * exists s. now apply ZRANGE_first_Some in Hf as [_ Hf].
      * apply ZRANGE_first_None in Hf. apply Z.ltb_ge in Hc.
        subst c. rewrite Hf, map_size_empty in Hc. simpl in Hc. lia.
    + rewrite (Hstep z1 (live_filter_idem z now window) Hpos1), Hc. reflexivity.
Qed.

(** C1. One rate-limit check, on the in-memory log ([_check_local]) and on
    the Redis sorted set ([RATE_LIMIT_SCRIPT]), timestamps being Unix times:
    the check first drops every entry with timestamp at most [now - window];
    with [c] the number of entries left, if [c < limit] it adds the entry for
    this request at [now] and answers allowed with [remaining = limit - c - 1]
    and [reset_at = floor(now + window)]; if [c >= limit] it adds nothing, the
    state is the old one less the expired entries, and it answers denied with
    [remaining = 0] and [reset_at = floor(s_min + window)] for [s_min] the
    oldest remaining timestamp (one exists when the limit is positive); a
    denied check repeated on the state it left changes nothing. *)
Theorem rate_limit_check_spec
    (svc : RateLimit.RateLimitService) (z : gmap string Q)
    (user_id endpoint request_id : string) (window limit : Z) (now : Q) :
  let key := RateLimit._get_key user_id endpoint in
  let entries := default [] (RateLimit._local_counts svc !! key) in
  let kept := filter (live now window) entries in
  let c := Z.of_nat (length kept) in
  let svc_kept := RateLimit.mkService (RateLimit._redis svc)
                    (<[key := kept]> (RateLimit._local_counts svc)) in
  let z1 := filter (fun kv : string * Q => live now window kv.2) z in
  let cz := Z.of_nat (size z1) in
  (0 <= now)%Q -> 0 <= window ->
  (forall t, t ∈ entries -> (0 <= t)%Q) ->
  (forall m s, z !! m = Some s -> (0 <= s)%Q) ->
  z !! request_id = None ->
  (* the in-memory log *)
  (c < limit ->
     RateLimit._check_local svc user_id endpoint limit window now =
     (RateLimit.mkResult true limit (limit - c - 1)
        (Qfloor (now + inject_Z window)) window,
      RateLimit.mkService (RateLimit._redis svc)
        (<[key := kept ++ [now]]> (RateLimit._local_counts svc)))) /\
  (limit <= c ->
     exists reset,
       RateLimit._check_local svc user_id endpoint limit window now =
       (RateLimit.mkResult false limit 0 reset window, svc_kept) /\
       (forall s_min, oldest_in kept s_min ->
                      reset = Qfloor (s_min + inject_Z window)) /\
       (0 < limit -> exists s_min, oldest_in kept s_min) /\
       RateLimit._check_local svc_kept user_id endpoint limit window now =
       (RateLimit.mkResult false limit 0 reset window, svc_kept)) /\
  (* the sorted set *)
  (cz < limit ->
     Redis.RATE_LIMIT_SCRIPT z window limit now request_id =
     (<[request_id := now]> z1,
      [1; limit - cz - 1; Qfloor (now + inject_Z window)]) /\
     size (<[request_id := now]> z1) = S (size z1)) /\
  (limit <= cz ->
     exists reset,
       Redis.RATE_LIMIT_SCRIPT z window limit now request_id = (z1, [0; 0; reset]) /\
       (forall s_min, oldest_of z1 s_min ->
                      reset = Qfloor (s_min + inject_Z window)) /\
       (0 < limit -> exists s_min, oldest_of z1 s_min) /\
       Redis.RATE_LIMIT_SCRIPT z1 window limit now request_id = (z1, [0; 0; reset])).
Proof.
  intros key entries kept c svc_kept z1 cz Hnow Hw Hent Hz Hfresh.
  destruct (check_local_step svc user_id endpoint limit window now Hnow Hw Hent)
    as [La Lb].
  destruct (rate_limit_script_step z window limit now request_id Hz Hfresh)
    as [Sa Sb].
  exact (conj La (conj Lb (conj Sa Sb))).
Qed.

Lemma rate_limit_check_spec_witness :
  (exists reset,
     RateLimit._check_local one_request_service "u1" "default" 1 60 100 =
     (RateLimit.mkResult false 1 0 reset 60,
      RateLimit.mkService None
        (<["rate_limit:u1:default"%string := [50%Q]]>
           (RateLimit._local_counts one_request_service))) /\
     reset = 110) /\
  Redis.RATE_LIMIT_SCRIPT one_request_zset 60 2 100 "r2" =
  (<["r2"%string := 100%Q]> one_request_zset, [1; 0; 160]).
Proof.
  assert (H1 : (0 <= 100)%Q) by (unfold Qle; simpl; lia).
  assert (H2 : 0 <= 60) by lia.
  assert (H3 : forall t, t ∈ default [] (RateLimit._local_counts one_request_service
                                         !! RateLimit._get_key "u1" "default")
                         -> (0 <= t)%Q).
  { intros t Ht. vm_compute in Ht. apply list_elem_of_singleton in Ht. subst.
    unfold Qle; simpl; lia. }
  assert (H4 : forall m s, one_request_zset !! m = Some s -> (0 <= s)%Q).
  { intros m s Hm. unfold one_request_zset in Hm.
    apply lookup_singleton_Some in Hm as [_ <-].
    unfold Qle; simpl; lia. }
  assert (H5 : one_request_zset !! "r2"%string = None) by reflexivity.
  split.
  - destruct (rate_limit_check_spec one_request_service one_request_zset
                "u1" "default" "r2" 60 1 100 H1 H2 H3 H4 H5) as (_ & Lb & _).
    destruct (Lb ltac:(vm_compute; discriminate)) as (reset & Heq & Hmin & _).
    exists reset. split; [exact Heq|].
    apply (Hmin 50%Q). split.
    + vm_compute. apply list_elem_of_here.
    + intros t Ht. vm_compute in Ht. apply list_elem_of_singleton in Ht.
      subst. unfold Qle; simpl; lia.
  - destruct (rate_limit_check_spec one_request_service one_request_zset
                "u1" "default" "r2" 60 2 100 H1 H2 H3 H4 H5) as (_ & _ & Sa & _).
    destruct (Sa ltac:(vm_compute; reflexivity)) as [Heq _].
    rewrite Heq. f_equal.
Defined.

(** ** Dequeue *)

Lemma total_weight_16 : PQ.total_weight = 16.
Proof. reflexivity. Qed.

Lemma spec_dequeue_None {S} (pop : QueuePriority -> option (string * S)) choice :
  spec_dequeue pop choice = None <-> forall p, pop p = None.
Proof.
  unfold spec_dequeue. split.
  - intros H p.
    destruct (pop (selected choice)); [discriminate|].
    destruct (pop CRITICAL) eqn:Ec; [discriminate|].
    destruct (pop HIGH) eqn:Eh; [discriminate|].
    destruct p; assumption.
  - intros H. now rewrite !H.
Qed.

Lemma spec_dequeue_Some {S} (pop : QueuePriority -> option (string * S)) choice r :
  spec_dequeue pop choice = Some r ->
  exists p,
    pop p = Some r /\
    (p = selected choice \/
     (pop (selected choice) = None /\
      forall p', In p' (walked_before p) -> pop p' = None)).
Proof.
  unfold spec_dequeue.
  destruct (pop (selected choice)) as [r0|] eqn:Es.
  { intros H. injection H as ->. exists (selected choice). auto. }
  destruct (pop CRITICAL) as [r0|] eqn:Ec.
  { intros H. injection H as ->. exists CRITICAL. split; [exact Ec|]. right.
    split; [reflexivity|]. simpl. tauto. }
  destruct (pop HIGH) as [r0|] eqn:Eh.
  { intros H. injection H as ->. exists HIGH. split; [exact Eh|]. right.
    split; [reflexivity|]. simpl. intros p' [<-|[]]. exact Ec. }
  intros H. exists NORMAL. split; [exact H|]. right.
  split; [reflexivity|]. simpl. intros p' [<-|[<-|[]]]; assumption.
Qed.

Lemma dequeue_local_refines pq choice :
  1 <= choice <= 16 ->
  PQ._dequeue_local pq choice =
  match spec_dequeue (pop_local (PQ._local_queues pq)) choice with
  | Some (job_id, qs') => (Some job_id, PQ.mkPQ (PQ._redis pq) qs')
  | None => (None, pq)
  end.
Proof.
  intros Hr. unfold PQ._dequeue_local, spec_dequeue, selected, pop_local.
  unfold PQ.priorities. simpl.
  change (0 + 10) with 10. change (10 + 5) with 15. change (15 + 1) with 16.
  destruct (choice <=? 10) eqn:E1; simpl.
  - destruct (PQ.q_critical (PQ._local_queues pq)) as [|[j s] t]; [|reflexivity].
    destruct (PQ.q_high (PQ._local_queues pq)) as [|[j s] t]; [|reflexivity].
    destruct (PQ.q_normal (PQ._local_queues pq)) as [|[j s] t]; reflexivity.
  - destruct (choice <=? 15) eqn:E2; simpl.
    + destruct (PQ.q_high (PQ._local_queues pq)) as [|[j s] t]; [|reflexivity].
      destruct (PQ.q_critical (PQ._local_queues pq)) as [|[j' s'] t']; [|reflexivity].
      destruct (PQ.q_normal (PQ._local_queues pq)) as [|[j s] t]; reflexivity.
    + assert (E3 : (choice <=? 16) = true) by (apply Z.leb_le; lia).
      rewrite E3.
      destruct (PQ.q_normal (PQ._local_queues pq)) as [|[j s] t]; [|reflexivity].
      destruct (PQ.q_critical (PQ._local_queues pq)) as [|[j' s'] t']; [|reflexivity].
      destruct (PQ.q_high (PQ._local_queues pq)) as [|[j s] t]; reflexivity.
Qed.

Lemma pop_local_None qs p : pop_local qs p = None <-> PQ.get_q qs p = [].
Proof.
  unfold pop_local. destruct (PQ.get_q qs p) as [|[j s] t]; split; congruence.
Qed.

Lemma pop_local_Some qs p job_id qs' :
  pop_local qs p = Some (job_id, qs') ->
  exists score tail,
    PQ.get_q qs p = (job_id, score) :: tail /\ qs' = PQ.set_q qs p tail.
Proof.
  unfold pop_local. destruct (PQ.get_q qs p) as [|[j s] t]; [discriminate|].
  intros H. injection H as -> <-. eauto.
Qed.

Lemma pop_redis_None r p :
  pop_redis r p = None <-> Redis.zset_at r (PQ.QUEUE_KEYS p) = ∅.
Proof.
  unfold pop_redis. rewrite <- ZRANGE_first_None.
  destruct (Redis.ZRANGE_first _) as [[j s]|]; split; congruence.
Qed.

Lemma pop_redis_Some r p job_id r' :
  pop_redis r p = Some (job_id, r') ->
  exists s,
    Redis.zset_at r (PQ.QUEUE_KEYS p) !! job_id = Some s /\
    oldest_of (Redis.zset_at r (PQ.QUEUE_KEYS p)) s /\
    r' = Redis.store r (PQ.QUEUE_KEYS p)
           (delete job_id (Redis.zset_at r (PQ.QUEUE_KEYS p))).
Proof.
  unfold pop_redis.
  destruct (Redis.ZRANGE_first _) as [[j s]|] eqn:E; [|discriminate].
  intros H. injection H as -> <-.
  apply ZRANGE_first_Some in E as [E1 E2]. eauto.
Qed.

Lemma pop_from_redis_spec r p :
  Redis.reachable r = true -> ids_truthy r ->
  match pop_redis r p with
  | Some (job_id, r') =>
      PQ._pop_from_redis_queue r p = (Some job_id, r') /\ Py.truthy job_id = true
  | None => PQ._pop_from_redis_queue r p = (None, r)
  end.
Proof.
  intros Hup Hids.
  unfold pop_redis, PQ._pop_from_redis_queue, Redis.eval_dequeue,
    Redis.QUEUE_DEQUEUE_SCRIPT, Redis.ZREM.
  rewrite Hup.
  destruct (Redis.ZRANGE_first _) as [[j s]|] eqn:E; [|reflexivity].
  apply ZRANGE_first_Some in E as [E _]. apply Hids in E.
  rewrite E. auto.
Qed.

Ltac pop_redis_step r p Hup Hids :=
  let E := fresh "E" in
  let Hp := fresh "Hp" in
  let Ht := fresh "Ht" in
  pose proof (pop_from_redis_spec r p Hup Hids) as Hp;
  destruct (pop_redis r p) as [[? ?]|] eqn:E;
  [ destruct Hp as [Hp Ht]; rewrite Hp; simpl; rewrite Ht; try reflexivity
  | rewrite Hp; simpl ].

Lemma dequeue_redis_refines pq r choice :
  1 <= choice <= 16 ->
  Redis.reachable r = true -> ids_truthy r ->
  PQ._dequeue_redis pq r choice =
  match spec_dequeue (pop_redis r) choice with
  | Some (job_id, r') => (Some job_id, PQ.mkPQ (Some r') (PQ._local_queues pq))
  | None => (None, PQ.mkPQ (Some r) (PQ._local_queues pq))
  end.
Proof.
  intros Hr Hup Hids. unfold PQ._dequeue_redis, spec_dequeue, selected.
  unfold PQ.priorities. simpl.
  change (0 + 10) with 10. change (10 + 5) with 15. change (15 + 1) with 16.
  destruct (choice <=? 10) eqn:E1.
  - pop_redis_step r CRITICAL Hup Hids.
    rewrite Hp. simpl.
    pop_redis_step r HIGH Hup Hids.
    pop_redis_step r NORMAL Hup Hids.
    reflexivity.
  - destruct (choice <=? 15) eqn:E2.
    + pop_redis_step r HIGH Hup Hids.
      pop_redis_step r CRITICAL Hup Hids.
      rewrite Hp. simpl.
      pop_redis_step r NORMAL Hup Hids.
      reflexivity.
    + assert (E3 : (choice <=? 16) = true) by (apply Z.leb_le; lia).
      rewrite E3.
      pop_redis_step r NORMAL Hup Hids.
      pop_redis_step r CRITICAL Hup Hids.
      pop_redis_step r HIGH Hup Hids.
      rewrite Hp. reflexivity.
Qed.

(** Where the store in use answers, [dequeue] does what C5 asks.  For a
    draw in [1, 16] (16 is the total weight) it returns no job id exactly
    when all three queues are empty, and then changes nothing; otherwise it
    returns the job id at the front of some queue and removes that entry,
    leaving the other entries and the other queues as they were: the queue
    is the bucket selected by the weighted draw when that bucket is
    non-empty, and else the first non-empty queue in the order CRITICAL,
    HIGH, NORMAL.  This holds on the in-process queues when no Redis client
    is configured, and on Redis when the server answers and the queued job
    ids are non-empty strings. *)
Theorem dequeue_where_store_answers (pq : PQ.PriorityQueue) (choice : Z) :
  1 <= choice <= PQ.total_weight ->
  (PQ._redis pq = None ->
     let qs := PQ._local_queues pq in
     (fst (PQ.dequeue pq choice) = None <-> forall p, PQ.get_q qs p = []) /\
     (fst (PQ.dequeue pq choice) = None -> snd (PQ.dequeue pq choice) = pq) /\
     (forall job_id, fst (PQ.dequeue pq choice) = Some job_id ->
        exists p score tail,
          PQ.get_q qs p = (job_id, score) :: tail /\
          PQ._redis (snd (PQ.dequeue pq choice)) = None /\
          PQ.get_q (PQ._local_queues (snd (PQ.dequeue pq choice))) p = tail /\
          (forall p', p' <> p ->
             PQ.get_q (PQ._local_queues (snd (PQ.dequeue pq choice))) p'
             = PQ.get_q qs p') /\
          (p = selected choice \/
           (PQ.get_q qs (selected choice) = [] /\
            forall p', In p' (walked_before p) -> PQ.get_q qs p' = [])))) /\
  (forall r, PQ._redis pq = Some r -> Redis.reachable r = true -> ids_truthy r ->
     let zs := fun p => Redis.zset_at r (PQ.QUEUE_KEYS p) in
     (fst (PQ.dequeue pq choice) = None <-> forall p, zs p = ∅) /\
     (fst (PQ.dequeue pq choice) = None -> snd (PQ.dequeue pq choice) = pq) /\
     (forall job_id, fst (PQ.dequeue pq choice) = Some job_id ->
        exists p s,
          zs p !! job_id = Some s /\ oldest_of (zs p) s /\
          PQ._local_queues (snd (PQ.dequeue pq choice)) = PQ._local_queues pq /\
          (exists r', PQ._redis (snd (PQ.dequeue pq choice)) = Some r' /\
             Redis.reachable r' = true /\
             Redis.zset_at r' (PQ.QUEUE_KEYS p) = delete job_id (zs p) /\
             forall k, k <> PQ.QUEUE_KEYS p -> Redis.zset_at r' k = Redis.zset_at r k) /\
          (p = selected choice \/
           (zs (selected choice) = ∅ /\
            forall p', In p' (walked_before p) -> zs p' = ∅)))).
Proof.
  intros Hr. rewrite total_weight_16 in Hr. split.
  - intros Hnone qs. unfold PQ.dequeue. rewrite Hnone.
    rewrite (dequeue_local_refines pq choice Hr). fold qs.
    destruct (spec_dequeue (pop_local qs) choice) as [[j qs']|] eqn:E; simpl.
    + split; [|split].
      * split; [discriminate|]. intros Hall.
        assert (Hn : spec_dequeue (pop_local qs) choice = None).
        { apply spec_dequeue_None. intros p. now apply pop_local_None. }
        congruence.
      * discriminate.
      * intros job_id Hj. injection Hj as <-.
        apply spec_dequeue_Some in E as (p & Hp & Hsel).
        apply pop_local_Some in Hp as (score & tail & Hq & ->).
        exists p, score, tail. cbn [fst snd PQ._redis PQ._local_queues].
        split; [exact Hq|]. split; [exact Hnone|].
        split; [destruct p; reflexivity|].
        split; [intros p' Hne; destruct p, p'; try reflexivity; congruence|].
        destruct Hsel as [Hsel|[Hs Hw]]; [now left|right].
        split; [now apply pop_local_None|].
        intros p' Hp'. now apply pop_local_None, Hw.
    + split; [|split].
      * split; [|reflexivity]. intros _ p.
        apply pop_local_None. exact (proj1 (spec_dequeue_None _ choice) E p).
      * reflexivity.
      * discriminate.
  - intros r Hsome Hup Hids zs. unfold PQ.dequeue. rewrite Hsome.
    rewrite (dequeue_redis_refines pq r choice Hr Hup Hids).
    destruct (spec_dequeue (pop_redis r) choice) as [[j r']|] eqn:E; simpl.
    + split; [|split].
      * split; [discriminate|]. intros Hall.
        assert (Hn : spec_dequeue (pop_redis r) choice = None).
        { apply spec_dequeue_None. intros p. apply pop_redis_None, Hall. }
        congruence.
      * discriminate.
      * intros job_id Hj. injection Hj as <-.
        apply spec_dequeue_Some in E as (p & Hp & Hsel).
        apply pop_redis_Some in Hp as (s & Hq & Hold & ->).
        exists p, s. cbn [fst snd PQ._redis PQ._local_queues].
        split; [exact Hq|]. split; [exact Hold|].
        split; [reflexivity|].
        split.
        { eexists. split; [reflexivity|]. split; [exact Hup|].
          split; [apply zset_at_store_eq|].
          intros k Hk. apply zset_at_store_ne. congruence. }
        destruct Hsel as [Hsel|[Hs Hw]]; [now left|right].
        split; [now apply pop_redis_None|].
        intros p' Hp'. now apply pop_redis_None, Hw.
    + split; [|split].
      * split; [|reflexivity]. intros _ p.
        apply pop_redis_None. exact (proj1 (spec_dequeue_None _ choice) E p).
      * intros _. destruct pq as [rd lq]. simpl in *. now subst rd.
      * discriminate.
Qed.

Lemma one_high_ids_truthy : ids_truthy one_high_server.
Proof.
  intros p j s. destruct p; vm_compute; try discriminate.
  destruct (decide (j = "job_h"%string)) as [->|Hne]; [reflexivity|].
  change ((({[ "job_h"%string := 7%Q ]} : gmap string Q) !! j) = Some s
          -> Py.truthy j = true).
  rewrite lookup_singleton_ne by congruence. discriminate.
Qed.

Lemma dequeue_where_store_answers_witness :
  fst (PQ.dequeue one_high_local 3) = Some "job_h"%string /\
  fst (PQ.dequeue one_high_redis 3) <> None.
Proof.
  assert (Hr : 1 <= 3 <= PQ.total_weight) by (rewrite total_weight_16; lia).
  destruct (dequeue_where_store_answers one_high_local 3 Hr) as [Hl _].
  destruct (dequeue_where_store_answers one_high_redis 3 Hr) as [_ Hrd].
  split.
  - destruct (Hl eq_refl) as (Hiff & _ & _).
    destruct (fst (PQ.dequeue one_high_local 3)) as [j|] eqn:E.
    + vm_compute in E. symmetry. exact E.
    + pose proof (proj1 Hiff eq_refl HIGH) as E'. discriminate.
  - destruct (Hrd one_high_server eq_refl eq_refl one_high_ids_truthy) as (Hiff & _ & _).
    intros E. pose proof (proj1 Hiff E HIGH) as E'.
    apply (f_equal (fun z : gmap string Q => z !! "job_h"%string)) in E'.
    vm_compute in E'. discriminate.
Defined.

(** C5, the code misses the claim once a Redis client is configured.  A job
    enqueued while the server cannot be reached is put in the in-process
    HIGH queue ([enqueue] falls back), where [get_position] and
    [get_queue_lengths] find it through their fallbacks; but [dequeue]
    returns no job id for every draw, during the outage and after the server
    is back, because it asks the server only.  It returns none as well when
    the unreachable server itself holds the job.  Without a client the same
    in-process queue is served. *)
Lemma dequeue_none_over_queued_job :
  snd (PQ.enqueue empty_outage_queue "job_h" HIGH 7) = outage_queue /\
  PQ.get_q (PQ._local_queues outage_queue) HIGH = [("job_h"%string, 7%Q)] /\
  PQ.get_position outage_queue "job_h" HIGH = Some 1 /\
  PQ.get_queue_lengths outage_queue HIGH = 1 /\
  (forall choice, PQ.dequeue outage_queue choice = (None, outage_queue)) /\
  (forall choice, PQ.dequeue recovered_queue choice = (None, recovered_queue)) /\
  (forall choice, PQ.dequeue down_high_queue choice = (None, down_high_queue)) /\
  fst (PQ.dequeue one_high_local 3) = Some "job_h"%string.
Proof.
  assert (Hdq : forall pq,
            (forall p, PQ._pop_from_redis_queue
                         (default (Redis.mkServer ∅ false) (PQ._redis pq)) p
                       = (None, default (Redis.mkServer ∅ false) (PQ._redis pq))) ->
            is_Some (PQ._redis pq) ->
            forall choice, PQ.dequeue pq choice = (None, pq)).
  { intros [[r|] qs] Hpop [r' Hr] choice; [|discriminate]. simpl in Hpop.
    unfold PQ.dequeue, PQ._dequeue_redis, PQ.priorities. cbn [PQ._redis PQ._local_queues].
    cbn [PQ.weighted_pass_redis PQ.fallback_pass_redis].
    repeat match goal with
           | |- context [choice <=? ?c] => destruct (choice <=? c)
           end;
      rewrite ?Hpop; cbn [PQ.truthy_id]; rewrite ?Hpop; reflexivity. }
  split; [reflexivity|]. split; [reflexivity|]. split; [reflexivity|].
  split; [reflexivity|].
  split; [|split; [|split]].
  - apply Hdq; [|eexists; reflexivity]. intros p. destruct p; reflexivity.
  - apply Hdq; [|eexists; reflexivity]. intros p. destruct p; reflexivity.
  - apply Hdq; [|eexists; reflexivity]. intros p. destruct p; reflexivity.
  - reflexivity.
Qed.

(** ** Enqueue *)

Lemma insert_by_perm {A} (key : A -> Q) x l : Py.insert_by key x l ≡ₚ x :: l.
Proof.
  induction l as [|y t IH]; simpl; [reflexivity|].
  destruct (Py.lt (key y) (key x)); [|reflexivity].
  rewrite IH. apply Permutation_swap.
Qed.

Lemma sort_by_perm {A} (key : A -> Q) l : Py.sort_by key l ≡ₚ l.
Proof.
  induction l as [|x l IH]; simpl; [reflexivity|].
  rewrite insert_by_perm. now rewrite IH.
Qed.

Lemma insert_by_sorted x l :
  StronglySorted score_le l -> StronglySorted score_le (Py.insert_by snd x l).
Proof.
  induction 1 as [|y t Hs IH Hall]; simpl.
  - constructor; [constructor|constructor].
  - destruct (Py.lt y.2 x.2) eqn:E.
    + apply py_lt_iff in E. constructor; [exact IH|].
      rewrite insert_by_perm. constructor; [unfold score_le; lra|exact Hall].
    + apply py_lt_false_iff in E. constructor; [now constructor|].
      constructor; [exact E|].
      eapply Forall_impl; [exact Hall|]. unfold score_le. intros z Hz. lra.
Qed.

(** After [queue.sort(key=score)] the queue is sorted and holds the same
    entries, whatever it held before. *)
Lemma sort_by_sorted l : StronglySorted score_le (Py.sort_by snd l).
Proof.
  induction l as [|x l IH]; simpl; [constructor|]. now apply insert_by_sorted.
Qed.

Lemma sort_by_sorted_id l : StronglySorted score_le l -> Py.sort_by snd l = l.
Proof.
  induction 1 as [|y t Hs IH Hall]; simpl; [reflexivity|].
  rewrite IH. destruct t as [|z t']; [reflexivity|]. simpl.
  apply Forall_cons in Hall as [Hz _]. unfold score_le in Hz.
  destruct (Py.lt z.2 y.2) eqn:E; [|reflexivity].
  apply py_lt_iff in E. lra.
Qed.

(** When the queue is sorted and the new score is not below any queued
    score, as for scores read from a clock that does not step back, the
    entry lands last and the returned length is its 1-indexed position. *)
Lemma enqueue_local_in_order pq job_id p score :
  let queue := PQ.get_q (PQ._local_queues pq) p in
  StronglySorted score_le queue ->
  Forall (fun y => score_le y (job_id, score)) queue ->
  PQ._enqueue_local pq job_id p score =
  (Z.of_nat (length queue) + 1,
   PQ.mkPQ (PQ._redis pq)
     (PQ.set_q (PQ._local_queues pq) p (queue ++ [(job_id, score)]))).
Proof.
  intros queue Hs Hall. unfold PQ._enqueue_local. fold queue.
  assert (Hsorted : StronglySorted score_le (queue ++ [(job_id, score)])).
  { clear -Hs Hall. induction Hs as [|y t Hs IH Hy]; simpl.
    - constructor; constructor.
    - apply Forall_cons in Hall as [Hyx Hall].
      constructor; [now apply IH|].
      apply Forall_app. split; [exact Hy|]. now constructor. }
  rewrite (sort_by_sorted_id _ Hsorted).
  rewrite length_app. simpl. f_equal. lia.
Qed.

(** The Redis script stores the pair and answers one plus the number of
    entries that precede it in the set's order: the 1-indexed rank. *)
Lemma enqueue_script_rank (z : gmap string Q) job_id score :
  Redis.QUEUE_ENQUEUE_SCRIPT z job_id score =
  (<[job_id := score]> z,
   Z.of_nat (size (filter (fun kv : string * Q =>
                             Redis.entry_lt kv (job_id, score) = true)
                     (<[job_id := score]> z))) + 1).
Proof.
  unfold Redis.QUEUE_ENQUEUE_SCRIPT, Redis.ZADD, Redis.ZRANK.
  now rewrite lookup_insert_eq.
Qed.

(** The in-process queue is sorted after every enqueue and holds the old
    entries and the new one. *)
Lemma enqueue_local_sorted pq job_id p score :
  let queue' := PQ.get_q (PQ._local_queues (snd (PQ._enqueue_local pq job_id p score))) p in
  StronglySorted score_le queue' /\
  queue' ≡ₚ PQ.get_q (PQ._local_queues pq) p ++ [(job_id, score)].
Proof.
  unfold PQ._enqueue_local. simpl.
  assert (Hget : forall qs q, PQ.get_q (PQ.set_q qs p q) p = q)
    by (intros qs q; destruct p; reflexivity).
  rewrite Hget. split; [apply sort_by_sorted|apply sort_by_perm].
Qed.

(** C9, the in-process path misses the claim: enqueueing job_b with score 3
    behind job_a with score 5 sorts job_b to the front, rank 1, yet
    [_enqueue_local] returns the queue length 2; [get_position] on the
    resulting queue says 1, and so does the Redis script on the same input. *)
Lemma enqueue_local_returns_length_not_rank :
  PQ.get_q (PQ._local_queues (snd (PQ._enqueue_local one_normal_local "job_b" NORMAL 3)))
    NORMAL = [("job_b"%string, 3%Q); ("job_a"%string, 5%Q)] /\
  fst (PQ._enqueue_local one_normal_local "job_b" NORMAL 3) = 2 /\
  PQ.position (fst (PQ.enqueue one_normal_local "job_b" NORMAL 3)) = 2 /\
  PQ.get_position (snd (PQ._enqueue_local one_normal_local "job_b" NORMAL 3))
    "job_b" NORMAL = Some 1 /\
  snd (Redis.QUEUE_ENQUEUE_SCRIPT one_normal_zset "job_b" 3) = 1.
Proof. repeat split; vm_compute; reflexivity. Qed.

(** ** At most [limit] admissions per window *)

Lemma window_start_live (a now x : Q) :
  (now < a + 60)%Q -> (a <= x)%Q -> live now 60 x.
Proof. unfold live. change (inject_Z 60) with 60%Q. intros. lra. Qed.

Lemma occupancy_local_step svc user endpoint limit now key a :
  RateLimit._redis svc = None ->
  (now < a + 60)%Q ->
  let r := fst (RateLimit._check_local svc user endpoint limit 60 now) in
  let svc' := snd (RateLimit._check_local svc user endpoint limit 60 now) in
  let kc := RateLimit._get_key user endpoint in
  RateLimit._redis svc' = None /\
  (kc <> key -> occupancy svc' key a = occupancy svc key a) /\
  (kc = key -> RateLimit.allowed r = false ->
     occupancy svc' key a = occupancy svc key a) /\
  (kc = key -> RateLimit.allowed r = true ->
     Z.of_nat (occupancy svc key a) < limit /\
     occupancy svc' key a
     = (occupancy svc key a + (if decide (a <= now)%Q then 1 else 0))%nat).
Proof.
  intros Hnone Hnow r svc' kc. subst r svc'.
  unfold RateLimit._check_local. fold kc. rewrite kept_is_live.
  set (entries := default [] (RateLimit._local_counts svc !! kc)).
  set (kept := filter (live now 60) entries).
  assert (Hkept : filter (fun ts => (a <= ts)%Q) kept
                  = filter (fun ts => (a <= ts)%Q) entries).
  { apply list_filter_filter_l. intros x Hx. now apply window_start_live with a. }
  assert (Hle : (length (filter (fun ts => (a <= ts)%Q) entries) <= length kept)%nat).
  { rewrite <- Hkept. apply length_filter. }
  unfold occupancy. rewrite Hnone.
  destruct (Z.of_nat (length kept) <? limit) eqn:E; simpl; rewrite ?Hnone.
  - split; [reflexivity|]. split; [|split].
    + intros Hne. now rewrite lookup_insert_ne.
    + discriminate.
    + intros <- _. rewrite lookup_insert_eq. simpl. fold entries.
      apply Z.ltb_lt in E. split; [lia|].
      rewrite filter_app, length_app, Hkept. f_equal.
      rewrite filter_cons, filter_nil. now destruct (decide (a <= now)%Q).
  - split; [reflexivity|]. split; [|split].
    + intros Hne. now rewrite lookup_insert_ne.
    + intros <- _. rewrite lookup_insert_eq. simpl. fold entries. now rewrite Hkept.
    + discriminate.
Qed.

Lemma occupancy_redis_step svc rd user endpoint limit now rid key a :
  RateLimit._redis svc = Some rd ->
  Redis.reachable rd = true ->
  Redis.zset_at rd (RateLimit._get_key user endpoint) !! rid = None ->
  (now < a + 60)%Q ->
  let r := fst (RateLimit._check_redis svc rd user endpoint limit 60 now rid) in
  let svc' := snd (RateLimit._check_redis svc rd user endpoint limit 60 now rid) in
  let kc := RateLimit._get_key user endpoint in
  (exists rd', RateLimit._redis svc' = Some rd' /\ Redis.reachable rd' = true /\
     forall k id, id <> rid -> Redis.zset_at rd k !! id = None ->
                  Redis.zset_at rd' k !! id = None) /\
  (kc <> key -> occupancy svc' key a = occupancy svc key a) /\
  (kc = key -> RateLimit.allowed r = false ->
     occupancy svc' key a = occupancy svc key a) /\
  (kc = key -> RateLimit.allowed r = true ->
     Z.of_nat (occupancy svc key a) < limit /\
     occupancy svc' key a
     = (occupancy svc key a + (if decide (a <= now)%Q then 1 else 0))%nat).
Proof.
  intros Hsome Hup Hfresh Hnow r svc' kc. subst r svc'.
  unfold RateLimit._check_redis, Redis.eval_rate_limit. fold kc. rewrite Hup.
  unfold Redis.RATE_LIMIT_SCRIPT, Redis.ZCARD, Redis.ZADD.
  set (z := Redis.zset_at rd kc) in *.
  set (z0 := Redis.ZREMRANGEBYSCORE z 0 (now - inject_Z 60)).
  assert (Hsub : z0 ⊆ z) by apply map_filter_subseteq.
  assert (Hkept : filter (fun kv : string * Q => (a <= kv.2)%Q) z0
                  = filter (fun kv : string * Q => (a <= kv.2)%Q) z).
  { unfold z0, Redis.ZREMRANGEBYSCORE. apply map_filter_filter_l.
    intros m s _ Hs. simpl in *. unfold Redis.in_range.
    apply andb_false_iff. right. apply py_le_false_iff.
    change (inject_Z 60) with 60%Q. lra. }
  assert (Hle : (size (filter (fun kv : string * Q => (a <= kv.2)%Q) z) <= size z0)%nat).
  { rewrite <- Hkept. apply map_size_filter. }
  assert (Hfresh0 : z0 !! rid = None).
  { eapply lookup_weaken_None; [exact Hfresh|exact Hsub]. }
  assert (Hother : forall z' k id, z' ⊆ <[rid := now]> z0 -> id <> rid ->
            Redis.zset_at rd k !! id = None ->
            Redis.zset_at (Redis.store rd kc z') k !! id = None).
  { intros z' k id Hz' Hid Hk. destruct (decide (kc = k)) as [<-|Hne].
    - rewrite zset_at_store_eq. eapply lookup_weaken_None; [|exact Hz'].
      rewrite lookup_insert_ne by congruence.
      eapply lookup_weaken_None; [exact Hk|exact Hsub].
    - now rewrite zset_at_store_ne. }
  unfold occupancy. rewrite Hsome.
  destruct (Z.of_nat (size z0) <? limit) eqn:E; simpl.
  - split; [|split; [|split]].
    + eexists. split; [reflexivity|]. split; [exact Hup|].
      intros k id. now apply Hother.
    + intros Hne. now rewrite zset_at_store_ne.
    + discriminate.
    + intros <- _. rewrite zset_at_store_eq. fold z.
      apply Z.ltb_lt in E. split; [lia|].
      destruct (decide (a <= now)%Q) as [Han|Han].
      * rewrite map_filter_insert_True by exact Han.
        rewrite map_size_insert_None, Hkept; [lia|].
        apply map_lookup_filter_None. now left.
      * rewrite map_filter_insert_not', Hkept; [lia|exact Han|].
        intros y Hy. congruence.
  - split; [|split; [|split]].
    + eexists. split; [reflexivity|]. split; [exact Hup|].
      intros k id. apply Hother. apply insert_subseteq. exact Hfresh0.
    + intros Hne. now rewrite zset_at_store_ne.
    + intros <- _. rewrite zset_at_store_eq. fold z. now rewrite Hkept.
    + discriminate.
Qed.

(** One call of [check_and_increment], on either store. *)
Lemma occupancy_step svc c key a :
  store_ready svc (RateLimit.call_key c) (RateLimit.call_request_id c) ->
  (RateLimit.call_now c < a + 60)%Q ->
  let out := RateLimit.check_and_increment svc (RateLimit.call_user c)
               (RateLimit.call_tier c) (RateLimit.call_endpoint c)
               (RateLimit.call_now c) (RateLimit.call_request_id c) in
  let limit := rate_limit_per_minute (get_tier_config (RateLimit.call_tier c)) in
  match RateLimit._redis svc with
  | None => RateLimit._redis (snd out) = None
  | Some rd =>
      exists rd', RateLimit._redis (snd out) = Some rd' /\ Redis.reachable rd' = true /\
        forall k id, id <> RateLimit.call_request_id c ->
                     Redis.zset_at rd k !! id = None -> Redis.zset_at rd' k !! id = None
  end /\
  (RateLimit.call_key c <> key -> occupancy (snd out) key a = occupancy svc key a) /\
  (RateLimit.call_key c = key -> RateLimit.allowed (fst out) = false ->
     occupancy (snd out) key a = occupancy svc key a) /\
  (RateLimit.call_key c = key -> RateLimit.allowed (fst out) = true ->
     Z.of_nat (occupancy svc key a) < limit /\
     occupancy (snd out) key a
     = (occupancy svc key a
        + (if decide (a <= RateLimit.call_now c)%Q then 1 else 0))%nat).
Proof.
  intros Hready Hnow out limit. subst out.
  unfold RateLimit.check_and_increment, store_ready, RateLimit.call_key in *.
  destruct (RateLimit._redis svc) as [rd|] eqn:Hrd.
  - destruct Hready as [Hup Hfresh].
    exact (occupancy_redis_step svc rd _ _ limit _ _ key a Hrd Hup Hfresh Hnow).
  - exact (occupancy_local_step svc _ _ limit _ key a Hrd Hnow).
Qed.

Lemma admitted_in_late key a svc : forall calls,
  Forall (fun c => (a + 60 <= RateLimit.call_now c)%Q) calls ->
  admitted_in key a (fst (RateLimit.run svc calls)) = 0%nat.
Proof.
  intros calls. revert svc.
  induction calls as [|c rest IH]; intros svc Hall; [reflexivity|].
  apply Forall_cons in Hall as [Hc Hall]. simpl.
  destruct (RateLimit.check_and_increment _ _ _ _ _ _) as [r svc1].
  specialize (IH svc1 Hall).
  destruct (RateLimit.run svc1 rest) as [log svc2]. simpl in *.
  unfold admitted_in in *. rewrite filter_cons_False; [exact IH|].
  unfold admitted. simpl. intros (_ & _ & _ & Hlt). lra.
Qed.

Lemma store_available_next svc c rest :
  store_available svc (c :: rest) ->
  store_ready svc (RateLimit.call_key c) (RateLimit.call_request_id c).
Proof.
  unfold store_available, store_ready.
  destruct (RateLimit._redis svc) as [rd|]; [|trivial].
  intros (Hup & _ & Hfresh). split; [exact Hup|].
  apply Hfresh. apply list_elem_of_here.
Qed.

(** Admissions inside the window plus the entries the log already holds
    there never pass the larger of the limit and those entries. *)
Lemma admitted_plus_occupancy key a L : forall calls svc,
  in_time_order calls ->
  (forall c, c ∈ calls -> RateLimit.call_key c = key ->
             rate_limit_per_minute (get_tier_config (RateLimit.call_tier c)) = L) ->
  store_available svc calls ->
  Z.of_nat (admitted_in key a (fst (RateLimit.run svc calls)) + occupancy svc key a)
  <= Z.max L (Z.of_nat (occupancy svc key a)).
Proof.
  induction calls as [|c rest IH]; intros svc Hsorted Htier Havail.
  { simpl. unfold admitted_in. simpl. lia. }
  apply StronglySorted_inv in Hsorted as [Hsorted Hc].
  destruct (decide (RateLimit.call_now c < a + 60)%Q) as [Hnow|Hlate].
  2:{ rewrite admitted_in_late; [lia|].
      constructor; [lra|]. eapply Forall_impl; [exact Hc|].
      intros c' Hc'. simpl in Hc'. lra. }
  pose proof (occupancy_step svc c key a (store_available_next _ _ _ Havail) Hnow)
    as (Hback & Hne & Hden & Hall).
  simpl in Hback, Hne, Hden, Hall. simpl.
  destruct (RateLimit.check_and_increment _ _ _ _ _ _) as [r svc1] eqn:Hcheck.
  simpl in Hback, Hne, Hden, Hall.
  assert (Havail1 : store_available svc1 rest).
  { unfold store_available in *.
    destruct (RateLimit._redis svc) as [rd|].
    - destruct Hback as (rd' & -> & Hup' & Hkeep).
      destruct Havail as (_ & Hnd & Hfresh).
      rewrite fmap_cons in Hnd. apply NoDup_cons in Hnd as [Hnotin Hnd].
      split; [exact Hup'|]. split; [exact Hnd|].
      intros c' k Hc'. apply Hkeep.
      + intros Heq. apply Hnotin. rewrite <- Heq.
        now apply list_elem_of_fmap_2.
      + apply Hfresh. now apply list_elem_of_further.
    - now rewrite Hback. }
  assert (Htier1 : forall c', c' ∈ rest -> RateLimit.call_key c' = key ->
             rate_limit_per_minute (get_tier_config (RateLimit.call_tier c')) = L).
  { intros c' Hc'. apply Htier. now apply list_elem_of_further. }
  specialize (IH svc1 Hsorted Htier1 Havail1).
  destruct (RateLimit.run svc1 rest) as [log svc2]. simpl in *.
  unfold admitted_in in *. rewrite filter_cons.
  destruct (decide (admitted key a (c, r))) as [Hadm|Hnot].
  - destruct Hadm as (Hk & Hal & Hlo & _). simpl in *.
    destruct (Hall Hk Hal) as [Hlt Hocc].
    rewrite (Htier c (list_elem_of_here _ _) Hk) in Hlt.
    rewrite decide_True in Hocc by exact Hlo.
    simpl. lia.
  - destruct (decide (RateLimit.call_key c = key)) as [Hk|Hk].
    + destruct (RateLimit.allowed r) eqn:Hal.
      * destruct (Hall Hk eq_refl) as [Hlt Hocc].
        rewrite decide_False in Hocc.
        -- rewrite Hocc in IH. lia.
        -- intros Hlo. apply Hnot. unfold admitted. simpl. tauto.
      * rewrite (Hden Hk eq_refl) in IH. lia.
    + rewrite (Hne Hk) in IH. lia.
Qed.

Lemma tier_limit_nonneg tier : 0 <= rate_limit_per_minute (get_tier_config tier).
Proof. destruct tier; simpl; lia. Qed.

(** C2. For a key [(user, endpoint)] whose calls are all made at one tier
    with per-minute limit [L], and any sequence of [check_and_increment]
    calls (on this key and on others) at non-decreasing times with the
    backing store available throughout, the calls on the key that were made
    inside a window [[a, a + 60)] and returned allowed are at most [L]. *)
Theorem admissions_per_window_bounded
    (svc : RateLimit.RateLimitService) (calls : list RateLimit.Call)
    (user_id endpoint : string) (tier : UserTier) (a : Q) :
  in_time_order calls ->
  (forall c, c ∈ calls ->
     RateLimit.call_key c = RateLimit._get_key user_id endpoint ->
     RateLimit.call_tier c = tier) ->
  store_available svc calls ->
  Z.of_nat (admitted_in (RateLimit._get_key user_id endpoint) a
              (fst (RateLimit.run svc calls)))
  <= rate_limit_per_minute (get_tier_config tier).
Proof.
  intros Hsorted Htier Havail.
  pose proof (admitted_plus_occupancy (RateLimit._get_key user_id endpoint) a
                (rate_limit_per_minute (get_tier_config tier)) calls svc Hsorted) as H.
  pose proof (tier_limit_nonneg tier) as Hpos.
  assert (Ht : forall c, c ∈ calls ->
            RateLimit.call_key c = RateLimit._get_key user_id endpoint ->
            rate_limit_per_minute (get_tier_config (RateLimit.call_tier c))
            = rate_limit_per_minute (get_tier_config tier)).
  { intros c Hc Hk. now rewrite (Htier c Hc Hk). }
  specialize (H Ht Havail). lia.
Qed.

(** Ten of the twelve are admitted, the last two are denied. *)
Example twelve_calls_admit_ten :
  admitted_in "rate_limit:u1:default" 0 (fst (RateLimit.run empty_service twelve_calls))
  = 10%nat /\
  map (fun e => RateLimit.allowed e.2) (fst (RateLimit.run empty_service twelve_calls))
  = [true; true; true; true; true; true; true; true; true; true; false; false].
Proof. split; vm_compute; reflexivity. Qed.

Lemma admissions_per_window_bounded_witness :
  Z.of_nat (admitted_in "rate_limit:u1:default" 0
              (fst (RateLimit.run empty_service twelve_calls))) <= 10.
Proof.
  assert (H1 : in_time_order twelve_calls).
  { unfold in_time_order, twelve_calls. simpl.
    repeat constructor; unfold Qle; simpl; lia. }
  assert (H2 : forall c, c ∈ twelve_calls ->
             RateLimit.call_key c = RateLimit._get_key "u1" "default" ->
             RateLimit.call_tier c = FREE).
  { intros c Hc _. unfold twelve_calls in Hc. simpl in Hc.
    repeat (apply elem_of_cons in Hc as [->|Hc]; [reflexivity|]).
    now apply not_elem_of_nil in Hc. }
  exact (admissions_per_window_bounded empty_service twelve_calls
           "u1" "default" FREE 0 H1 H2 I).
Defined.

(** ** Scenarios of the specification *)

(** S1 and S2: a FREE user is refused, a DEVELOPER is refused 60 seconds
    and gets 30 seconds queued at position 1. *)
Example scenario_generation_gates :
  fst (JobService.create_job fresh_state (sunset 10) free_user first_env)
  = inl (InsufficientTierError FREE DEVELOPER []) /\
  fst (JobService.create_job fresh_state (sunset 60) dev_user first_env)
  = inl (InsufficientTierError DEVELOPER PRO
           [("requested_duration"%string, 60); ("max_duration"%string, 30)]) /\
  (exists job,
     fst (JobService.create_job fresh_state (sunset 30) dev_user first_env) = inr job /\
     job_id job = "job_0123456789ab"%string /\
     job_status job = QUEUED /\
     job_priority job = NORMAL /\
     job_queue_position job = Some 1 /\
     job_estimated_wait_seconds job = Some 0).
Proof.
  split; [reflexivity|]. split; [reflexivity|].
  eexists. split; [vm_compute; reflexivity|]. repeat split.
Qed.

(** S4 and S5: the owner cancels a queued job, a second cancel is refused,
    and another user is refused from the start. *)
Example scenario_cancel :
  let st := snd (JobService.create_job fresh_state (sunset 30) dev_user first_env) in
  let st' := snd (JobService.cancel_job st "job_0123456789ab" dev_user 103) in
  (exists job,
     fst (JobService.cancel_job st "job_0123456789ab" dev_user 103) = inr job /\
     job_status job = CANCELLED /\ job_completed_at job = Some 103%Q) /\
  PQ.get_q (PQ._local_queues (JobService.queue st)) NORMAL
  = [("job_0123456789ab"%string, 101%Q)] /\
  PQ.get_q (PQ._local_queues (JobService.queue st')) NORMAL = [] /\
  fst (JobService.cancel_job st' "job_0123456789ab" dev_user 104)
  = inl (JobCancelledError "job_0123456789ab" CANCELLED) /\
  fst (JobService.cancel_job st "job_0123456789ab" free_user 103)
  = inl (PermissionDeniedError "job_0123456789ab") /\
  fst (JobService.cancel_job st "job_missing" dev_user 103)
  = inl (JobNotFoundError "job_missing").
Proof.
  split.
  - eexists. split; [vm_compute; reflexivity|]. split; reflexivity.
  - repeat split; vm_compute; reflexivity.
Qed.

(** S3: ten requests of a FREE user in one minute are admitted with
    [remaining] counting down from 9 to 0, the eleventh is denied. *)
Example scenario_rate_limit_exhaustion :
  map (fun e => (RateLimit.allowed e.2, RateLimit.remaining e.2))
    (fst (RateLimit.run empty_service (take 11 twelve_calls)))
  = [(true, 9); (true, 8); (true, 7); (true, 6); (true, 5); (true, 4);
     (true, 3); (true, 2); (true, 1); (true, 0); (false, 0)].
Proof. vm_compute. reflexivity. Qed.

(** * Part IV: further properties of the code *)

(** ** The rate limiter: normal forms *)

Lemma check_local_normal svc user_id endpoint limit window now :
  RateLimit._check_local svc user_id endpoint limit window now =
  let key := RateLimit._get_key user_id endpoint in
  let out := local_step (default [] (RateLimit._local_counts svc !! key))
               limit window now in
  (fst out, RateLimit.mkService (RateLimit._redis svc)
              (<[key := snd out]> (RateLimit._local_counts svc))).
Proof.
  unfold RateLimit._check_local, local_step. simpl.
  destruct (_ <? limit); reflexivity.
Qed.

Lemma check_redis_normal svc rd user_id endpoint limit window now rid :
  RateLimit._check_redis svc rd user_id endpoint limit window now rid =
  let key := RateLimit._get_key user_id endpoint in
  if Redis.reachable rd then
    let out := Redis.RATE_LIMIT_SCRIPT (Redis.zset_at rd key) window limit now rid in
    (decode_reply limit window now (snd out),
     RateLimit.mkService (Some (Redis.store rd key (fst out)))
       (RateLimit._local_counts svc))
  else
    (RateLimit.fail_open limit window now,
     RateLimit.mkService (Some rd) (RateLimit._local_counts svc)).
Proof.
  unfold RateLimit._check_redis, Redis.eval_rate_limit, decode_reply. simpl.
  destruct (Redis.reachable rd); [|reflexivity].
  destruct (Redis.RATE_LIMIT_SCRIPT _ _ _ _ _) as [z reply]. simpl.
  destruct (reply !! 0%nat), (reply !! 1%nat), (reply !! 2%nat); reflexivity.
Qed.

Lemma store_store r k z1 z2 :
  Redis.store (Redis.store r k z1) k z2 = Redis.store r k z2.
Proof. unfold Redis.store. simpl. now rewrite insert_insert_eq. Qed.

Lemma store_commute r k1 k2 z1 z2 :
  k1 <> k2 ->
  Redis.store (Redis.store r k1 z1) k2 z2 = Redis.store (Redis.store r k2 z2) k1 z1.
Proof.
  intros Hne. unfold Redis.store. simpl. f_equal. now apply insert_insert_ne.
Qed.

(** ** Keys do not interfere *)

Lemma string_length_app (a b : string) :
  String.length (a +:+ b) = (String.length a + String.length b)%nat.
Proof. induction a as [|c a IH]; simpl; [reflexivity|]. now rewrite IH. Qed.

Lemma string_app_cancel_r (a b s : string) : a +:+ s = b +:+ s -> a = b.
Proof.
  revert b. induction a as [|c a IH]; intros [|d b] H.
  - reflexivity.
  - apply (f_equal String.length) in H.
    rewrite !string_length_app in H. simpl in H. exfalso. lia.
  - apply (f_equal String.length) in H.
    rewrite !string_length_app in H. simpl in H. exfalso. lia.
  - change (String c (a +:+ s) = String d (b +:+ s)) in H.
    injection H as -> H. f_equal. now apply IH.
Qed.

(** On one endpoint, different users have different keys. *)
Lemma get_key_user_inj u1 u2 endpoint :
  RateLimit._get_key u1 endpoint = RateLimit._get_key u2 endpoint -> u1 = u2.
Proof.
  unfold RateLimit._get_key. intros H.
  apply String.app_inj in H. now apply string_app_cancel_r in H.
Qed.

Lemma check_unfold svc c :
  check svc c =
  let limit := rate_limit_per_minute (get_tier_config (RateLimit.call_tier c)) in
  let key := RateLimit.call_key c in
  match RateLimit._redis svc with
  | None =>
      let out := local_step (default [] (RateLimit._local_counts svc !! key))
                   limit 60 (RateLimit.call_now c) in
      (fst out, RateLimit.mkService None (<[key := snd out]> (RateLimit._local_counts svc)))
  | Some rd =>
      if Redis.reachable rd then
        let out := Redis.RATE_LIMIT_SCRIPT (Redis.zset_at rd key) 60 limit
                     (RateLimit.call_now c) (RateLimit.call_request_id c) in
        (decode_reply limit 60 (RateLimit.call_now c) (snd out),
         RateLimit.mkService (Some (Redis.store rd key (fst out)))
           (RateLimit._local_counts svc))
      else
        (RateLimit.fail_open limit 60 (RateLimit.call_now c),
         RateLimit.mkService (Some rd) (RateLimit._local_counts svc))
  end.
Proof.
  unfold check, RateLimit.check_and_increment, RateLimit.call_key.
  destruct (RateLimit._redis svc) as [rd|] eqn:E.
  - now rewrite check_redis_normal.
  - rewrite check_local_normal. simpl. now rewrite E.
Qed.

(** X1. Calls on different keys do not see each other, and commute. In
    particular two users never share a budget on one endpoint. *)
Theorem checks_on_distinct_keys_commute
    (svc : RateLimit.RateLimitService) (c1 c2 : RateLimit.Call) :
  RateLimit.call_key c1 <> RateLimit.call_key c2 ->
  fst (check (snd (check svc c1)) c2) = fst (check svc c2) /\
  fst (check (snd (check svc c2)) c1) = fst (check svc c1) /\
  snd (check (snd (check svc c1)) c2) = snd (check (snd (check svc c2)) c1).
Proof.
  intros Hne. rewrite !check_unfold.
  destruct svc as [[rd|] counts]; simpl.
  - destruct (Redis.reachable rd) eqn:Hup; simpl; rewrite ?Hup; simpl.
    + rewrite !zset_at_store_ne by congruence.
      split; [reflexivity|]. split; [reflexivity|].
      f_equal. f_equal. now apply store_commute.
    + rewrite ?Hup. auto.
  - rewrite !lookup_insert_ne by congruence.
    split; [reflexivity|]. split; [reflexivity|].
    f_equal. apply insert_insert_ne. congruence.
Qed.

Lemma checks_on_distinct_keys_commute_witness :
  fst (check (snd (check empty_service
                     (RateLimit.mkCall "u1" FREE "default" 0 "r1")))
         (RateLimit.mkCall "u2" FREE "default" 1 "r2"))
  = RateLimit.mkResult true 10 9 61 60.
Proof.
  assert (Hne : RateLimit.call_key (RateLimit.mkCall "u1" FREE "default" 0 "r1")
                <> RateLimit.call_key (RateLimit.mkCall "u2" FREE "default" 1 "r2")).
  { intros H. apply get_key_user_inj in H. discriminate. }
  destruct (checks_on_distinct_keys_commute empty_service _ _ Hne) as [H _].
  rewrite H. reflexivity.
Defined.

(** ** Read-only inspection *)

Lemma inspect_unfold svc c :
  inspect svc c =
  let limit := rate_limit_per_minute (get_tier_config (RateLimit.call_tier c)) in
  let key := RateLimit.call_key c in
  let now := RateLimit.call_now c in
  match RateLimit._redis svc with
  | None => RateLimit.usage_fallback svc key limit 60 now
  | Some rd =>
      if Redis.reachable rd then
        let z1 := Redis.ZREMRANGEBYSCORE (Redis.zset_at rd key) 0 (now - inject_Z 60) in
        (RateLimit.usage_result limit 60 (Redis.ZCARD z1) now,
         RateLimit.mkService (Some (Redis.store rd key z1)) (RateLimit._local_counts svc))
      else
        RateLimit.usage_fallback
          (RateLimit.mkService (Some rd) (RateLimit._local_counts svc)) key limit 60 now
  end.
Proof.
  unfold inspect, RateLimit.get_current_usage, RateLimit.call_key.
  destruct (RateLimit._redis svc) as [rd|]; [|reflexivity].
  unfold Redis.zremrangebyscore, Redis.zcard.
  destruct (Redis.reachable rd) eqn:Hup; [|reflexivity].
  simpl. rewrite Hup. now rewrite zset_at_store_eq.
Qed.

Lemma zremrange_twice (z : gmap string Q) (c c' : Q) :
  (c <= c')%Q ->
  Redis.ZREMRANGEBYSCORE (Redis.ZREMRANGEBYSCORE z 0 c) 0 c'
  = Redis.ZREMRANGEBYSCORE z 0 c'.
Proof.
  intros Hc. unfold Redis.ZREMRANGEBYSCORE. apply map_filter_filter_l.
  intros m s _ Hs. simpl in *. unfold Redis.in_range in *.
  apply andb_false_iff in Hs as [Hs|Hs]; apply andb_false_iff; [now left|right].
  apply py_le_false_iff in Hs. apply py_le_false_iff. lra.
Qed.

Lemma filter_twice (l : list Q) (c c' : Q) :
  (c <= c')%Q ->
  List.filter (fun ts => Py.lt c' ts) (List.filter (fun ts => Py.lt c ts) l)
  = List.filter (fun ts => Py.lt c' ts) l.
Proof.
  intros Hc. induction l as [|x l IH]; [reflexivity|]. simpl.
  destruct (Py.lt c x) eqn:E1; simpl; rewrite IH; [reflexivity|].
  destruct (Py.lt c' x) eqn:E2; [|reflexivity].
  apply py_lt_false_iff in E1. apply py_lt_iff in E2. lra.
Qed.

Lemma local_step_pruned (l : list Q) limit (now now' : Q) :
  (now <= now')%Q ->
  local_step (List.filter (fun ts => Py.lt (now - inject_Z 60) ts) l) limit 60 now'
  = local_step l limit 60 now'.
Proof.
  intros Hn. unfold local_step. rewrite filter_twice; [reflexivity|lra].
Qed.

Lemma script_pruned (z : gmap string Q) limit (now now' : Q) rid :
  (now <= now')%Q ->
  Redis.RATE_LIMIT_SCRIPT (Redis.ZREMRANGEBYSCORE z 0 (now - inject_Z 60)) 60 limit now' rid
  = Redis.RATE_LIMIT_SCRIPT z 60 limit now' rid.
Proof.
  intros Hn. unfold Redis.RATE_LIMIT_SCRIPT. rewrite zremrange_twice; [reflexivity|lra].
Qed.

(** X2. Reading the usage of a key never changes what a later check on that
    key answers; when the store answers, the state the check leaves is the
    same as well. *)
Theorem inspection_does_not_change_admission
    (svc : RateLimit.RateLimitService) (c c' : RateLimit.Call) :
  RateLimit.call_key c = RateLimit.call_key c' ->
  (RateLimit.call_now c <= RateLimit.call_now c')%Q ->
  fst (check (snd (inspect svc c)) c') = fst (check svc c') /\
  (store_answers svc -> check (snd (inspect svc c)) c' = check svc c').
Proof.
  intros Hkey Hnow. rewrite inspect_unfold, !check_unfold. rewrite <- Hkey.
  unfold store_answers.
  destruct svc as [[rd|] counts]; simpl.
  - destruct (Redis.reachable rd) eqn:Hup; simpl.
    + rewrite Hup, zset_at_store_eq.
      rewrite (script_pruned _ _ _ _ _ Hnow), store_store. auto.
    + split; [|discriminate].
      unfold RateLimit.usage_fallback. simpl.
      destruct (counts !! RateLimit.call_key c); simpl; now rewrite Hup.
  - unfold RateLimit.usage_fallback. simpl.
    destruct (counts !! RateLimit.call_key c) as [entries|] eqn:E; simpl.
    + rewrite lookup_insert_eq. simpl.
      rewrite (local_step_pruned _ _ _ _ Hnow), insert_insert_eq. auto.
    + rewrite E. auto.
Qed.

Lemma inspection_does_not_change_admission_witness :
  check (snd (inspect one_request_service
                (RateLimit.mkCall "u1" FREE "default" 120 "r0")))
    (RateLimit.mkCall "u1" FREE "default" 121 "r1")
  = check one_request_service (RateLimit.mkCall "u1" FREE "default" 121 "r1").
Proof.
  apply (inspection_does_not_change_admission one_request_service
           (RateLimit.mkCall "u1" FREE "default" 120 "r0")
           (RateLimit.mkCall "u1" FREE "default" 121 "r1")).
  - reflexivity.
  - unfold Qle; simpl; lia.
  - exact I.
Defined.

Lemma tier_limit_pos tier : 0 < rate_limit_per_minute (get_tier_config tier).
Proof. destruct tier; simpl; lia. Qed.

(** X3. When the store answers, [get_current_usage] tells what a check at
    the same instant would answer: the same [allowed] flag, and one more
    [remaining] than the check leaves when it admits; its [remaining] lies
    between 0 and the tier's limit. *)
Theorem inspection_predicts_check
    (svc : RateLimit.RateLimitService) (c : RateLimit.Call) :
  store_answers svc ->
  let limit := rate_limit_per_minute (get_tier_config (RateLimit.call_tier c)) in
  let seen := fst (inspect svc c) in
  let got := fst (check svc c) in
  RateLimit.allowed seen = RateLimit.allowed got /\
  RateLimit.remaining seen
  = RateLimit.remaining got + (if RateLimit.allowed got then 1 else 0) /\
  0 <= RateLimit.remaining seen <= limit /\
  RateLimit.limit seen = limit /\ RateLimit.limit got = limit.
Proof.
  intros Hans limit seen got. subst seen got.
  rewrite inspect_unfold, check_unfold. fold limit.
  pose proof (tier_limit_pos (RateLimit.call_tier c)) as Hpos. fold limit in Hpos.
  unfold store_answers in Hans.
  destruct svc as [[rd|] counts]; simpl in *.
  - rewrite Hans. unfold Redis.RATE_LIMIT_SCRIPT, RateLimit.usage_result. simpl.
    set (n := Redis.ZCARD (Redis.ZREMRANGEBYSCORE _ _ _)).
    assert (Hn : 0 <= n) by (unfold n, Redis.ZCARD; lia).
    destruct (n <? limit) eqn:E; simpl.
    + apply Z.ltb_lt in E. repeat split; lia.
    + apply Z.ltb_ge in E. repeat split; lia.
  - unfold RateLimit.usage_fallback, local_step, RateLimit.usage_result. simpl.
    destruct (counts !! RateLimit.call_key c) as [entries|]; simpl.
    + set (n := Z.of_nat (length (List.filter _ entries))).
      assert (Hn : 0 <= n) by (unfold n; lia).
      destruct (n <? limit) eqn:E; simpl.
      * apply Z.ltb_lt in E. repeat split; lia.
      * apply Z.ltb_ge in E. repeat split; lia.
    + change (Z.of_nat 0) with 0.
      assert (E : (0 <? limit) = true) by (apply Z.ltb_lt; lia).
      rewrite E. simpl. repeat split; lia.
Qed.

Lemma inspection_predicts_check_witness :
  RateLimit.remaining
    (fst (inspect one_request_service (RateLimit.mkCall "u1" FREE "default" 60 "r0")))
  = 9.
Proof.
  destruct (inspection_predicts_check one_request_service
              (RateLimit.mkCall "u1" FREE "default" 60 "r0") I) as (_ & H & _).
  rewrite H. reflexivity.
Defined.

(** ** Retry-After *)

Lemma floor_below (x : Q) (z : Z) : (x < inject_Z z)%Q -> Qfloor x < z.
Proof.
  intros H. pose proof (Qfloor_le x) as Hf.
  rewrite Zlt_Qlt. lra.
Qed.

Lemma floor_shift_le (x : Q) (n : Z) : Qfloor (x + inject_Z n) <= Qfloor x + n.
Proof.
  assert (H : Qfloor (x + inject_Z n) < Qfloor x + n + 1); [|lia].
  apply floor_below. pose proof (Qlt_floor x) as Hl.
  rewrite !inject_Z_plus in *. lra.
Qed.

Lemma py_min_in x l : Py.min x l ∈ x :: l.
Proof. apply py_min_oldest. Qed.

(** The reset time of any check lies at most one window after the second
    the check was made in, once no logged timestamp is in the future. *)
Lemma reset_at_within_window svc c :
  (forall ts, logged svc (RateLimit.call_key c) ts ->
              (0 <= ts <= RateLimit.call_now c)%Q) ->
  (0 <= RateLimit.call_now c)%Q ->
  RateLimit.reset_at (fst (check svc c)) <= Qfloor (RateLimit.call_now c) + 60.
Proof.
  intros Hlog Hnow. rewrite check_unfold. unfold logged in Hlog.
  set (now := RateLimit.call_now c) in *.
  set (key := RateLimit.call_key c) in *.
  assert (Hint : forall s, (0 <= s <= now)%Q ->
            Py.int (s + inject_Z 60) <= Qfloor now + 60).
  { intros s Hs. rewrite py_int_floor by (change (inject_Z 60) with 60%Q; lra).
    etransitivity; [|apply floor_shift_le].
    apply Qfloor_resp_le. lra. }
  assert (Hfl : forall s, (0 <= s <= now)%Q ->
            Qfloor (s + inject_Z 60) <= Qfloor now + 60).
  { intros s Hs. etransitivity; [|apply floor_shift_le].
    apply Qfloor_resp_le. lra. }
  destruct svc as [[rd|] counts]; simpl in *.
  - destruct (Redis.reachable rd); simpl.
    + unfold Redis.RATE_LIMIT_SCRIPT.
      destruct (_ <? _); simpl; [apply Hfl; lra|].
      destruct (Redis.ZRANGE_first _) as [[m s]|] eqn:E; [|apply Hfl; lra].
      apply ZRANGE_first_Some in E as [E _].
      apply map_lookup_filter_Some in E as [E _].
      apply Hfl, Hlog. eauto.
    + apply Hint. lra.
  - unfold local_step. destruct (_ <? _); simpl; [apply Hint; lra|].
    destruct (List.filter _ _) as [|x l] eqn:E; [apply Hint; lra|].
    apply Hint, Hlog.
    pose proof (py_min_in x l) as Hin. rewrite <- E in Hin.
    apply list_elem_of_In, filter_In in Hin as [Hin _].
    now apply list_elem_of_In.
Qed.

(** X4. For any check made at [now], on a log with no timestamp in the
    future, the Retry-After read at any later clock is between 0 and 60. *)
Theorem retry_after_within_window
    (svc : RateLimit.RateLimitService) (c : RateLimit.Call) (clock : Q) :
  (forall ts, logged svc (RateLimit.call_key c) ts ->
              (0 <= ts <= RateLimit.call_now c)%Q) ->
  (0 <= RateLimit.call_now c <= clock)%Q ->
  0 <= RateLimit.retry_after (fst (check svc c)) clock <= 60.
Proof.
  intros Hlog [Hnow Hclock]. unfold RateLimit.retry_after.
  pose proof (reset_at_within_window svc c Hlog Hnow) as Hr.
  assert (Hc : Qfloor (RateLimit.call_now c) <= Py.int clock).
  { rewrite py_int_floor by lra. now apply Qfloor_resp_le. }
  lia.
Qed.

Lemma retry_after_within_window_witness :
  0 <= RateLimit.retry_after
         (fst (check one_request_service
                 (RateLimit.mkCall "u1" FREE "default" 70 "r1"))) 75 <= 60.
Proof.
  apply (retry_after_within_window one_request_service
           (RateLimit.mkCall "u1" FREE "default" 70 "r1") 75).
  - intros ts Hts. vm_compute in Hts. apply list_elem_of_singleton in Hts. subst.
    split; unfold Qle; simpl; lia.
  - split; unfold Qle; simpl; lia.
Defined.

(** ** Admission again after the reset time *)

Lemma map_filter_size_lt (P : string * Q -> Prop) `{!forall x, Decision (P x)}
    (z : gmap string Q) m s :
  z !! m = Some s -> ~ P (m, s) -> (size (filter P z) < size z)%nat.
Proof.
  intros Hm Hn.
  assert (Hsub : filter P z ⊆ delete m z).
  { apply map_subseteq_spec. intros k v Hk.
    apply map_lookup_filter_Some in Hk as [Hk Hp].
    apply lookup_delete_Some. split; [|exact Hk].
    intros <-. rewrite Hm in Hk. injection Hk as <-. contradiction. }
  apply map_subseteq_size in Hsub.
  rewrite map_size_delete_Some in Hsub by eauto.
  assert (size z <> 0%nat); [|lia].
  intros H0. apply map_size_empty_iff in H0. rewrite H0 in Hm.
  now rewrite lookup_empty in Hm.
Qed.

Lemma floor_plus_one_above (s : Q) (now' : Q) :
  (inject_Z (Qfloor (s + inject_Z 60) + 1) <= now')%Q -> (s <= now' - inject_Z 60)%Q.
Proof.
  intros H. pose proof (Qlt_floor (s + inject_Z 60)) as Hl. lra.
Qed.

(** X5. A client denied at [now] is admitted by any check made at or after
    [reset_at + 1], when the log held no more live entries than the limit.
    ([reset_at] itself can be up to a second early, being rounded down.) *)
Theorem admitted_again_after_reset
    (svc : RateLimit.RateLimitService) (c c' : RateLimit.Call) :
  store_answers svc ->
  (forall ts, logged svc (RateLimit.call_key c) ts -> (0 <= ts)%Q) ->
  Z.of_nat (live_entries svc (RateLimit.call_key c) (RateLimit.call_now c))
  <= rate_limit_per_minute (get_tier_config (RateLimit.call_tier c)) ->
  RateLimit.allowed (fst (check svc c)) = false ->
  RateLimit.call_key c' = RateLimit.call_key c ->
  RateLimit.call_tier c' = RateLimit.call_tier c ->
  (inject_Z (RateLimit.reset_at (fst (check svc c)) + 1) <= RateLimit.call_now c')%Q ->
  RateLimit.allowed (fst (check (snd (check svc c)) c')) = true.
Proof.
  intros Hans Hpos Hlive Hden Hkey Htier Hlate.
  rewrite (check_unfold (snd _)). rewrite Hkey, Htier.
  rewrite check_unfold in Hden, Hlate |- *.
  pose proof (tier_limit_pos (RateLimit.call_tier c)) as Hlim.
  set (limit := rate_limit_per_minute (get_tier_config (RateLimit.call_tier c))) in *.
  set (now := RateLimit.call_now c) in *.
  set (now' := RateLimit.call_now c') in *.
  set (key := RateLimit.call_key c) in *.
  unfold store_answers, logged, live_entries in *.
  destruct svc as [[rd|] counts]; simpl in *.
  - rewrite Hans in *. simpl in *. rewrite Hans, zset_at_store_eq.
    unfold Redis.RATE_LIMIT_SCRIPT in *.
    set (z := Redis.zset_at rd key) in *.
    assert (Hz : Redis.ZREMRANGEBYSCORE z 0 (now - inject_Z 60)
                 = filter (fun kv : string * Q => live now 60 kv.2) z).
    { apply zremrange_live. intros m s Hm. apply Hpos. eauto. }
    rewrite Hz in *. set (z1 := filter _ z) in *.
    unfold Redis.ZCARD in *.
    destruct (Z.of_nat (size z1) <? limit) eqn:E; [discriminate|].
    apply Z.ltb_ge in E. simpl in Hlate |- *.
    destruct (Redis.ZRANGE_first z1) as [[m s]|] eqn:Ef.
    2:{ apply ZRANGE_first_None in Ef. rewrite Ef, map_size_empty in E.
        simpl in E. lia. }
    apply ZRANGE_first_Some in Ef as [Ef _].
    assert (Hs : (0 <= s)%Q).
    { apply map_lookup_filter_Some in Ef as [Ef' _]. apply Hpos. eauto. }
    apply floor_plus_one_above in Hlate.
    assert (Hlt : (size (Redis.ZREMRANGEBYSCORE z1 0 (now' - inject_Z 60)) < size z1)%nat).
    { apply (map_filter_size_lt _ z1 m s Ef). simpl.
      unfold Redis.in_range. intros Hf. apply andb_false_iff in Hf as [Hf|Hf];
        apply py_le_false_iff in Hf; lra. }
    assert (E' : (Z.of_nat (size (Redis.ZREMRANGEBYSCORE z1 0 (now' - inject_Z 60)))
                  <? limit) = true) by (apply Z.ltb_lt; lia).
    rewrite E'. reflexivity.
  - rewrite lookup_insert_eq. simpl. unfold local_step in *.
    set (entries := default [] (counts !! key)) in *.
    rewrite !kept_is_live in *. set (kept := filter (live now 60) entries) in *.
    destruct (Z.of_nat (length kept) <? limit) eqn:E; [discriminate|].
    apply Z.ltb_ge in E. simpl in Hlate |- *.
    destruct kept as [|x l] eqn:Hk; [simpl in E; lia|].
    pose proof (py_min_in x l) as Hin. rewrite <- Hk in Hin.
    assert (Hm : (0 <= Py.min x l)%Q).
    { apply Hpos. unfold kept in Hin. apply list_elem_of_filter in Hin. tauto. }
    rewrite py_int_floor in Hlate by (change (inject_Z 60) with 60%Q; lra).
    apply floor_plus_one_above in Hlate.
    assert (Hlt : (length (filter (live now' 60) (x :: l)) < length (x :: l))%nat).
    { rewrite <- Hk. apply (length_filter_lt _ _ (Py.min x l) Hin).
      unfold live. lra. }
    assert (E' : (Z.of_nat (length (filter (live now' 60) (x :: l))) <? limit) = true).
    { apply Z.ltb_lt. rewrite <- Hk in *. lia. }
    rewrite E'. reflexivity.
Qed.

Lemma admitted_again_after_reset_witness :
  RateLimit.allowed
    (fst (check (snd (check full_service (RateLimit.mkCall "u1" FREE "default" 30 "r1")))
            (RateLimit.mkCall "u1" FREE "default" 61 "r2"))) = true.
Proof.
  apply (admitted_again_after_reset full_service
           (RateLimit.mkCall "u1" FREE "default" 30 "r1")
           (RateLimit.mkCall "u1" FREE "default" 61 "r2")).
  - exact I.
  - intros ts Hts. vm_compute in Hts.
    repeat (apply elem_of_cons in Hts as [->|Hts]; [unfold Qle; simpl; lia|]).
    now apply not_elem_of_nil in Hts.
  - vm_compute. discriminate.
  - reflexivity.
  - reflexivity.
  - reflexivity.
  - vm_compute. discriminate.
Defined.

(** ** A burst inside one window *)

Lemma filter_all_true {A} (f : A -> bool) (l : list A) :
  (forall x, x ∈ l -> f x = true) -> List.filter f l = l.
Proof.
  induction l as [|x l IH]; intros H; [reflexivity|]. simpl.
  rewrite (H x) by apply list_elem_of_here. f_equal. apply IH.
  intros y Hy. apply H. now apply list_elem_of_further.
Qed.

Lemma store_available_step svc c rest :
  store_available svc (c :: rest) -> store_available (snd (check svc c)) rest.
Proof.
  intros Havail.
  assert (Hnow : (RateLimit.call_now c < RateLimit.call_now c + 60)%Q) by lra.
  pose proof (occupancy_step svc c (RateLimit.call_key c) (RateLimit.call_now c)
                (store_available_next _ _ _ Havail) Hnow) as (Hback & _).
  cbv zeta in Hback. fold (check svc c) in Hback.
  unfold store_available in *.
  destruct (RateLimit._redis svc) as [rd|].
  - destruct Hback as (rd' & -> & Hup' & Hkeep).
    destruct Havail as (_ & Hnd & Hfresh).
    rewrite fmap_cons in Hnd. apply NoDup_cons in Hnd as [Hnotin Hnd].
    split; [exact Hup'|]. split; [exact Hnd|].
    intros c' k Hc'. apply Hkeep.
    + intros Heq. apply Hnotin. rewrite <- Heq. now apply list_elem_of_fmap_2.
    + apply Hfresh. now apply list_elem_of_further.
  - now rewrite Hback.
Qed.

Lemma burst_step svc c t0 :
  store_ready svc (RateLimit.call_key c) (RateLimit.call_request_id c) ->
  (forall ts, logged svc (RateLimit.call_key c) ts -> (t0 <= ts)%Q) ->
  (t0 <= RateLimit.call_now c < t0 + 60)%Q ->
  let limit := rate_limit_per_minute (get_tier_config (RateLimit.call_tier c)) in
  let k := Z.of_nat (entry_count svc (RateLimit.call_key c)) in
  let out := check svc c in
  RateLimit.allowed (fst out) = (k <? limit) /\
  RateLimit.remaining (fst out) = (if k <? limit then limit - k - 1 else 0) /\
  entry_count (snd out) (RateLimit.call_key c)
  = (if k <? limit then S (entry_count svc (RateLimit.call_key c))
     else entry_count svc (RateLimit.call_key c)) /\
  (forall ts, logged (snd out) (RateLimit.call_key c) ts -> (t0 <= ts)%Q).
Proof.
  intros Hready Hlog [Hlo Hhi] limit k out. unfold out, k.
  rewrite check_unfold. cbv zeta. fold limit.
  unfold store_ready, logged, entry_count in *.
  set (key := RateLimit.call_key c) in *. set (now := RateLimit.call_now c) in *.
  destruct svc as [[rd|] counts]; cbn [RateLimit._redis RateLimit._local_counts] in *.
  - destruct Hready as [Hup Hfresh]. rewrite Hup.
    unfold Redis.RATE_LIMIT_SCRIPT.
    set (z := Redis.zset_at rd key) in *.
    assert (Hz : Redis.ZREMRANGEBYSCORE z 0 (now - inject_Z 60) = z).
    { unfold Redis.ZREMRANGEBYSCORE. apply map_filter_id. intros m s Hm. simpl.
      unfold Redis.in_range. apply andb_false_iff. right. apply py_le_false_iff.
      specialize (Hlog s (ex_intro _ m Hm)). change (inject_Z 60) with 60%Q. lra. }
    rewrite Hz. unfold Redis.ZCARD.
    destruct (Z.of_nat (size z) <? limit) eqn:E;
      cbn [fst snd RateLimit._redis RateLimit.allowed RateLimit.remaining decode_reply
           lookup]; simpl decode_reply;
      cbn [RateLimit.allowed RateLimit.remaining]; rewrite zset_at_store_eq.
    + split; [reflexivity|]. split; [reflexivity|]. split.
      * unfold Redis.ZADD. now rewrite map_size_insert_None.
      * intros ts [m Hm]. unfold Redis.ZADD in Hm.
        apply lookup_insert_Some in Hm as [[_ <-]|[_ Hm]]; [exact Hlo|eauto].
    + split; [reflexivity|]. split; [reflexivity|]. split; [reflexivity|]. exact Hlog.
  - unfold local_step.
    set (entries := default [] (counts !! key)) in *.
    assert (Hkept : List.filter (fun ts => Py.lt (now - inject_Z 60) ts) entries = entries).
    { apply filter_all_true. intros ts Hts. apply py_lt_iff.
      specialize (Hlog ts Hts). change (inject_Z 60) with 60%Q. lra. }
    rewrite Hkept.
    destruct (Z.of_nat (length entries) <? limit) eqn:E;
      cbn [fst snd RateLimit._redis RateLimit._local_counts RateLimit.allowed
           RateLimit.remaining];
      rewrite lookup_insert_eq; cbn [default].
    + split; [reflexivity|]. split; [reflexivity|]. split.
      * unfold id. rewrite length_app. simpl. lia.
      * intros ts Hts. unfold id in Hts. apply elem_of_app in Hts as [Hts|Hts]; [auto|].
        apply list_elem_of_singleton in Hts. now subst.
    + split; [reflexivity|]. split; [reflexivity|]. split; [reflexivity|]. exact Hlog.
Qed.

(** X6. A burst of calls on one key inside one window is admitted exactly
    up to the limit: when every logged entry and every call falls in
    [[t0, t0 + 60)], the calls are admitted while the log holds fewer than
    [limit] entries, with [remaining] counting down to 0, and every call
    after that is denied with [remaining = 0]. *)
Theorem burst_is_admitted_up_to_the_limit
    (svc : RateLimit.RateLimitService) (calls : list RateLimit.Call)
    (key : string) (tier : UserTier) (t0 : Q) :
  store_available svc calls ->
  (forall c, c ∈ calls ->
     RateLimit.call_key c = key /\ RateLimit.call_tier c = tier /\
     (t0 <= RateLimit.call_now c < t0 + 60)%Q) ->
  (forall ts, logged svc key ts -> (t0 <= ts)%Q) ->
  map (fun e : RateLimit.Call * RateLimit.RateLimitResult =>
         (RateLimit.allowed e.2, RateLimit.remaining e.2))
    (fst (RateLimit.run svc calls))
  = countdown (rate_limit_per_minute (get_tier_config tier))
      (Z.of_nat (entry_count svc key)) (length calls).
Proof.
  revert svc. induction calls as [|c rest IH]; intros svc Havail Hcalls Hlog;
    [reflexivity|].
  destruct (Hcalls c (list_elem_of_here _ _)) as (Hk & Ht & Hnow).
  rewrite <- Hk in Hlog.
  pose proof (burst_step svc c t0 (store_available_next _ _ _ Havail) Hlog Hnow)
    as (Hal & Hrem & Hcount & Hlog').
  cbv zeta in Hal, Hrem, Hcount, Hlog'. rewrite Hk, Ht in *.
  pose proof (store_available_step svc c rest Havail) as Havail'.
  specialize (IH (snd (check svc c)) Havail'
                (fun c' Hc' => Hcalls c' (list_elem_of_further _ _ _ Hc')) Hlog').
  simpl RateLimit.run. fold (check svc c).
  destruct (check svc c) as [r svc1]. cbn [fst snd] in *.
  destruct (RateLimit.run svc1 rest) as [log svc2]. cbn [fst snd map] in *.
  rewrite IH, Hal, Hrem, Hcount. simpl countdown.
  destruct (Z.of_nat (entry_count svc key) <? _); [|reflexivity].
  do 2 f_equal. lia.
Qed.

Lemma burst_is_admitted_up_to_the_limit_witness :
  map (fun e : RateLimit.Call * RateLimit.RateLimitResult =>
         (RateLimit.allowed e.2, RateLimit.remaining e.2))
    (fst (RateLimit.run empty_service twelve_calls))
  = countdown (rate_limit_per_minute (get_tier_config FREE))
      (Z.of_nat (entry_count empty_service "rate_limit:u1:default")) (length twelve_calls).
Proof.
  apply (burst_is_admitted_up_to_the_limit empty_service twelve_calls
           "rate_limit:u1:default" FREE 0).
  - exact I.
  - intros c Hc. unfold twelve_calls in Hc. simpl in Hc.
    repeat (apply elem_of_cons in Hc as [->|Hc];
            [split; [reflexivity|split; [reflexivity|split; unfold Qle, Qlt; simpl; lia]]|]).
    now apply not_elem_of_nil in Hc.
  - intros ts Hts. vm_compute in Hts. now apply not_elem_of_nil in Hts.
Defined.

(** ** The queue with a Redis client configured *)

Lemma zset_at_store_sub r key z k m s :
  (forall m s, z !! m = Some s -> Redis.zset_at r key !! m = Some s) ->
  Redis.zset_at (Redis.store r key z) k !! m = Some s ->
  Redis.zset_at r k !! m = Some s.
Proof.
  intros Hsub. destruct (decide (k = key)) as [->|Hne].
  - rewrite zset_at_store_eq. apply Hsub.
  - now rewrite zset_at_store_ne by congruence.
Qed.

Lemma pop_from_redis_shrinks r p :
  (forall k m s, Redis.zset_at (snd (PQ._pop_from_redis_queue r p)) k !! m = Some s ->
                 Redis.zset_at r k !! m = Some s) /\
  (forall j, fst (PQ._pop_from_redis_queue r p) = Some j ->
             exists s, Redis.zset_at r (PQ.QUEUE_KEYS p) !! j = Some s) /\
  (Redis.reachable r = false -> PQ._pop_from_redis_queue r p = (None, r)).
Proof.
  unfold PQ._pop_from_redis_queue, Redis.eval_dequeue, Redis.QUEUE_DEQUEUE_SCRIPT.
  destruct (Redis.reachable r); simpl.
  2:{ split; [auto|]. split; [discriminate|auto]. }
  destruct (Redis.ZRANGE_first _) as [[j s]|] eqn:E; simpl.
  2:{ split; [auto|]. split; [discriminate|discriminate]. }
  apply ZRANGE_first_Some in E as [E _].
  split; [|split; [|discriminate]].
  - intros k m s'. apply zset_at_store_sub. intros m' s'' H.
    unfold Redis.ZREM in H. now apply lookup_delete_Some in H as [_ H].
  - intros j'. destruct (Py.truthy j); [|discriminate].
    intros [= <-]. eauto.
Qed.

Lemma weighted_pass_redis_shrinks ps : forall r choice cumulative,
  (forall k m s,
      Redis.zset_at (snd (PQ.weighted_pass_redis r choice cumulative ps)) k !! m = Some s ->
      Redis.zset_at r k !! m = Some s) /\
  (forall j, fst (PQ.weighted_pass_redis r choice cumulative ps) = Some j ->
             exists p s, Redis.zset_at r (PQ.QUEUE_KEYS p) !! j = Some s) /\
  (Redis.reachable r = false ->
   PQ.weighted_pass_redis r choice cumulative ps = (None, r)).
Proof.
  induction ps as [|p ps IH]; intros r choice cumulative; simpl.
  - split; [auto|]. split; [discriminate|auto].
  - destruct (choice <=? cumulative + PQ.WEIGHTS p); [|apply IH].
    destruct (pop_from_redis_shrinks r p) as (Hs & Hj & Hd).
    destruct (PQ._pop_from_redis_queue r p) as [job_id r'] eqn:E. simpl in *.
    split; [|split].
    + destruct (PQ.truthy_id job_id); exact Hs.
    + intros j. destruct (PQ.truthy_id job_id); [|discriminate].
      simpl. intros ->. destruct (Hj j eq_refl) as [s Hs']. eauto.
    + intros Hr. specialize (Hd Hr). injection Hd as -> ->. reflexivity.
Qed.

Lemma fallback_pass_redis_shrinks ps : forall r,
  (forall k m s,
      Redis.zset_at (snd (PQ.fallback_pass_redis r ps)) k !! m = Some s ->
      Redis.zset_at r k !! m = Some s) /\
  (forall j, fst (PQ.fallback_pass_redis r ps) = Some j ->
             exists p s, Redis.zset_at r (PQ.QUEUE_KEYS p) !! j = Some s) /\
  (Redis.reachable r = false -> PQ.fallback_pass_redis r ps = (None, r)).
Proof.
  induction ps as [|p ps IH]; intros r; simpl.
  - split; [auto|]. split; [discriminate|auto].
  - destruct (pop_from_redis_shrinks r p) as (Hs & Hj & Hd).
    destruct (PQ._pop_from_redis_queue r p) as [job_id r'] eqn:E. simpl in *.
    destruct (IH r') as (Hs' & Hj' & Hd').
    split; [|split].
    + destruct (PQ.truthy_id job_id); [exact Hs|]. intros k m s H. auto.
    + intros j. destruct (PQ.truthy_id job_id).
      * simpl. intros ->. destruct (Hj j eq_refl) as [s Hs'']. eauto.
      * intros H. destruct (Hj' j H) as (p' & s & H'). eauto.
    + intros Hr. specialize (Hd Hr). injection Hd as -> ->. simpl. auto.
Qed.

Lemma dequeue_unreachable pq r choice :
  PQ._redis pq = Some r -> Redis.reachable r = false ->
  PQ.dequeue pq choice = (None, pq).
Proof.
  intros Hr Hdown. unfold PQ.dequeue. rewrite Hr. unfold PQ._dequeue_redis.
  destruct (weighted_pass_redis_shrinks PQ.priorities r choice 0) as (_ & _ & Hd).
  rewrite (Hd Hdown).
  destruct (fallback_pass_redis_shrinks PQ.priorities r) as (_ & _ & Hd').
  rewrite (Hd' Hdown). destruct pq as [rd qs]. simpl in *. now subst.
Qed.

(** X7. With a Redis client configured, [dequeue] never serves the in-memory
    queues: it leaves them as they are, a job id it returns was an entry of
    one of the three Redis queues, and while the server is unreachable it
    returns nothing and changes nothing, whatever is queued in memory. *)
Theorem redis_dequeue_skips_local_queues
    (pq : PQ.PriorityQueue) (r : Redis.Server) (choice : Z) :
  PQ._redis pq = Some r ->
  PQ._local_queues (snd (PQ.dequeue pq choice)) = PQ._local_queues pq /\
  (forall job_id, fst (PQ.dequeue pq choice) = Some job_id ->
     exists p s, Redis.zset_at r (PQ.QUEUE_KEYS p) !! job_id = Some s) /\
  (Redis.reachable r = false -> PQ.dequeue pq choice = (None, pq)).
Proof.
  intros Hr. unfold PQ.dequeue. rewrite Hr. unfold PQ._dequeue_redis.
  destruct (weighted_pass_redis_shrinks PQ.priorities r choice 0) as (Hs & Hj & Hd).
  destruct (PQ.weighted_pass_redis r choice 0 PQ.priorities) as [job_id r1] eqn:E.
  cbn [fst snd] in *.
  destruct (fallback_pass_redis_shrinks PQ.priorities r1) as (Hs' & Hj' & Hd').
  destruct job_id as [j|].
  - cbn [fst snd]. split; [reflexivity|]. split.
    + intros job_id [= <-]. auto.
    + intros Hdown. specialize (Hd Hdown). discriminate.
  - destruct (PQ.fallback_pass_redis r1 PQ.priorities) as [job_id r2] eqn:E'.
    cbn [fst snd] in *. split; [reflexivity|]. split.
    + intros j ->. destruct (Hj' j eq_refl) as (p & s & H). eauto.
    + intros Hdown. specialize (Hd Hdown). injection Hd as ->.
      specialize (Hd' Hdown). discriminate || (injection Hd' as -> ->).
      destruct pq as [rd qs]. simpl in *. now subst.
Qed.

Lemma redis_dequeue_skips_local_queues_witness :
  PQ.dequeue outage_queue 3 = (None, outage_queue).
Proof.
  apply (redis_dequeue_skips_local_queues outage_queue (Redis.mkServer ∅ false) 3);
    reflexivity.
Defined.

(** X8. When the Redis call of [enqueue] fails, the job is put in the
    in-memory queue of its priority and the position reported is that
    queue's length; [get_position] then finds the job there, while [dequeue]
    keeps asking the server only and returns nothing. *)
Theorem enqueue_during_outage_is_not_served
    (pq : PQ.PriorityQueue) (r : Redis.Server) (job_id : string)
    (p : QueuePriority) (score : Q) :
  PQ._redis pq = Some r -> Redis.reachable r = false ->
  let out := PQ.enqueue pq job_id p score in
  PQ._redis (snd out) = Some r /\
  PQ.get_q (PQ._local_queues (snd out)) p
    ≡ₚ PQ.get_q (PQ._local_queues pq) p ++ [(job_id, score)] /\
  PQ.position (fst out) = Z.of_nat (length (PQ.get_q (PQ._local_queues pq) p)) + 1 /\
  is_Some (PQ.get_position (snd out) job_id p) /\
  forall choice, PQ.dequeue (snd out) choice = (None, snd out).
Proof.
  intros Hr Hdown out.
  assert (Hout : out = (PQ.mkPosition (fst (PQ._enqueue_local pq job_id p score)) p
                          (PQ._estimate_wait (snd (PQ._enqueue_local pq job_id p score))
                             (fst (PQ._enqueue_local pq job_id p score)) p),
                        snd (PQ._enqueue_local pq job_id p score))).
  { unfold out, PQ.enqueue. rewrite Hr.
    unfold PQ._enqueue_redis, Redis.eval_enqueue. rewrite Hdown.
    destruct pq as [rd qs]. simpl in Hr. subst rd. reflexivity. }
  rewrite Hout. cbn [fst snd].
  pose proof (enqueue_local_sorted pq job_id p score) as [_ Hperm].
  assert (Hredis : PQ._redis (snd (PQ._enqueue_local pq job_id p score)) = Some r)
    by exact Hr.
  split; [exact Hredis|]. split; [exact Hperm|]. split; [|split].
  - unfold PQ._enqueue_local. cbn [fst].
    rewrite (Permutation_length (sort_by_perm _ _)), length_app. simpl. lia.
  - unfold PQ.get_position. rewrite Hredis. unfold Redis.zrank. rewrite Hdown.
    unfold PQ.get_position_local.
    assert (Hin : job_id ∈ (PQ.get_q (PQ._local_queues (snd (PQ._enqueue_local pq job_id p score))) p).*1).
    { rewrite Hperm, fmap_app. apply elem_of_app. right. simpl. apply list_elem_of_here. }
    revert Hin. generalize (PQ.get_q (PQ._local_queues (snd (PQ._enqueue_local pq job_id p score))) p).
    intros l. generalize 0. induction l as [|[jid s] l IH]; intros i Hin.
    + now apply not_elem_of_nil in Hin.
    + simpl. destruct (String.eqb jid job_id) eqn:E; [eauto|].
      apply IH. simpl in Hin. apply elem_of_cons in Hin as [->|Hin]; [|exact Hin].
      now rewrite String.eqb_refl in E.
  - intros choice.
    now apply (dequeue_unreachable _ r choice Hredis).
Qed.

Lemma enqueue_during_outage_is_not_served_witness :
  PQ.position (fst (PQ.enqueue outage_queue "job_n" HIGH 9))
  = Z.of_nat (length (PQ.get_q (PQ._local_queues outage_queue) HIGH)) + 1.
Proof.
  apply (enqueue_during_outage_is_not_served outage_queue (Redis.mkServer ∅ false)
           "job_n" HIGH 9); reflexivity.
Defined.

(** ** First in, first out within a priority *)

Lemma sorted_head_least (x : string * Q) l :
  StronglySorted score_le (x :: l) -> forall y, y ∈ x :: l -> (x.2 <= y.2)%Q.
Proof.
  intros Hs y Hy. apply StronglySorted_inv in Hs as [_ Hall].
  apply elem_of_cons in Hy as [->|Hy]; [apply Qle_refl|].
  rewrite Forall_forall in Hall. now apply Hall.
Qed.

(** X9. The job [dequeue] returns is an oldest entry of the queue it is
    taken from: no entry of that priority has a lower score. *)
Theorem dequeue_serves_oldest_of_priority
    (pq : PQ.PriorityQueue) (choice : Z) (job_id : string) :
  1 <= choice <= 16 ->
  queue_ready pq ->
  fst (PQ.dequeue pq choice) = Some job_id ->
  exists p s, queued pq p job_id s /\ forall j t, queued pq p j t -> (s <= t)%Q.
Proof.
  intros Hc Hready. unfold PQ.dequeue, queue_ready, queued in *.
  destruct (PQ._redis pq) as [r|] eqn:Hr.
  - destruct Hready as [Hup Hids].
    rewrite (dequeue_redis_refines pq r choice Hc Hup Hids).
    destruct (spec_dequeue (pop_redis r) choice) as [[j r']|] eqn:E; [|discriminate].
    intros [= ->].
    apply spec_dequeue_Some in E as (p & E & _).
    apply pop_redis_Some in E as (s & Hm & [_ Hold] & _).
    exists p, s. split; [exact Hm|]. intros j t. apply Hold.
  - rewrite (dequeue_local_refines pq choice Hc).
    destruct (spec_dequeue (pop_local (PQ._local_queues pq)) choice) as [[j qs']|] eqn:E;
      [|discriminate].
    intros [= ->].
    apply spec_dequeue_Some in E as (p & E & _).
    apply pop_local_Some in E as (s & tail & Hq & _).
    exists p, s. specialize (Hready p). rewrite Hq in *.
    split; [apply list_elem_of_here|].
    intros j t Hin. apply (sorted_head_least _ _ Hready (j, t) Hin).
Qed.

Lemma dequeue_serves_oldest_of_priority_witness :
  exists p s, queued one_critical p "job_a" s /\
              forall j t, queued one_critical p j t -> (s <= t)%Q.
Proof.
  apply (dequeue_serves_oldest_of_priority one_critical 3 "job_a").
  - lia.
  - intros p. destruct p; simpl; repeat constructor.
  - reflexivity.
Defined.

(** ** Reading a position back *)

Lemma position_from_fresh queue job_id score : forall i,
  job_id ∉ queue.*1 ->
  PQ.position_from (queue ++ [(job_id, score)]) job_id i
  = Some (i + Z.of_nat (length queue) + 1).
Proof.
  induction queue as [|[jid s] queue IH]; intros i Hfresh; simpl.
  - rewrite String.eqb_refl. f_equal. lia.
  - rewrite fmap_cons in Hfresh. apply not_elem_of_cons in Hfresh as [Hne Hfresh].
    simpl in Hne. destruct (String.eqb jid job_id) eqn:E.
    + apply String.eqb_eq in E. congruence.
    + rewrite IH by exact Hfresh. f_equal. lia.
Qed.

Lemma ZRANK_nonneg z m rank : Redis.ZRANK z m = Some rank -> 0 <= rank.
Proof.
  unfold Redis.ZRANK. destruct (z !! m); [|discriminate]. intros [= <-]. lia.
Qed.

(** X10. A position query made right after [enqueue_job] returns the
    [QueuePosition] that [enqueue_job] reported, position and estimate
    alike, when the job arrives behind the queued ones. *)
Theorem position_read_back_after_enqueue
    (pq : PQ.PriorityQueue) (job : Job) (score : Q) :
  arrives_last pq job score ->
  QueueService.get_job_position (snd (QueueService.enqueue_job pq job score)) job
  = Some (fst (QueueService.enqueue_job pq job score)).
Proof.
  unfold arrives_last, QueueService.get_job_position, QueueService.enqueue_job, PQ.enqueue.
  destruct pq as [[r|] qs]; cbn [PQ._redis PQ._local_queues].
  - intros Hup. unfold PQ._enqueue_redis, Redis.eval_enqueue. rewrite Hup.
    rewrite enqueue_script_rank. cbn [fst snd].
    unfold PQ.get_position. cbn [PQ._redis]. unfold Redis.zrank.
    match goal with
    | |- context [Redis.reachable (Redis.store r ?k ?z)] =>
        change (Redis.reachable (Redis.store r k z)) with (Redis.reachable r)
    end.
    rewrite Hup, !zset_at_store_eq.
    unfold Redis.ZRANK. rewrite lookup_insert_eq.
    set (rank := Z.of_nat (size _)).
    assert (Hpos : (0 <? rank + 1) = true) by (apply Z.ltb_lt; unfold rank; lia).
    rewrite Hpos. reflexivity.
  - intros (Hsorted & Hlast & Hfresh).
    rewrite (enqueue_local_in_order (PQ.mkPQ None qs) (job_id job) (job_priority job) score
               Hsorted Hlast).
    cbn [fst snd PQ._redis PQ._local_queues].
    unfold PQ.get_position, PQ.get_position_local. cbn [PQ._redis PQ._local_queues].
    assert (Hq : PQ.get_q (PQ.set_q qs (job_priority job)
                             (PQ.get_q qs (job_priority job) ++ [(job_id job, score)]))
                   (job_priority job)
                 = PQ.get_q qs (job_priority job) ++ [(job_id job, score)])
      by (destruct (job_priority job); reflexivity).
    rewrite Hq, position_from_fresh by exact Hfresh.
    reflexivity.
Qed.

Lemma position_read_back_after_enqueue_witness :
  QueueService.get_job_position
    (snd (QueueService.enqueue_job one_high_local (example_job "job_n" HIGH PENDING) 9))
    (example_job "job_n" HIGH PENDING)
  = Some (fst (QueueService.enqueue_job one_high_local
                 (example_job "job_n" HIGH PENDING) 9)).
Proof.
  apply (position_read_back_after_enqueue one_high_local
           (example_job "job_n" HIGH PENDING) 9).
  split; [|split].
  - repeat constructor.
  - repeat constructor. unfold score_le. simpl. unfold Qle. simpl. lia.
  - simpl. intros H. apply list_elem_of_singleton in H. discriminate.
Defined.

(** ** Removing a job from its queue *)

Lemma position_from_shift queue job_id : forall i d,
  PQ.position_from queue job_id (i + d) = (fun k => k + d) <$> PQ.position_from queue job_id i.
Proof.
  induction queue as [|[jid s] queue IH]; intros i d; simpl; [reflexivity|].
  destruct (String.eqb jid job_id); simpl.
  - f_equal. lia.
  - replace (i + d + 1) with (i + 1 + d) by lia. apply IH.
Qed.

Lemma position_from_app l1 l2 job_id : forall i,
  PQ.position_from (l1 ++ l2) job_id i =
  match PQ.position_from l1 job_id i with
  | Some k => Some k
  | None => PQ.position_from l2 job_id (i + Z.of_nat (length l1))
  end.
Proof.
  induction l1 as [|[jid s] l1 IH]; intros i; simpl.
  - f_equal. lia.
  - destruct (String.eqb jid job_id); [reflexivity|].
    rewrite IH. destruct (PQ.position_from l1 job_id (i + 1)); [reflexivity|].
    f_equal. lia.
Qed.

Lemma position_from_range queue job_id : forall i k,
  PQ.position_from queue job_id i = Some k -> i < k <= i + Z.of_nat (length queue).
Proof.
  induction queue as [|[jid s] queue IH]; intros i k; simpl; [discriminate|].
  destruct (String.eqb jid job_id).
  - intros [= <-]. lia.
  - intros H. apply IH in H. lia.
Qed.

Lemma get_q_set_q_eq qs p q : PQ.get_q (PQ.set_q qs p q) p = q.
Proof. now destruct p. Qed.

Lemma get_q_set_q_ne qs p p' q : p' <> p -> PQ.get_q (PQ.set_q qs p q) p' = PQ.get_q qs p'.
Proof. destruct p, p'; intros H; try reflexivity; congruence. Qed.

Lemma QUEUE_KEYS_inj p p' : PQ.QUEUE_KEYS p = PQ.QUEUE_KEYS p' -> p = p'.
Proof. destruct p, p'; simpl; intros H; try reflexivity; discriminate. Qed.

Lemma ZRANK_delete z m j k :
  j <> m -> Redis.ZRANK z j = Some k ->
  exists k', Redis.ZRANK (delete m z) j = Some k' /\ k - 1 <= k' <= k.
Proof.
  intros Hne. unfold Redis.ZRANK. rewrite lookup_delete_ne by congruence.
  destruct (z !! j) as [s|]; [|discriminate]. intros [= <-].
  eexists. split; [reflexivity|].
  rewrite map_filter_delete, map_size_delete.
  destruct (filter _ z !! m); simpl; lia.
Qed.

Lemma remove_then_no_position pq job_id p :
  queue_answers pq p ->
  PQ.get_position (snd (PQ.remove pq job_id p)) job_id p = None.
Proof.
  unfold queue_answers, PQ.remove, PQ.get_position.
  destruct pq as [[r|] qs]; cbn [PQ._redis PQ._local_queues].
  - intros Hup. unfold Redis.zrem, Redis.zrank. rewrite Hup. cbn [fst snd PQ._redis].
    change (Redis.reachable (Redis.store r ?k ?z)) with (Redis.reachable r).
    rewrite Hup, zset_at_store_eq. unfold Redis.ZRANK, Redis.ZREM.
    now rewrite lookup_delete_eq.
  - intros Hnodup. unfold PQ.remove_local, PQ.get_position_local.
    cbn [PQ._redis PQ._local_queues].
    pose proof (remove_first_spec (PQ.get_q qs p) job_id) as Hspec.
    destruct (PQ.remove_first (PQ.get_q qs p) job_id) as [queue'|];
      cbn [fst snd PQ._redis PQ._local_queues].
    + destruct Hspec as (before & score & after & Hq & -> & Hbefore).
      rewrite get_q_set_q_eq. rewrite Hq in Hnodup.
      rewrite fmap_app, fmap_cons in Hnodup. apply NoDup_app in Hnodup as (_ & _ & Hn).
      apply NoDup_cons in Hn as [Hn _].
      apply position_from_None. rewrite fmap_app. apply not_elem_of_app. tauto.
    + now apply position_from_None.
Qed.

(** X11. [remove] answers whether the job was queued, and afterwards the job
    has no position; every other job of that priority stays queued, at its
    old position or one place ahead, and the other priorities' queues are
    untouched. *)
Theorem remove_takes_the_job_out
    (pq : PQ.PriorityQueue) (job_id : string) (p : QueuePriority) :
  queue_answers pq p ->
  let out := PQ.remove pq job_id p in
  (fst out = true <-> is_Some (PQ.get_position pq job_id p)) /\
  PQ.get_position (snd out) job_id p = None /\
  (forall j, j <> job_id ->
     match PQ.get_position pq j p with
     | Some k => exists k', PQ.get_position (snd out) j p = Some k' /\ k - 1 <= k' <= k
     | None => PQ.get_position (snd out) j p = None
     end) /\
  (forall j p', p' <> p -> PQ.get_position (snd out) j p' = PQ.get_position pq j p').
Proof.
  unfold queue_answers, PQ.remove, PQ.get_position.
  destruct pq as [[r|] qs]; cbn [PQ._redis PQ._local_queues].
  - intros Hup. unfold Redis.zrem, Redis.zrank. rewrite Hup. cbn [fst snd PQ._redis].
    match goal with
    | |- context [Redis.reachable (Redis.store r ?k ?z)] =>
        change (Redis.reachable (Redis.store r k z)) with (Redis.reachable r)
    end.
    rewrite Hup, zset_at_store_eq.
    set (z := Redis.zset_at r (PQ.QUEUE_KEYS p)). unfold Redis.ZREM.
    split; [|split; [|split]].
    + unfold Redis.ZRANK. destruct (z !! job_id) as [s|]; simpl.
      * set (rank := Z.of_nat _).
        assert (H : (0 <? rank + 1) = true) by (apply Z.ltb_lt; unfold rank; lia).
        rewrite H. split; eauto.
      * split; [discriminate|]. intros [x Hx]. discriminate.
    + unfold Redis.ZRANK. now rewrite lookup_delete_eq.
    + intros j Hne. destruct (Redis.ZRANK z j) as [k|] eqn:E.
      * pose proof (ZRANK_nonneg _ _ _ E) as Hk.
        destruct (ZRANK_delete z job_id j k Hne E) as (k' & E' & Hk').
        pose proof (ZRANK_nonneg _ _ _ E') as Hk0.
        assert (H : (0 <? k + 1) = true) by (apply Z.ltb_lt; lia).
        assert (H' : (0 <? k' + 1) = true) by (apply Z.ltb_lt; lia).
        rewrite H, E', H'. exists (k' + 1). split; [reflexivity|lia].
      * unfold Redis.ZRANK in *. rewrite lookup_delete_ne by congruence.
        destruct (z !! j); [discriminate|reflexivity].
    + intros j p' Hne. rewrite zset_at_store_ne; [reflexivity|].
      intros H. apply QUEUE_KEYS_inj in H. congruence.
  - intros Hnodup. unfold PQ.remove_local, PQ.get_position_local.
    cbn [PQ._redis PQ._local_queues].
    pose proof (remove_first_spec (PQ.get_q qs p) job_id) as Hspec.
    destruct (PQ.remove_first (PQ.get_q qs p) job_id) as [queue'|] eqn:E;
      cbn [fst snd PQ._redis PQ._local_queues].
    + destruct Hspec as (before & score & after & Hq & -> & Hbefore).
      rewrite get_q_set_q_eq. rewrite Hq in *.
      assert (Hafter : job_id ∉ after.*1).
      { rewrite fmap_app, fmap_cons in Hnodup. apply NoDup_app in Hnodup as (_ & _ & Hn).
        now apply NoDup_cons in Hn as [Hn _]. }
      split; [|split; [|split]].
      * split; [intros _|reflexivity].
        destruct (PQ.position_from (before ++ (job_id, score) :: after) job_id 0) eqn:E0;
          [eauto|].
        apply position_from_None in E0. exfalso. apply E0.
        rewrite fmap_app, fmap_cons. apply elem_of_app. right. apply list_elem_of_here.
      * apply position_from_None. rewrite fmap_app. apply not_elem_of_app. tauto.
      * intros j Hne. rewrite !position_from_app.
        destruct (PQ.position_from before j 0) as [k|] eqn:E1.
        { exists k. split; [reflexivity|lia]. }
        simpl. destruct (String.eqb job_id j) eqn:E2.
        { apply String.eqb_eq in E2. congruence. }
        rewrite (position_from_shift after j (0 + Z.of_nat (length before)) 1).
        destruct (PQ.position_from after j (0 + Z.of_nat (length before))) as [k|];
          simpl; [|reflexivity].
        exists k. split; [reflexivity|lia].
      * intros j p' Hne. now rewrite get_q_set_q_ne.
    + split; [|split; [|split]].
      * split; [discriminate|]. intros [k Hk].
        apply (position_from_None _ _ 0) in Hspec. congruence.
      * now apply position_from_None.
      * intros j Hne. destruct (PQ.position_from (PQ.get_q qs p) j 0) as [k|];
          [|reflexivity].
        exists k. split; [reflexivity|lia].
      * reflexivity.
Qed.

Lemma remove_takes_the_job_out_witness :
  PQ.get_position (snd (PQ.remove one_critical "job_a" CRITICAL)) "job_a" CRITICAL = None.
Proof.
  apply (remove_takes_the_job_out one_critical "job_a" CRITICAL).
  simpl. repeat constructor. apply not_elem_of_nil.
Defined.

(** ** The in-memory queues stay sorted *)

Lemma sorted_tail (x : string * Q) l :
  StronglySorted score_le (x :: l) -> StronglySorted score_le l.
Proof. intros H. now apply StronglySorted_inv in H. Qed.

Lemma sorted_remove_middle (l1 : list (string * Q)) x l2 :
  StronglySorted score_le (l1 ++ x :: l2) -> StronglySorted score_le (l1 ++ l2).
Proof.
  induction l1 as [|y l1 IH]; simpl; intros H.
  - now apply sorted_tail in H.
  - apply StronglySorted_inv in H as [Hs Hall]. constructor; [auto|].
    rewrite Forall_app in Hall |- *. destruct Hall as [H1 H2].
    split; [exact H1|]. now apply Forall_inv_tail in H2.
Qed.

Lemma set_q_sorted qs p q :
  (forall p', StronglySorted score_le (PQ.get_q qs p')) ->
  StronglySorted score_le q ->
  forall p', StronglySorted score_le (PQ.get_q (PQ.set_q qs p q) p').
Proof.
  intros Hqs Hq p'. destruct (decide (p' = p)) as [->|Hne].
  - now rewrite get_q_set_q_eq.
  - now rewrite get_q_set_q_ne.
Qed.

Lemma enqueue_local_keeps_sorted pq job_id p score :
  queues_sorted pq -> queues_sorted (snd (PQ._enqueue_local pq job_id p score)).
Proof.
  intros Hs. unfold PQ._enqueue_local. cbn [snd]. unfold queues_sorted.
  cbn [PQ._local_queues]. apply set_q_sorted; [exact Hs|apply sort_by_sorted].
Qed.

Lemma pop_local_keeps_sorted qs p job_id qs' :
  (forall p', StronglySorted score_le (PQ.get_q qs p')) ->
  pop_local qs p = Some (job_id, qs') ->
  forall p', StronglySorted score_le (PQ.get_q qs' p').
Proof.
  intros Hs Hpop. apply pop_local_Some in Hpop as (s & tail & Hq & ->).
  apply set_q_sorted; [exact Hs|]. specialize (Hs p). rewrite Hq in Hs.
  now apply sorted_tail in Hs.
Qed.

Lemma weighted_pass_local_pop ps : forall qs choice cumulative r,
  PQ.weighted_pass_local qs choice cumulative ps = Some r ->
  exists p, pop_local qs p = Some r.
Proof.
  induction ps as [|p ps IH]; intros qs choice cumulative r; simpl; [discriminate|].
  destruct (choice <=? cumulative + PQ.WEIGHTS p); [|apply IH].
  intros H. exists p. unfold pop_local. destruct (PQ.get_q qs p) as [|[j s] tail];
    [discriminate|exact H].
Qed.

Lemma fallback_pass_local_pop ps : forall qs r,
  PQ.fallback_pass_local qs ps = Some r -> exists p, pop_local qs p = Some r.
Proof.
  induction ps as [|p ps IH]; intros qs r; simpl; [discriminate|].
  destruct (PQ.get_q qs p) as [|[j s] tail] eqn:E; [apply IH|].
  intros H. exists p. unfold pop_local. now rewrite E.
Qed.

Lemma dequeue_local_keeps_sorted pq choice :
  queues_sorted pq -> queues_sorted (snd (PQ._dequeue_local pq choice)).
Proof.
  intros Hs. unfold PQ._dequeue_local.
  destruct (PQ.weighted_pass_local _ choice 0 PQ.priorities) as [[j qs']|] eqn:E.
  - apply weighted_pass_local_pop in E as [p E]. cbn [snd]. unfold queues_sorted.
    cbn [PQ._local_queues]. exact (pop_local_keeps_sorted _ _ _ _ Hs E).
  - destruct (PQ.fallback_pass_local _ PQ.priorities) as [[j qs']|] eqn:E'; [|exact Hs].
    apply fallback_pass_local_pop in E' as [p E']. cbn [snd]. unfold queues_sorted.
    cbn [PQ._local_queues]. exact (pop_local_keeps_sorted _ _ _ _ Hs E').
Qed.

Lemma remove_local_keeps_sorted pq job_id p :
  queues_sorted pq -> queues_sorted (snd (PQ.remove_local pq job_id p)).
Proof.
  intros Hs. unfold PQ.remove_local.
  pose proof (remove_first_spec (PQ.get_q (PQ._local_queues pq) p) job_id) as Hspec.
  destruct (PQ.remove_first _ job_id) as [queue'|]; [|exact Hs].
  destruct Hspec as (before & score & after & Hq & -> & _).
  cbn [snd]. unfold queues_sorted. cbn [PQ._local_queues].
  apply set_q_sorted; [exact Hs|]. specialize (Hs p). rewrite Hq in Hs.
  now apply sorted_remove_middle in Hs.
Qed.

(** X12. The in-memory queues are kept in ascending order of score by every
    operation: if they are sorted before [enqueue], [dequeue] or [remove],
    they are sorted after it, with or without a Redis client and whether
    or not the server answers. *)
Theorem local_queues_stay_sorted (pq : PQ.PriorityQueue) :
  queues_sorted pq ->
  (forall job_id p score, queues_sorted (snd (PQ.enqueue pq job_id p score))) /\
  (forall choice, queues_sorted (snd (PQ.dequeue pq choice))) /\
  (forall job_id p, queues_sorted (snd (PQ.remove pq job_id p))).
Proof.
  intros Hs. split; [|split].
  - intros job_id p score. unfold PQ.enqueue.
    destruct (PQ._redis pq) as [r|] eqn:Hr.
    + unfold PQ._enqueue_redis.
      destruct (Redis.eval_enqueue r (PQ.QUEUE_KEYS p) job_id score) as [[pos|msg] r'].
      * exact Hs.
      * cbn [snd]. now apply enqueue_local_keeps_sorted.
    + destruct (PQ._enqueue_local pq job_id p score) as [pos pq'] eqn:E. cbn [snd].
      change pq' with (snd (pos, pq')). rewrite <- E.
      now apply enqueue_local_keeps_sorted.
  - intros choice. unfold PQ.dequeue. destruct (PQ._redis pq) as [r|] eqn:Hr.
    + unfold PQ._dequeue_redis.
      destruct (PQ.weighted_pass_redis r choice 0 PQ.priorities) as [[j|] r1]; [exact Hs|].
      destruct (PQ.fallback_pass_redis r1 PQ.priorities) as [j r2]. exact Hs.
    + now apply dequeue_local_keeps_sorted.
  - intros job_id p. unfold PQ.remove. destruct (PQ._redis pq) as [r|] eqn:Hr.
    + destruct (Redis.zrem r (PQ.QUEUE_KEYS p) job_id) as [[removed|msg] r'].
      * exact Hs.
      * now apply remove_local_keeps_sorted.
    + now apply remove_local_keeps_sorted.
Qed.

Lemma local_queues_stay_sorted_witness :
  queues_sorted (snd (PQ.dequeue one_critical 3)).
Proof.
  apply (local_queues_stay_sorted one_critical).
  intros p. destruct p; simpl; repeat constructor.
Defined.

(** ** How far the wait estimate is from the unrounded value *)

Lemma estimate_from_floors (lengths : QueuePriority -> Z) position p :
  0 <= lengths CRITICAL -> 0 <= lengths HIGH ->
  PQ.estimate_from lengths position p =
  match p with
  | CRITICAL => (position - 1) * 30
  | HIGH => (position - 1 + Qfloor (0.5 * inject_Z (lengths CRITICAL))) * 30
  | NORMAL =>
      (position - 1 + Qfloor (0.3 * inject_Z (lengths CRITICAL))
       + Qfloor (0.15 * inject_Z (lengths HIGH))) * 30
  end.
Proof.
  intros Hc Hh. unfold PQ.estimate_from, PQ.ESTIMATED_PROCESSING_TIME.
  destruct p; [reflexivity| |].
  - rewrite py_int_scaled by (lia || (unfold Qle; simpl; lia)). reflexivity.
  - rewrite py_int_scaled by (lia || (unfold Qle; simpl; lia)).
    rewrite py_int_floor.
    + f_equal. f_equal. apply Qfloor_comp. ring.
    + apply Qmult_le_0_compat; [|unfold Qle; simpl; lia].
      apply Qmult_le_0_compat; [|unfold Qle; simpl; lia].
      unfold Qle, inject_Z. simpl. lia.
Qed.

(** X13. The wait estimate is a multiple of 30 seconds, never above the
    unrounded weighted value and less than 60 seconds below it; for a
    position of at least 1 it is never negative. *)
Theorem estimate_wait_within_a_minute
    (pq : PQ.PriorityQueue) (position : Z) (p : QueuePriority) :
  let est := PQ._estimate_wait pq position p in
  let unrounded := spec_estimate (PQ.get_queue_lengths pq) position p in
  (inject_Z est <= unrounded)%Q /\ (unrounded - 60 < inject_Z est)%Q /\
  (30 | est) /\ (1 <= position -> 0 <= est).
Proof.
  intros est unrounded. unfold est, unrounded, PQ._estimate_wait.
  pose proof (queue_lengths_nonneg pq CRITICAL) as Hc.
  pose proof (queue_lengths_nonneg pq HIGH) as Hh.
  rewrite estimate_from_floors by assumption. unfold spec_estimate.
  set (c := PQ.get_queue_lengths pq CRITICAL) in *.
  set (h := PQ.get_queue_lengths pq HIGH) in *.
  assert (Hc' : (0 <= inject_Z c)%Q) by (unfold Qle; simpl; lia).
  assert (Hh' : (0 <= inject_Z h)%Q) by (unfold Qle; simpl; lia).
  pose proof (Qfloor_le (0.5 * inject_Z c)) as F1.
  pose proof (Qlt_floor (0.5 * inject_Z c)) as F1'.
  pose proof (Qfloor_le (0.3 * inject_Z c)) as F2.
  pose proof (Qlt_floor (0.3 * inject_Z c)) as F2'.
  pose proof (Qfloor_le (0.15 * inject_Z h)) as F3.
  pose proof (Qlt_floor (0.15 * inject_Z h)) as F3'.
  assert (G1 : 0 <= Qfloor (0.5 * inject_Z c)).
  { change 0 with (Qfloor 0). apply Qfloor_resp_le. lra. }
  assert (G2 : 0 <= Qfloor (0.3 * inject_Z c)).
  { change 0 with (Qfloor 0). apply Qfloor_resp_le. lra. }
  assert (G3 : 0 <= Qfloor (0.15 * inject_Z h)).
  { change 0 with (Qfloor 0). apply Qfloor_resp_le. lra. }
  rewrite !inject_Z_plus in F1', F2', F3'.
  destruct p; rewrite ?inject_Z_mult, ?inject_Z_plus;
    change (inject_Z 30) with 30%Q; change (inject_Z 1) with 1%Q in *;
    (split; [lra|split; [lra|split; [eexists; reflexivity|lia]]]).
Qed.

(** ** The job service: what a creation and a cancellation leave behind *)

Lemma count_insert_None (m : gmap string Job) k v (f : Job -> bool) :
  m !! k = None ->
  Storage.count (<[k := v]> m) f = Storage.count m f + (if f v then 1 else 0).
Proof.
  intros Hk. unfold Storage.count.
  rewrite !(bool_filter_prop f (fun x => f x = true)) by (intros; reflexivity).
  rewrite (map_to_list_insert _ _ _ Hk), fmap_cons, filter_cons. simpl.
  destruct (decide (f v = true)) as [E|E]; destruct (f v); simpl length;
    try congruence; lia.
Qed.

Lemma count_insert_Some (m : gmap string Job) k v0 v (f : Job -> bool) :
  m !! k = Some v0 ->
  Storage.count (<[k := v]> m) f + (if f v0 then 1 else 0)
  = Storage.count m f + (if f v then 1 else 0).
Proof.
  intros Hk. rewrite <- (insert_delete_id m k v0 Hk) at 2.
  rewrite <- (insert_delete_eq m).
  rewrite !count_insert_None by apply lookup_delete_eq. lia.
Qed.

Lemma count_insert_le (m : gmap string Job) k v (f : Job -> bool) :
  Storage.count (<[k := v]> m) f <= Storage.count m f + 1.
Proof.
  destruct (m !! k) as [v0|] eqn:E.
  - pose proof (count_insert_Some m k v0 v f E). destruct (f v0), (f v); lia.
  - rewrite count_insert_None by exact E. destruct (f v); lia.
Qed.

Lemma store_and_enqueue_jobs st job env :
  JobService.jobs (snd (JobService.store_and_enqueue st job env))
  = <[job_id job := fst (JobService.store_and_enqueue st job env)]> (JobService.jobs st) /\
  JobService.usage_daily (snd (JobService.store_and_enqueue st job env))
  = JobService.usage_daily st /\
  job_id (fst (JobService.store_and_enqueue st job env)) = job_id job /\
  job_user_id (fst (JobService.store_and_enqueue st job env)) = job_user_id job /\
  job_priority (fst (JobService.store_and_enqueue st job env)) = job_priority job /\
  job_status (fst (JobService.store_and_enqueue st job env)) = QUEUED.
Proof.
  unfold JobService.store_and_enqueue.
  destruct (QueueService.enqueue_job _ job _) as [position queue1]. cbn [fst snd].
  cbn [JobService.jobs JobService.usage_daily].
  unfold Storage.update, Storage.create. cbn [job_id set_queue_info set_status].
  rewrite lookup_insert_eq, insert_insert_eq. repeat split; reflexivity.
Qed.

Lemma create_job_cases st request user env :
  (exists e, JobService.create_job st request user env = (inl e, st)) \/
  (max_concurrent_jobs (get_tier_config (user_tier user))
     > JobService._count_active_jobs st (user_id user) /\
   JobService.create_job st request user env
   = (inr (fst (JobService.store_and_enqueue st (JobService.new_job request user env) env)),
      snd (JobService.store_and_enqueue st (JobService.new_job request user env) env))).
Proof.
  unfold JobService.create_job.
  destruct (negb _); [eauto|].
  destruct (_ <? req_duration request); [eauto|].
  destruct (_ && _); [eauto|].
  destruct (_ <=? JobService._count_active_jobs st (user_id user)) eqn:E; [eauto|].
  right. apply Z.leb_gt in E. split; [lia|].
  now destruct (JobService.store_and_enqueue _ _ _).
Qed.

(** X14. A job that [create_job] returns is stored as returned: [get_job]
    gives it back to its owner and refuses every other user, it is QUEUED,
    owned by the caller and carries the priority of the caller's tier.  A
    rejected request leaves the state as it was, and in neither case is the
    daily usage counter changed. *)
Theorem create_job_result_is_stored
    (st : JobService.State) (request : GenerationRequest) (user : User)
    (env : JobService.Env) :
  let out := JobService.create_job st request user env in
  JobService.usage_daily (snd out) = JobService.usage_daily st /\
  match fst out with
  | inr job =>
      JobService.get_job (snd out) (job_id job) user = inr job /\
      (forall other, user_id other <> user_id user ->
         JobService.get_job (snd out) (job_id job) other
         = inl (PermissionDeniedError (job_id job))) /\
      job_status job = QUEUED /\
      job_user_id job = user_id user /\
      job_priority job = QueueService.get_priority_for_tier (user_tier user)
  | inl _ => snd out = st
  end.
Proof.
  intros out. unfold out.
  destruct (create_job_cases st request user env) as [[e ->]|[_ ->]]; cbn [fst snd].
  - auto.
  - destruct (store_and_enqueue_jobs st (JobService.new_job request user env) env)
      as (Hjobs & Husage & Hid & Huser & Hprio & Hstatus).
    set (job := fst (JobService.store_and_enqueue st _ env)) in *.
    set (st' := snd (JobService.store_and_enqueue st _ env)) in *.
    assert (Hfound : JobService.jobs st' !! job_id job = Some job).
    { rewrite Hjobs, Hid. apply lookup_insert_eq. }
    split; [exact Husage|]. split; [|split; [|split; [|split]]].
    + apply get_job_found; [exact Hfound|]. rewrite Huser. reflexivity.
    + intros other Hother. unfold JobService.get_job, Storage.get. rewrite Hfound.
      rewrite Huser. cbn [JobService.new_job job_user_id].
      destruct (String.eqb (user_id user) (user_id other)) eqn:E; [|reflexivity].
      apply String.eqb_eq in E. congruence.
    + exact Hstatus.
    + rewrite Huser. reflexivity.
    + rewrite Hprio. reflexivity.
Qed.

(** X15. After a successful [create_job] the caller's number of active jobs
    is within the tier's [max_concurrent_jobs]. *)
Theorem create_job_keeps_concurrency_limit
    (st : JobService.State) (request : GenerationRequest) (user : User)
    (env : JobService.Env) (job : Job) :
  fst (JobService.create_job st request user env) = inr job ->
  JobService._count_active_jobs (snd (JobService.create_job st request user env))
    (user_id user)
  <= max_concurrent_jobs (get_tier_config (user_tier user)).
Proof.
  destruct (create_job_cases st request user env) as [[e ->]|[Hlt ->]]; cbn [fst snd].
  - discriminate.
  - intros _.
    destruct (store_and_enqueue_jobs st (JobService.new_job request user env) env)
      as (Hjobs & _).
    unfold JobService._count_active_jobs in *. rewrite Hjobs.
    etransitivity; [apply count_insert_le|]. lia.
Qed.

Lemma create_job_keeps_concurrency_limit_witness :
  JobService._count_active_jobs
    (snd (JobService.create_job fresh_state (sunset 10) dev_user first_env))
    (user_id dev_user)
  <= max_concurrent_jobs (get_tier_config (user_tier dev_user)).
Proof.
  eapply (create_job_keeps_concurrency_limit fresh_state (sunset 10) dev_user first_env).
  reflexivity.
Defined.

(** X16. A successful [cancel_job] frees one of the caller's concurrency
    slots: the caller's number of active jobs goes down by exactly one, and
    the cancelled job is stored with a terminal status. *)
Theorem cancel_job_frees_a_slot
    (st : JobService.State) (jid : string) (user : User) (now : Q) (job : Job) :
  fst (JobService.cancel_job st jid user now) = inr job ->
  let st' := snd (JobService.cancel_job st jid user now) in
  JobService._count_active_jobs st' (user_id user)
  = JobService._count_active_jobs st (user_id user) - 1 /\
  JobService.jobs st' !! jid = Some job /\
  job_status job = CANCELLED /\
  JobService.usage_daily st' = JobService.usage_daily st.
Proof.
  unfold JobService.cancel_job, JobService.get_job, Storage.get.
  destruct (JobService.jobs st !! jid) as [job0|] eqn:Hfound; [|discriminate].
  destruct (negb (String.eqb (job_user_id job0) (user_id user))) eqn:Hown; [discriminate|].
  apply negb_false_iff, String.eqb_eq in Hown.
  destruct (negb (can_transition (job_status job0) CANCELLED)) eqn:Hcan; [discriminate|].
  apply negb_false_iff in Hcan. cbn [fst snd]. intros [= <-].
  cbn [JobService.jobs JobService.usage_daily].
  unfold Storage.update. rewrite Hfound, lookup_insert_eq.
  split; [|auto].
  unfold JobService._count_active_jobs. cbn [JobService.jobs].
  pose proof (count_insert_Some (JobService.jobs st) jid job0
                (set_completed_at (set_status job0 CANCELLED) now)
                (fun j => String.eqb (job_user_id j) (user_id user)
                          && negb (Py.set_mem (job_status j) JobService.terminal_statuses))
                Hfound) as Hc.
  cbn [job_user_id job_status set_completed_at set_status] in Hc.
  rewrite Hown, String.eqb_refl in Hc.
  apply can_transition_cancelled in Hcan.
  assert (Ha : Py.set_mem (job_status job0) JobService.terminal_statuses = false).
  { destruct Hcan as [-> | ->]; reflexivity. }
  rewrite Ha in Hc. change (Py.set_mem CANCELLED JobService.terminal_statuses) with true in Hc.
  simpl in Hc. lia.
Qed.

Lemma cancel_job_frees_a_slot_witness :
  JobService._count_active_jobs
    (snd (JobService.cancel_job queued_state "job_0123456789ab" dev_user 200))
    (user_id dev_user)
  = JobService._count_active_jobs queued_state (user_id dev_user) - 1.
Proof.
  eapply (cancel_job_frees_a_slot queued_state "job_0123456789ab" dev_user 200).
  reflexivity.
Defined.

(** ** The job service and the queue together *)

Lemma position_from_found queue job_id : forall i,
  job_id ∈ queue.*1 -> exists k, PQ.position_from queue job_id i = Some k /\ i < k.
Proof.
  intros i Hin. destruct (PQ.position_from queue job_id i) as [k|] eqn:E.
  - exists k. split; [reflexivity|]. apply position_from_range in E. lia.
  - apply position_from_None in E. contradiction.
Qed.

Lemma enqueue_local_position pq job_id p score :
  1 <= fst (PQ._enqueue_local pq job_id p score) /\
  is_Some (PQ.get_position_local (snd (PQ._enqueue_local pq job_id p score)) job_id p).
Proof.
  pose proof (enqueue_local_sorted pq job_id p score) as [_ Hperm]. cbv zeta in Hperm.
  split.
  - unfold PQ._enqueue_local. cbn [fst].
    rewrite (Permutation_length (sort_by_perm _ _)), length_app. simpl. lia.
  - unfold PQ.get_position_local.
    destruct (position_from_found
                (PQ.get_q (PQ._local_queues (snd (PQ._enqueue_local pq job_id p score))) p)
                job_id 0) as (k & -> & _); [|eauto].
    rewrite Hperm, fmap_app. apply elem_of_app. right. apply list_elem_of_here.
Qed.

Lemma enqueue_then_position pq job_id p score :
  1 <= PQ.position (fst (PQ.enqueue pq job_id p score)) /\
  is_Some (PQ.get_position (snd (PQ.enqueue pq job_id p score)) job_id p).
Proof.
  unfold PQ.enqueue.
  destruct pq as [[r|] qs]; cbn [PQ._redis].
  - unfold PQ._enqueue_redis, Redis.eval_enqueue.
    destruct (Redis.reachable r) eqn:Hup.
    + rewrite enqueue_script_rank. cbn [fst snd PQ.position].
      split; [lia|].
      unfold PQ.get_position. cbn [PQ._redis]. unfold Redis.zrank.
      change (Redis.reachable (Redis.store r ?k ?z)) with (Redis.reachable r).
      rewrite Hup, zset_at_store_eq. unfold Redis.ZRANK. rewrite lookup_insert_eq.
      set (rank := Z.of_nat (size _)).
      assert (Hpos : (0 <? rank + 1) = true) by (apply Z.ltb_lt; unfold rank; lia).
      rewrite Hpos. now eexists.
    + cbn [PQ._local_queues].
      pose proof (enqueue_local_position (PQ.mkPQ (Some r) qs) job_id p score) as [H1 H2].
      destruct (PQ._enqueue_local (PQ.mkPQ (Some r) qs) job_id p score) as [pos pq'] eqn:E.
      cbn [fst snd PQ.position] in *. split; [exact H1|].
      assert (Hr : PQ._redis pq' = Some r).
      { revert E. unfold PQ._enqueue_local. intros [= _ <-]. reflexivity. }
      unfold PQ.get_position. rewrite Hr. unfold Redis.zrank. rewrite Hup. exact H2.
  - cbn [PQ._local_queues].
    pose proof (enqueue_local_position (PQ.mkPQ None qs) job_id p score) as [H1 H2].
    destruct (PQ._enqueue_local (PQ.mkPQ None qs) job_id p score) as [pos pq'] eqn:E.
    cbn [fst snd PQ.position] in *. split; [exact H1|].
    assert (Hr : PQ._redis pq' = None).
    { revert E. unfold PQ._enqueue_local. intros [= _ <-]. reflexivity. }
    unfold PQ.get_position. rewrite Hr. exact H2.
Qed.

(** X17. A job that [create_job] returns is in the queue of its priority,
    whatever the state of the Redis server: [get_position] finds it, and
    the job records a queue position of at least 1 and a wait estimate that
    is not negative. *)
Theorem created_job_is_queued
    (st : JobService.State) (request : GenerationRequest) (user : User)
    (env : JobService.Env) (job : Job) :
  fst (JobService.create_job st request user env) = inr job ->
  let st' := snd (JobService.create_job st request user env) in
  is_Some (PQ.get_position (JobService.queue st') (job_id job) (job_priority job)) /\
  (exists position, job_queue_position job = Some position /\ 1 <= position) /\
  (exists wait, job_estimated_wait_seconds job = Some wait /\ 0 <= wait).
Proof.
  destruct (create_job_cases st request user env) as [[e ->]|[_ ->]]; cbn [fst snd].
  - discriminate.
  - intros [= <-]. unfold JobService.store_and_enqueue, QueueService.enqueue_job.
    set (new := JobService.new_job request user env).
    pose proof (enqueue_then_position (JobService.queue st) (job_id new) (job_priority new)
                  (JobService.enqueue_score env)) as [Hpos Hfound].
    unfold PQ.enqueue in *.
    destruct (match PQ._redis (JobService.queue st) with
              | Some redis => _ | None => _ end) as [position queue1].
    cbn [fst snd JobService.queue PQ.position PQ.estimated_wait_seconds job_id job_priority
         job_queue_position job_estimated_wait_seconds set_queue_info set_status] in *.
    split; [exact Hfound|]. split; [eauto|].
    eexists. split; [reflexivity|].
    unfold PQ._estimate_wait.
    pose proof (queue_lengths_nonneg queue1 CRITICAL) as Hc.
    pose proof (queue_lengths_nonneg queue1 HIGH) as Hh.
    rewrite estimate_from_floors by assumption.
    assert (G1 : 0 <= Qfloor (0.5 * inject_Z (PQ.get_queue_lengths queue1 CRITICAL))).
    { change 0 with (Qfloor 0). apply Qfloor_resp_le.
      assert ((0 <= inject_Z (PQ.get_queue_lengths queue1 CRITICAL))%Q)
        by (unfold Qle; simpl; lia). lra. }
    assert (G2 : 0 <= Qfloor (0.3 * inject_Z (PQ.get_queue_lengths queue1 CRITICAL))).
    { change 0 with (Qfloor 0). apply Qfloor_resp_le.
      assert ((0 <= inject_Z (PQ.get_queue_lengths queue1 CRITICAL))%Q)
        by (unfold Qle; simpl; lia). lra. }
    assert (G3 : 0 <= Qfloor (0.15 * inject_Z (PQ.get_queue_lengths queue1 HIGH))).
    { change 0 with (Qfloor 0). apply Qfloor_resp_le.
      assert ((0 <= inject_Z (PQ.get_queue_lengths queue1 HIGH))%Q)
        by (unfold Qle; simpl; lia). lra. }
    destruct (job_priority new); lia.
Qed.

Lemma created_job_is_queued_witness :
  is_Some (PQ.get_position (JobService.queue queued_state) "job_0123456789ab" NORMAL).
Proof.
  edestruct (created_job_is_queued fresh_state (sunset 10) dev_user first_env) as [H _];
    [reflexivity|].
  exact H.
Defined.

(** X18. Cancelling a QUEUED job takes it out of its queue: when the queue's
    store answers, the job has no position afterwards, and it is stored as
    CANCELLED. *)
Theorem cancelled_job_leaves_the_queue
    (st : JobService.State) (jid : string) (user : User) (now : Q) (job : Job) :
  JobService.jobs st !! jid = Some job ->
  job_user_id job = user_id user ->
  job_status job = QUEUED ->
  queue_answers (JobService.queue st) (job_priority job) ->
  let st' := snd (JobService.cancel_job st jid user now) in
  PQ.get_position (JobService.queue st') (job_id job) (job_priority job) = None /\
  exists job', JobService.jobs st' !! jid = Some job' /\ job_status job' = CANCELLED.
Proof.
  intros Hfound Hown Hq Hanswers st'. unfold st'.
  rewrite (cancel_job_done st jid user job now Hfound Hown)
    by (rewrite Hq; reflexivity).
  cbn [snd JobService.queue JobService.jobs]. rewrite decide_True by exact Hq.
  split.
  - now apply remove_then_no_position.
  - eexists. split; [apply lookup_insert_eq|reflexivity].
Qed.

Lemma cancelled_job_leaves_the_queue_witness :
  PQ.get_position
    (JobService.queue (snd (JobService.cancel_job queued_state "job_0123456789ab"
                              dev_user 200)))
    "job_0123456789ab" NORMAL = None.
Proof.
  edestruct (cancelled_job_leaves_the_queue queued_state "job_0123456789ab" dev_user 200)
    as [H _].
  - reflexivity.
  - reflexivity.
  - reflexivity.
  - vm_compute. repeat constructor. apply not_elem_of_nil.
  - exact H.
Defined.

(** ** The worker *)

Lemma process_job_skipped sm jid env :
  (forall job, StorageManager.jobs sm !! jid = Some job -> job_status job <> QUEUED) ->
  JobWorker._process_job sm jid env = (Returned tt, sm).
Proof.
  intros Hq. unfold JobWorker._process_job, Storage.get.
  destruct (StorageManager.jobs sm !! jid) as [job|]; [|reflexivity].
  specialize (Hq job eq_refl). unfold Worker._update_job_status.
  destruct (job_status job); try reflexivity. congruence.
Qed.

(** X19. [_process_job] acts on QUEUED jobs only: when the id is unknown or
    the stored job has any other status, nothing is started, the call
    returns and the whole storage is left as it was. *)
Theorem process_job_needs_a_queued_job
    (sm : StorageManager.t) (jid : string) (env : JobWorker.Env) :
  (forall job, StorageManager.jobs sm !! jid = Some job -> job_status job <> QUEUED) ->
  JobWorker._process_job sm jid env = (Returned tt, sm) /\
  forall env',
    JobWorker._process_job (snd (JobWorker._process_job sm jid env)) jid env'
    = (Returned tt, sm).
Proof.
  intros Hq. rewrite (process_job_skipped sm jid env Hq). split; [reflexivity|].
  intros env'. now apply process_job_skipped.
Qed.

Lemma process_job_needs_a_queued_job_witness :
  JobWorker._process_job queued_storage "job_missing" success_env
  = (Returned tt, queued_storage).
Proof.
  apply (process_job_needs_a_queued_job queued_storage "job_missing" success_env).
  intros job H. vm_compute in H. discriminate.
Defined.

Lemma process_job_queued sm jid env job :
  StorageManager.jobs sm !! jid = Some job -> job_status job = QUEUED ->
  JobWorker._process_job sm jid env =
  let started := set_started_at (set_status job PROCESSING) (JobWorker.started_at env) in
  match JobWorker.generation env with
  | JobWorker.Generated video =>
      let done := set_progress
                    (set_video_id
                       (set_completed_at (set_status started COMPLETED)
                          (JobWorker.completed_at env))
                       (video_id video)) 1 in
      (Returned tt,
       StorageManager.record_usage
         (StorageManager.mk (<[jid := done]> (StorageManager.jobs sm))
            (<[video_id video := video]> (StorageManager.videos sm))
            (StorageManager.usage_daily sm) (StorageManager.usage_monthly sm)
            (StorageManager._usage_details sm))
         (job_user_id job) 1 (video_duration video) (JobWorker.usage_clock env))
  | JobWorker.GenerationError message =>
      (Returned tt,
       JobWorker.with_jobs sm
         (<[jid := set_completed_at (set_error (set_status started FAILED) message)
                     (JobWorker.completed_at env)]> (StorageManager.jobs sm)))
  | JobWorker.OtherError text =>
      (Returned tt,
       JobWorker.with_jobs sm
         (<[jid := set_completed_at
                     (set_error (set_status started FAILED) ("Unexpected error: " +:+ text))
                     (JobWorker.completed_at env)]> (StorageManager.jobs sm)))
  | JobWorker.Interrupted name =>
      (Raised name,
       JobWorker.with_jobs sm (<[jid := started]> (StorageManager.jobs sm)))
  end.
Proof.
  intros Hfound Hq. unfold JobWorker._process_job, Storage.get. rewrite Hfound.
  unfold Worker._update_job_status. rewrite Hq.
  change (negb (can_transition QUEUED PROCESSING)) with false. cbn [negb].
  unfold JobWorker.with_jobs, JobWorker.with_videos, Storage.update.
  cbn [StorageManager.jobs StorageManager.videos StorageManager.usage_daily
       StorageManager.usage_monthly StorageManager._usage_details].
  rewrite Hfound.
  destruct (JobWorker.generation env) as [video|message|text|name];
    cbn [StorageManager.jobs StorageManager.videos StorageManager.usage_daily
         StorageManager.usage_monthly StorageManager._usage_details];
    rewrite ?lookup_insert_eq, ?insert_insert_eq; reflexivity.
Qed.

Lemma process_job_others_untouched sm jid env job :
  StorageManager.jobs sm !! jid = Some job -> job_status job = QUEUED ->
  is_Some (StorageManager.jobs (snd (JobWorker._process_job sm jid env)) !! jid) /\
  forall other, other <> jid ->
    StorageManager.jobs (snd (JobWorker._process_job sm jid env)) !! other
    = StorageManager.jobs sm !! other.
Proof.
  intros Hfound Hq. rewrite (process_job_queued sm jid env job Hfound Hq). cbv zeta.
  destruct (JobWorker.generation env) as [video|message|text|name]; cbn [snd];
    unfold StorageManager.record_usage, JobWorker.with_jobs;
    cbn [StorageManager.jobs StorageManager.videos StorageManager.usage_daily
         StorageManager.usage_monthly StorageManager._usage_details];
    try match goal with
        | |- context [let '(a, b) := ?d in _] => destruct d as [videos_so_far duration_so_far]
        end;
    cbn [StorageManager.jobs];
    (split; [rewrite lookup_insert_eq; eauto
            |intros other Hne; now rewrite lookup_insert_ne by congruence]).
Qed.

(** X20. What [_process_job] does with a QUEUED job.  The job is marked
    PROCESSING with [started_at] set, keeps its owner, and no other job is
    touched.  When the generator returns a video the call returns, the job
    is COMPLETED with [completed_at], [video_id] and progress 1, the video is
    stored, and the owner's daily and monthly counters go up by one.  When
    the generator raises a [GenerationError] or another [Exception] the call
    returns and the job is FAILED with [completed_at] and the error text;
    videos and usage are unchanged.  When the generator is interrupted by an
    exception that is no [Exception] (the task is cancelled), the call
    raises it and the job is left PROCESSING: [completed_at] is not set, and
    videos and usage are unchanged.  In every case a later call of
    [_process_job] on the same id returns without changing anything, so an
    interrupted job stays PROCESSING. *)
Theorem process_job_outcomes
    (sm : StorageManager.t) (jid : string) (env : JobWorker.Env) (job : Job) :
  StorageManager.jobs sm !! jid = Some job -> job_status job = QUEUED ->
  let out := JobWorker._process_job sm jid env in
  let sm' := snd out in
  let clock := JobWorker.usage_clock env in
  exists job',
    StorageManager.jobs sm' !! jid = Some job' /\
    job_started_at job' = Some (JobWorker.started_at env) /\
    job_user_id job' = job_user_id job /\
    (forall other, other <> jid ->
       StorageManager.jobs sm' !! other = StorageManager.jobs sm !! other) /\
    match JobWorker.generation env with
    | JobWorker.Generated video =>
        fst out = Returned tt /\
        job_status job' = COMPLETED /\
        job_completed_at job' = Some (JobWorker.completed_at env) /\
        job_video_id job' = Some (video_id video) /\
        job_progress job' = Some 1%Q /\
        StorageManager.videos sm' !! video_id video = Some video /\
        Storage.get_daily (StorageManager.usage_daily sm') (job_user_id job)
          (StorageManager.counter_day clock)
        = Storage.get_daily (StorageManager.usage_daily sm) (job_user_id job)
            (StorageManager.counter_day clock) + 1 /\
        UsageCounter.get_monthly (StorageManager.usage_monthly sm') (job_user_id job)
          (StorageManager.counter_month clock)
        = UsageCounter.get_monthly (StorageManager.usage_monthly sm) (job_user_id job)
            (StorageManager.counter_month clock) + 1
    | JobWorker.GenerationError message =>
        fst out = Returned tt /\
        job_status job' = FAILED /\
        job_completed_at job' = Some (JobWorker.completed_at env) /\
        job_error job' = Some message /\
        StorageManager.videos sm' = StorageManager.videos sm /\
        StorageManager.usage_daily sm' = StorageManager.usage_daily sm /\
        StorageManager.usage_monthly sm' = StorageManager.usage_monthly sm
    | JobWorker.OtherError text =>
        fst out = Returned tt /\
        job_status job' = FAILED /\
        job_completed_at job' = Some (JobWorker.completed_at env) /\
        job_error job' = Some ("Unexpected error: " +:+ text) /\
        StorageManager.videos sm' = StorageManager.videos sm /\
        StorageManager.usage_daily sm' = StorageManager.usage_daily sm /\
        StorageManager.usage_monthly sm' = StorageManager.usage_monthly sm
    | JobWorker.Interrupted name =>
        fst out = Raised name /\
        job_status job' = PROCESSING /\
        job_completed_at job' = job_completed_at job /\
        job_error job' = job_error job /\
        StorageManager.videos sm' = StorageManager.videos sm /\
        StorageManager.usage_daily sm' = StorageManager.usage_daily sm /\
        StorageManager.usage_monthly sm' = StorageManager.usage_monthly sm
    end /\
    forall env', JobWorker._process_job sm' jid env' = (Returned tt, sm').
Proof.
  intros Hfound Hq out sm' clock. unfold sm', out.
  rewrite (process_job_queued sm jid env job Hfound Hq). cbv zeta.
  destruct (JobWorker.generation env) as [video|message|text|name]; cbn [fst snd].
  - unfold StorageManager.record_usage.
    cbn [StorageManager.jobs StorageManager.videos StorageManager.usage_daily
         StorageManager.usage_monthly StorageManager._usage_details].
    match goal with
    | |- context [let '(a, b) := ?d in _] => destruct d as [videos_so_far duration_so_far]
    end.
    cbn [StorageManager.jobs StorageManager.videos StorageManager.usage_daily
         StorageManager.usage_monthly StorageManager._usage_details].
    eexists. split; [apply lookup_insert_eq|].
    cbn [job_started_at job_completed_at job_user_id job_status job_video_id job_progress
         set_progress set_video_id set_completed_at set_status set_started_at].
    repeat match goal with |- _ /\ _ => split end; try reflexivity.
    + intros other Hne. now rewrite lookup_insert_ne by congruence.
    + apply lookup_insert_eq.
    + unfold UsageCounter.increment_daily, Storage.get_daily. cbn [snd].
      now rewrite lookup_insert_eq.
    + unfold UsageCounter.increment_monthly, UsageCounter.get_monthly. cbn [snd].
      now rewrite lookup_insert_eq.
    + intros env'. apply process_job_skipped.
      cbn [StorageManager.jobs]. rewrite lookup_insert_eq. intros j [= <-]. discriminate.
  - unfold JobWorker.with_jobs.
    cbn [StorageManager.jobs StorageManager.videos StorageManager.usage_daily
         StorageManager.usage_monthly StorageManager._usage_details].
    eexists. split; [apply lookup_insert_eq|].
    cbn [job_started_at job_completed_at job_user_id job_status job_error
         set_error set_completed_at set_status set_started_at].
    repeat match goal with |- _ /\ _ => split end; try reflexivity.
    + intros other Hne. now rewrite lookup_insert_ne by congruence.
    + intros env'. apply process_job_skipped.
      cbn [StorageManager.jobs]. rewrite lookup_insert_eq. intros j [= <-]. discriminate.
  - unfold JobWorker.with_jobs.
    cbn [StorageManager.jobs StorageManager.videos StorageManager.usage_daily
         StorageManager.usage_monthly StorageManager._usage_details].
    eexists. split; [apply lookup_insert_eq|].
    cbn [job_started_at job_completed_at job_user_id job_status job_error
         set_error set_completed_at set_status set_started_at].
    repeat match goal with |- _ /\ _ => split end; try reflexivity.
    + intros other Hne. now rewrite lookup_insert_ne by congruence.
    + intros env'. apply process_job_skipped.
      cbn [StorageManager.jobs]. rewrite lookup_insert_eq. intros j [= <-]. discriminate.
  - unfold JobWorker.with_jobs.
    cbn [StorageManager.jobs StorageManager.videos StorageManager.usage_daily
         StorageManager.usage_monthly StorageManager._usage_details].
    eexists. split; [apply lookup_insert_eq|].
    cbn [job_started_at job_completed_at job_user_id job_status job_error
         set_status set_started_at].
    repeat match goal with |- _ /\ _ => split end; try reflexivity.
    + intros other Hne. now rewrite lookup_insert_ne by congruence.
    + intros env'. apply process_job_skipped.
      cbn [StorageManager.jobs]. rewrite lookup_insert_eq. intros j [= <-]. discriminate.
Qed.

Lemma process_job_outcomes_witness :
  exists job',
    StorageManager.jobs
      (snd (JobWorker._process_job queued_storage "job_0123456789ab" interrupted_env))
      !! "job_0123456789ab"%string = Some job' /\
    job_status job' = PROCESSING /\
    job_completed_at job' = None.
Proof.
  edestruct (process_job_outcomes queued_storage "job_0123456789ab" interrupted_env)
    as (job' & Hj & _ & _ & _ & Hgen & _); [reflexivity|reflexivity|].
  exists job'. split; [exact Hj|].
  destruct Hgen as (_ & Hs & Hc & _). split; [exact Hs|exact Hc].
Defined.

Lemma cancel_job_stored st jid user now job :
  fst (JobService.cancel_job st jid user now) = inr job ->
  JobService.jobs (snd (JobService.cancel_job st jid user now))
  = <[jid := job]> (JobService.jobs st) /\
  job_status job = CANCELLED.
Proof.
  unfold JobService.cancel_job, JobService.get_job, Storage.get.
  destruct (JobService.jobs st !! jid) as [job0|] eqn:Hfound; [|discriminate].
  destruct (negb (String.eqb (job_user_id job0) (user_id user))); [discriminate|].
  destruct (negb (can_transition (job_status job0) CANCELLED)); [discriminate|].
  cbn [fst snd JobService.jobs]. intros [= <-].
  unfold Storage.update. now rewrite Hfound.
Qed.

(** X21. A job that was cancelled is never processed: if the worker is handed
    its id afterwards, as when the id had already been dequeued, the call of
    [_process_job] returns and changes nothing. *)
Theorem cancelled_job_is_never_processed
    (st : JobService.State) (jid : string) (user : User) (now : Q) (job : Job)
    (sm : StorageManager.t) (env : JobWorker.Env) :
  fst (JobService.cancel_job st jid user now) = inr job ->
  StorageManager.jobs sm = JobService.jobs (snd (JobService.cancel_job st jid user now)) ->
  JobWorker._process_job sm jid env = (Returned tt, sm).
Proof.
  intros Hc Hjobs. apply cancel_job_stored in Hc as [Hst Hs].
  apply process_job_skipped. rewrite Hjobs, Hst, lookup_insert_eq.
  intros j [= <-]. congruence.
Qed.

Lemma cancelled_job_is_never_processed_witness :
  JobWorker._process_job
    (StorageManager.mk
       (JobService.jobs (snd (JobService.cancel_job queued_state "job_0123456789ab"
                                dev_user 200))) ∅ ∅ ∅ ∅)
    "job_0123456789ab" success_env
  = (Returned tt,
     StorageManager.mk
       (JobService.jobs (snd (JobService.cancel_job queued_state "job_0123456789ab"
                                dev_user 200))) ∅ ∅ ∅ ∅).
Proof.
  eapply (cancelled_job_is_never_processed queued_state "job_0123456789ab" dev_user 200);
    reflexivity.
Defined.

(** X22. A job in a terminal status is never changed again: after any call of
    [cancel_job] or [_process_job], whatever the generator does, and after
    any [create_job] that draws a different job id, it is stored exactly as
    before. *)
Theorem terminal_jobs_are_never_changed
    (jobs : gmap string Job) (id : string) (job : Job) :
  jobs !! id = Some job -> terminal (job_status job) ->
  (forall st jid user now,
      JobService.jobs st = jobs ->
      JobService.jobs (snd (JobService.cancel_job st jid user now)) !! id = Some job) /\
  (forall sm jid env,
      StorageManager.jobs sm = jobs ->
      StorageManager.jobs (snd (JobWorker._process_job sm jid env)) !! id = Some job) /\
  (forall st request user env,
      JobService.jobs st = jobs ->
      job_id (JobService.new_job request user env) <> id ->
      JobService.jobs (snd (JobService.create_job st request user env)) !! id = Some job).
Proof.
  intros Hfound Hterm. split; [|split].
  - intros st jid user now <-.
    destruct (fst (JobService.cancel_job st jid user now)) as [e|job'] eqn:E.
    + assert (Hst : snd (JobService.cancel_job st jid user now) = st); [|now rewrite Hst].
      revert E. unfold JobService.cancel_job.
      destruct (JobService.get_job st jid user); [reflexivity|].
      destruct (negb _); [reflexivity|discriminate].
    + destruct (cancel_job_stored _ _ _ _ _ E) as [-> _].
      destruct (decide (jid = id)) as [->|Hne]; [|now rewrite lookup_insert_ne].
      exfalso. revert E. unfold JobService.cancel_job, JobService.get_job, Storage.get.
      rewrite Hfound. destruct (negb (String.eqb _ _)); [discriminate|].
      assert (Hcan : can_transition (job_status job) CANCELLED = false).
      { destruct Hterm as [-> | [-> | [-> | ->]]]; reflexivity. }
      rewrite Hcan. discriminate.
  - intros sm jid env <-.
    destruct (decide (jid = id)) as [->|Hne].
    + rewrite process_job_skipped; [exact Hfound|].
      intros j. rewrite Hfound. intros [= <-].
      destruct Hterm as [-> | [-> | [-> | ->]]]; discriminate.
    + destruct (StorageManager.jobs sm !! jid) as [j|] eqn:Hj.
      * destruct (decide (job_status j = QUEUED)) as [Hq|Hq].
        -- destruct (process_job_others_untouched sm jid env j Hj Hq) as [_ Hother].
           rewrite Hother by congruence. exact Hfound.
        -- rewrite process_job_skipped; [exact Hfound|].
           intros j'. rewrite Hj. intros [= <-]. exact Hq.
      * rewrite process_job_skipped; [exact Hfound|]. intros j'. rewrite Hj. discriminate.
  - intros st request user env <- Hne.
    destruct (create_job_cases st request user env) as [[e ->]|[_ ->]]; cbn [fst snd].
    + exact Hfound.
    + destruct (store_and_enqueue_jobs st (JobService.new_job request user env) env)
        as (-> & _).
      now rewrite lookup_insert_ne.
Qed.

Lemma terminal_jobs_are_never_changed_witness :
  StorageManager.jobs
    (snd (JobWorker._process_job (StorageManager.mk finished_jobs ∅ ∅ ∅ ∅) "job_a"
            success_env))
    !! "job_a"%string
  = Some (example_job "job_a" NORMAL COMPLETED).
Proof.
  apply (terminal_jobs_are_never_changed finished_jobs "job_a"
           (example_job "job_a" NORMAL COMPLETED)).
  - reflexivity.
  - left. reflexivity.
  - reflexivity.
Defined.

(** ** The account service *)

(** X23. The quota report predicts admission: [create_job] accepts a request
    exactly when the report, read in the same state on the same day, says
    that the tier can generate, that the duration is within the maximum,
    that the remaining daily quota is unlimited or positive and that a
    concurrency slot is available. *)
Theorem quota_predicts_admission
    (st : JobService.State) (limiter : RateLimit.RateLimitService) (user : User)
    (request : GenerationRequest) (env : JobService.Env) (now : Q) :
  let q := fst (AccountService.get_quota (JobService.jobs st) (JobService.usage_daily st)
                  limiter user now (JobService.today env)) in
  (exists job, fst (JobService.create_job st request user env) = inr job) <->
  AccountService.quota_can_generate q = true /\
  req_duration request <= AccountService.quota_max_video_duration q /\
  (forall n, AccountService.daily_quota_remaining q = Some n -> 0 < n) /\
  0 < AccountService.concurrent_jobs_available q.
Proof.
  intros q. unfold q, AccountService.get_quota.
  destruct (RateLimit.get_current_usage limiter _ _ _ now) as [rate_limit limiter'].
  cbn [fst AccountService.quota_can_generate AccountService.quota_max_video_duration
       AccountService.daily_quota_remaining AccountService.concurrent_jobs_available].
  unfold JobService.create_job.
  fold (JobService._count_active_jobs st (user_id user)).
  set (cfg := get_tier_config (user_tier user)).
  set (used := Storage.get_daily _ _ _).
  set (active := JobService._count_active_jobs st (user_id user)).
  destruct (can_generate cfg); cbn [negb fst].
  2:{ split; [intros [job H]; discriminate|intros [H _]; discriminate]. }
  destruct (max_video_duration cfg <? req_duration request) eqn:Ed.
  { apply Z.ltb_lt in Ed. cbn [fst].
    split; [intros [job H]; discriminate|intros (_ & H & _); lia]. }
  apply Z.ltb_ge in Ed.
  destruct (0 <? daily_quota cfg) eqn:Eq; cbn [andb].
  - apply Z.ltb_lt in Eq. destruct (daily_quota cfg <=? used) eqn:Eu.
    + apply Z.leb_le in Eu. cbn [fst].
      split; [intros [job H]; discriminate|].
      intros (_ & _ & H & _). specialize (H _ eq_refl). lia.
    + apply Z.leb_gt in Eu.
      destruct (max_concurrent_jobs cfg <=? active) eqn:Ea.
      * apply Z.leb_le in Ea. cbn [fst].
        split; [intros [job H]; discriminate|intros (_ & _ & _ & H); lia].
      * apply Z.leb_gt in Ea. destruct (JobService.store_and_enqueue _ _ _) as [job st'].
        cbn [fst]. split; [intros _|eauto].
        repeat split; [lia| |lia]. intros n [= <-]. lia.
  - destruct (max_concurrent_jobs cfg <=? active) eqn:Ea.
    + apply Z.leb_le in Ea. cbn [fst].
      split; [intros [job H]; discriminate|intros (_ & _ & _ & H); lia].
    + apply Z.leb_gt in Ea. destruct (JobService.store_and_enqueue _ _ _) as [job st'].
      cbn [fst]. split; [intros _|eauto].
      repeat split; [lia| |lia]. intros n H. discriminate.
Qed.

Lemma get_key_endpoint_inj user e1 e2 :
  RateLimit._get_key user e1 = RateLimit._get_key user e2 -> e1 = e2.
Proof.
  unfold RateLimit._get_key. intros H.
  apply String.app_inj in H. apply String.app_inj in H. now apply String.app_inj in H.
Qed.

Lemma inspect_after_check_elsewhere svc c q :
  RateLimit.call_key q <> RateLimit.call_key c ->
  fst (inspect (snd (check svc c)) q) = fst (inspect svc q).
Proof.
  intros Hne. rewrite (inspect_unfold (snd _)), inspect_unfold, check_unfold. cbv zeta.
  destruct svc as [[rd|] counts]; cbn [RateLimit._redis RateLimit._local_counts].
  - destruct (Redis.reachable rd) eqn:Hup; cbn [snd RateLimit._redis RateLimit._local_counts].
    + change (Redis.reachable (Redis.store rd ?k ?z)) with (Redis.reachable rd).
      rewrite Hup. cbn [fst]. now rewrite zset_at_store_ne by congruence.
    + rewrite Hup. reflexivity.
  - cbn [snd RateLimit._redis RateLimit._local_counts].
    unfold RateLimit.usage_fallback. cbn [RateLimit._local_counts].
    rewrite lookup_insert_ne by congruence.
    destruct (counts !! RateLimit.call_key q); reflexivity.
Qed.

(** X24. The rate-limit part of the quota report is read under the endpoint
    name ["default"], so a check the middleware makes for the same user on
    any other endpoint does not show in it: the report is the same before
    and after the check. *)
Theorem quota_report_misses_endpoint_checks
    (jobs : gmap string Job) (usage : gmap string Z)
    (limiter : RateLimit.RateLimitService) (user : User) (now : Q) (today : string)
    (c : RateLimit.Call) :
  RateLimit.call_user c = user_id user ->
  RateLimit.call_endpoint c <> "default"%string ->
  fst (AccountService.get_quota jobs usage (snd (check limiter c)) user now today)
  = fst (AccountService.get_quota jobs usage limiter user now today).
Proof.
  intros Hu He. unfold AccountService.get_quota.
  pose proof (inspect_after_check_elsewhere limiter c
                (RateLimit.mkCall (user_id user) (user_tier user) "default" now "")) as H.
  unfold inspect at 1 2 in H. cbn [RateLimit.call_user RateLimit.call_tier
    RateLimit.call_endpoint RateLimit.call_now] in H.
  destruct (RateLimit.get_current_usage (snd (check limiter c)) _ _ _ now) as [r1 l1].
  destruct (RateLimit.get_current_usage limiter _ _ _ now) as [r2 l2].
  cbn [fst] in *. rewrite H; [reflexivity|].
  unfold RateLimit.call_key. cbn [RateLimit.call_user RateLimit.call_endpoint].
  rewrite Hu. intros Hk. apply get_key_endpoint_inj in Hk. congruence.
Qed.

Lemma quota_report_misses_endpoint_checks_witness :
  fst (AccountService.get_quota ∅ ∅
         (snd (check empty_service (RateLimit.mkCall "user_dev" DEVELOPER "/v1/jobs" 5 "r1")))
         dev_user 6 "2025-01-01")
  = fst (AccountService.get_quota ∅ ∅ empty_service dev_user 6 "2025-01-01").
Proof.
  apply (quota_report_misses_endpoint_checks ∅ ∅ empty_service dev_user 6 "2025-01-01"
           (RateLimit.mkCall "user_dev" DEVELOPER "/v1/jobs" 5 "r1")).
  - reflexivity.
  - discriminate.
Defined.

(** ** Listing jobs page by page *)

Lemma slice_nonneg {A} (l : list A) start stop :
  0 <= start <= stop ->
  Py.slice l start stop = take (Z.to_nat (stop - start)) (drop (Z.to_nat start) l).
Proof.
  intros [H0 H1]. unfold Py.slice.
  assert (E0 : (start <? 0) = false) by (apply Z.ltb_ge; lia).
  assert (E1 : (stop <? 0) = false) by (apply Z.ltb_ge; lia).
  rewrite E0, E1.
  destruct (Z.le_gt_cases (Z.of_nat (length l)) start) as [Hs|Hs].
  - rewrite !drop_ge by lia. now rewrite !take_nil.
  - rewrite (Z.min_l start) by lia.
    destruct (Z.le_gt_cases (Z.of_nat (length l)) stop) as [He|He].
    + rewrite (Z.min_r stop) by lia.
      rewrite !take_ge; [reflexivity| |]; rewrite length_drop; lia.
    + rewrite (Z.min_l stop) by lia. f_equal. lia.
Qed.

Lemma insert_by_desc_perm {A} (key : A -> Q) x l : Py.insert_by_desc key x l ≡ₚ x :: l.
Proof.
  induction l as [|y l IH]; simpl; [reflexivity|].
  destruct (Py.lt (key x) (key y)); [|reflexivity].
  rewrite IH. apply Permutation_swap.
Qed.

Lemma sort_by_desc_perm {A} (key : A -> Q) l : Py.sort_by_desc key l ≡ₚ l.
Proof.
  induction l as [|x l IH]; simpl; [reflexivity|].
  unfold Py.sort_by_desc in *. simpl. rewrite insert_by_desc_perm. now rewrite IH.
Qed.

Lemma insert_by_desc_sorted x l :
  StronglySorted newer_first l ->
  StronglySorted newer_first (Py.insert_by_desc job_created_at x l).
Proof.
  induction l as [|y l IH]; simpl; intros Hs.
  - repeat constructor.
  - apply StronglySorted_inv in Hs as [Hs Hall].
    destruct (Py.lt (job_created_at x) (job_created_at y)) eqn:E.
    + apply py_lt_iff in E. constructor; [auto|].
      rewrite insert_by_desc_perm. constructor; [|exact Hall].
      unfold newer_first. lra.
    + apply py_lt_false_iff in E. constructor; [now constructor|].
      constructor; [exact E|].
      eapply Forall_impl; [exact Hall|]. unfold newer_first. intros z Hz. simpl in *. lra.
Qed.

Lemma sort_by_desc_sorted l : StronglySorted newer_first (Py.sort_by_desc job_created_at l).
Proof.
  induction l as [|x l IH]; [constructor|].
  unfold Py.sort_by_desc in *. simpl. now apply insert_by_desc_sorted.
Qed.

Lemma list_jobs_unfold values user page per_page status :
  1 <= page -> 0 <= per_page ->
  let all := Py.sort_by_desc job_created_at (filter (listed_for user status) values) in
  JobService.list_jobs values user page per_page status
  = (take (Z.to_nat per_page) (drop (Z.to_nat ((page - 1) * per_page)) all),
     Z.of_nat (length all)).
Proof.
  intros Hp Hpp all. unfold JobService.list_jobs, Storage.list.
  rewrite (bool_filter_prop _ (listed_for user status)).
  - unfold all. rewrite (Permutation_length (sort_by_desc_perm _ _)).
    rewrite slice_nonneg by nia. do 3 f_equal. lia.
  - intros j. unfold listed_for.
    destruct (String.eqb (job_user_id j) (user_id user)) eqn:E; simpl.
    + apply String.eqb_eq in E. destruct status as [s|]; [|tauto].
      destruct (bool_decide (job_status j = s)) eqn:Es; simpl.
      * apply bool_decide_eq_true in Es. tauto.
      * apply bool_decide_eq_false in Es. split; [discriminate|tauto].
    + apply String.eqb_neq in E. split; [discriminate|tauto].
Qed.

Lemma pages_concat {A} (all : list A) (pp : nat) : forall n : nat,
  concat (map (fun k : nat => take pp (drop ((k - 1) * pp) all)) (seq 1 n))
  = take (n * pp) all.
Proof.
  induction n as [|n IH]; [reflexivity|].
  rewrite seq_S, map_app, concat_app, IH. simpl.
  rewrite app_nil_r. replace (n - 0)%nat with n by lia.
  rewrite take_take_drop. f_equal. lia.
Qed.

Lemma div_ge_iff a b q : 0 < b -> (q <= a / b <-> b * q <= a).
Proof.
  intros Hb. split.
  - intros Hq. pose proof (Z.mul_div_le a b Hb). nia.
  - intros Hq. now apply Z.div_le_lower_bound.
Qed.

Lemma sorted_take {A} (R : A -> A -> Prop) n (l : list A) :
  StronglySorted R l -> StronglySorted R (take n l).
Proof.
  revert n. induction l as [|x l IH]; intros [|n] Hs; simpl; try constructor.
  - apply IH. now apply StronglySorted_inv in Hs.
  - apply StronglySorted_inv in Hs as [_ Hall]. now apply Forall_take.
Qed.

(** X25. The pages of [list_jobs] cover the listing: for a page size of at
    least 1, pages 1 to [total_pages] put end to end hold exactly the
    caller's jobs that match the status filter, each once, newest first;
    [total] is their number and no page is longer than the page size. *)
Theorem list_jobs_pages_cover_the_listing
    (values : list Job) (user : User) (per_page : Z) (status : option JobStatus) :
  1 <= per_page ->
  let shown (k : nat) := fst (JobService.list_jobs values user (Z.of_nat k) per_page status) in
  let total := snd (JobService.list_jobs values user 1 per_page status) in
  let pages := Responses.total_pages
                 (Responses.meta (Responses.create (shown 1%nat) total 1 per_page)) in
  let listing := concat (map shown (seq 1 (Z.to_nat pages))) in
  listing ≡ₚ filter (listed_for user status) values /\
  StronglySorted newer_first listing /\
  total = Z.of_nat (length listing) /\
  forall k, (1 <= k)%nat -> Z.of_nat (length (shown k)) <= per_page.
Proof.
  intros Hpp shown total pages listing.
  set (all := Py.sort_by_desc job_created_at (filter (listed_for user status) values)).
  assert (Hshown : forall k, (1 <= k)%nat ->
             shown k = take (Z.to_nat per_page) (drop ((k - 1) * Z.to_nat per_page) all)).
  { intros k Hk. unfold shown. rewrite list_jobs_unfold by lia. cbn [fst]. fold all.
    do 2 f_equal. rewrite Z2Nat.inj_mul by lia. f_equal. lia. }
  assert (Htotal : total = Z.of_nat (length all)).
  { unfold total. rewrite list_jobs_unfold by lia. reflexivity. }
  assert (Hpages : pages = (total + per_page - 1) / per_page).
  { unfold pages, Responses.create. cbn [Responses.meta Responses.total_pages].
    assert (E : (0 <? per_page) = true) by (apply Z.ltb_lt; lia). now rewrite E. }
  assert (Hlisting : listing = all).
  { unfold listing. rewrite (map_ext_in shown
      (fun k : nat => take (Z.to_nat per_page) (drop ((k - 1) * Z.to_nat per_page) all))).
    - rewrite pages_concat. apply take_ge.
      assert (Hge : total <= pages * per_page).
      { rewrite Hpages. pose proof (Z.mul_succ_div_gt (total + per_page - 1) per_page). nia. }
      assert (0 <= pages).
      { rewrite Hpages. apply Z.div_pos; lia. }
      apply Nat2Z.inj_le. rewrite Nat2Z.inj_mul, !Z2Nat.id by lia. lia.
    - intros k Hk. apply in_seq in Hk. apply Hshown. lia. }
  rewrite Hlisting. split; [apply sort_by_desc_perm|].
  split; [apply sort_by_desc_sorted|]. split; [exact Htotal|].
  intros k Hk. rewrite Hshown by exact Hk. rewrite length_take. lia.
Qed.

Lemma list_jobs_pages_cover_the_listing_witness :
  Z.of_nat (length (fst (JobService.list_jobs three_jobs dev_user (Z.of_nat 2) 2 None))) <= 2.
Proof.
  apply (list_jobs_pages_cover_the_listing three_jobs dev_user 2 None); lia.
Defined.

(** X26. The pagination metadata of the job listing agrees with the pages:
    for a page number and a page size of at least 1, [has_next] is set
    exactly when the next page holds a job, [has_prev] exactly when the page
    is not the first, the page is empty exactly when its number is beyond
    [total_pages], and the page holds [min(per_page, total - offset)] jobs. *)
Theorem pagination_meta_matches_the_pages
    {T : Type} (convert : Job -> T)
    (values : list Job) (user : User) (page per_page : Z) (status : option JobStatus) :
  1 <= page -> 1 <= per_page ->
  let out := JobService.list_jobs values user page per_page status in
  let response := Responses.create (map convert (fst out)) (snd out) page per_page in
  let meta := Responses.meta response in
  (Responses.has_next meta = true <->
   fst (JobService.list_jobs values user (page + 1) per_page status) <> []) /\
  (Responses.has_prev meta = true <-> 1 < page) /\
  (Responses.items response = [] <-> Responses.total_pages meta < page) /\
  Z.of_nat (length (Responses.items response))
  = Z.min per_page (Z.max 0 (Responses.total meta - (page - 1) * per_page)).
Proof.
  intros Hp Hpp out response meta. unfold meta, response, out.
  rewrite !list_jobs_unfold by lia. cbv zeta. cbn [fst snd].
  set (all := Py.sort_by_desc job_created_at (filter (listed_for user status) values)).
  set (n := Z.of_nat (length all)).
  unfold Responses.create.
  cbn [Responses.meta Responses.items Responses.has_next Responses.has_prev
       Responses.total_pages Responses.total].
  assert (E : (0 <? per_page) = true) by (apply Z.ltb_lt; lia). rewrite E.
  assert (Hn : 0 <= n) by (unfold n; lia).
  assert (Hover : forall q, 0 <= q -> (q < (n + per_page - 1) / per_page <-> q * per_page < n)).
  { intros q Hq. split.
    - intros H. assert (H' : q + 1 <= (n + per_page - 1) / per_page) by lia.
      apply div_ge_iff in H'; [nia|lia].
    - intros H. assert (H' : q + 1 <= (n + per_page - 1) / per_page); [|lia].
      apply div_ge_iff; [lia|nia]. }
  assert (Hlen : forall q, 0 <= q ->
            Z.of_nat (length (take (Z.to_nat per_page) (drop (Z.to_nat (q * per_page)) all)))
            = Z.min per_page (Z.max 0 (n - q * per_page))).
  { intros q Hq. rewrite length_take, length_drop. unfold n. nia. }
  split; [|split; [|split]].
  - rewrite Z.ltb_lt, (Hover page) by lia.
    replace (page + 1 - 1) with page by lia.
    pose proof (Hlen page ltac:(lia)) as Hl.
    destruct (take _ (drop (Z.to_nat (page * per_page)) all)) eqn:Et; simpl in Hl.
    + split; [lia|congruence].
    + split; [discriminate|]. intros _. lia.
  - apply Z.ltb_lt.
  - pose proof (Hlen (page - 1) ltac:(lia)) as Hl.
    pose proof (Hover (page - 1) ltac:(lia)) as Ho.
    destruct (take _ (drop (Z.to_nat ((page - 1) * per_page)) all)) eqn:Et; simpl in Hl |- *.
    + split; [intros _|reflexivity]. lia.
    + split; [discriminate|]. intros H. exfalso. lia.
  - rewrite length_map. apply (Hlen (page - 1)). lia.
Qed.

Lemma pagination_meta_matches_the_pages_witness :
  Responses.has_prev
    (Responses.meta
       (Responses.create
          (map job_id (fst (JobService.list_jobs three_jobs dev_user 2 2 None)))
          (snd (JobService.list_jobs three_jobs dev_user 2 2 None)) 2 2)) = true
  <-> 1 < 2.
Proof.
  apply (pagination_meta_matches_the_pages job_id three_jobs dev_user 2 2 None); lia.
Defined.

(** ** The rate-limit middleware *)

(** X27. Requests that [dispatch] does not check never touch the limiter: on
    an excluded path, with rate limiting switched off, without an API key,
    or with a key that names no active user, the request goes to the
    application, the response comes back with only [X-Request-ID] added,
    and the limiter is left as it was. *)
Theorem dispatch_passes_unchecked_requests_through
    {Body App : Type} (rate_limit_enabled : bool) (users : gmap string User)
    (limiter : RateLimit.RateLimitService)
    (call_next : RateLimitMiddleware.Request -> App -> RateLimitMiddleware.Response Body * App)
    (request : RateLimitMiddleware.Request) (app : App) (env : RateLimitMiddleware.Env) :
  unchecked rate_limit_enabled users request ->
  RateLimitMiddleware.dispatch rate_limit_enabled users limiter call_next request app env
  = (RateLimitMiddleware.set_header (fst (call_next (forwarded request env) app))
       "x-request-id" (RateLimitMiddleware.request_id env),
     limiter,
     snd (call_next (forwarded request env) app)).
Proof.
  unfold unchecked, RateLimitMiddleware.dispatch, forwarded.
  cbn [RateLimitMiddleware.url_path RateLimitMiddleware.x_api_key].
  destruct (call_next _ app) as [response app'] eqn:Ecall. cbn [fst snd].
  intros Hun.
  destruct (Py.set_mem _ RateLimitMiddleware.EXCLUDED_PATHS) eqn:Ex; [reflexivity|].
  apply bool_decide_eq_false in Ex.
  destruct rate_limit_enabled; [|reflexivity]. cbn [negb].
  destruct (RateLimitMiddleware.x_api_key request) as [api_key|]; [|reflexivity].
  destruct Hun as [Hun|[Hun|[Hun|Hun]]]; [contradiction|discriminate|now subst|].
  destruct (negb (Py.truthy api_key)); [reflexivity|].
  unfold MockAuthService.validate_api_key.
  destruct (users !! api_key) as [user|]; [|reflexivity].
  now rewrite Hun.
Qed.

Lemma dispatch_passes_unchecked_requests_through_witness :
  RateLimitMiddleware.dispatch true example_users busy_limiter counting_app
    health_request 0%nat example_env
  = (RateLimitMiddleware.set_header
       (fst (counting_app (forwarded health_request example_env) 0%nat))
       "x-request-id" (RateLimitMiddleware.request_id example_env),
     busy_limiter,
     snd (counting_app (forwarded health_request example_env) 0%nat)).
Proof.
  apply (dispatch_passes_unchecked_requests_through true example_users busy_limiter
           counting_app health_request 0%nat example_env).
  left. unfold RateLimitMiddleware.EXCLUDED_PATHS. apply list_elem_of_here.
Defined.

(** X28. A request the limiter denies never reaches the application: the
    application's state is unchanged, the limiter is left as the one check
    left it, and the response is a 429 whose body carries the tier's limit
    and whose [Retry-After] header, read from the clock after the body's
    [retry_after], is between 0 and the body's value. *)
Theorem dispatch_denied_never_reaches_app
    {Body App : Type} (users : gmap string User) (limiter : RateLimit.RateLimitService)
    (call_next : RateLimitMiddleware.Request -> App -> RateLimitMiddleware.Response Body * App)
    (request : RateLimitMiddleware.Request) (app : App) (env : RateLimitMiddleware.Env)
    (api_key : string) (user : User) :
  RateLimitMiddleware.url_path request ∉ RateLimitMiddleware.EXCLUDED_PATHS ->
  RateLimitMiddleware.x_api_key request = Some api_key -> api_key <> ""%string ->
  users !! api_key = Some user -> user_is_active user = true ->
  RateLimit.allowed (fst (check limiter (dispatch_call user request env))) = false ->
  (0 <= RateLimitMiddleware.clock_error env <= RateLimitMiddleware.clock_header env)%Q ->
  let out := RateLimitMiddleware.dispatch true users limiter call_next request app env in
  snd out = app /\
  snd (fst out) = snd (check limiter (dispatch_call user request env)) /\
  RateLimitMiddleware.status_code (fst (fst out)) = 429 /\
  exists error header_retry,
    RateLimitMiddleware.content (fst (fst out)) = RateLimitMiddleware.ErrorResponse error /\
    RateLimitMiddleware.details_limit error
    = rate_limit_per_minute (get_tier_config (user_tier user)) /\
    RateLimitMiddleware.headers (fst (fst out)) !! "retry-after"%string
    = Some (Py.str_int header_retry) /\
    0 <= header_retry <= RateLimitMiddleware.details_retry_after error.
Proof.
  intros Hpath Hkey Hne Huser Hactive Hdenied [Hc0 Hc1] out. unfold out.
  unfold RateLimitMiddleware.dispatch.
  cbn [RateLimitMiddleware.url_path RateLimitMiddleware.x_api_key].
  assert (Ex : Py.set_mem (RateLimitMiddleware.url_path request)
                 RateLimitMiddleware.EXCLUDED_PATHS = false)
    by now apply bool_decide_eq_false.
  rewrite Ex, Hkey. cbn [negb].
  assert (Et : Py.truthy api_key = true) by (destruct api_key; [congruence|reflexivity]).
  rewrite Et. cbn [negb].
  unfold MockAuthService.validate_api_key. rewrite Huser, Hactive. cbn [negb].
  unfold check, dispatch_call in Hdenied |- *.
  cbn [RateLimit.call_user RateLimit.call_tier RateLimit.call_endpoint RateLimit.call_now
       RateLimit.call_request_id] in Hdenied |- *.
  assert (Hlimit : RateLimit.limit
                     (fst (RateLimit.check_and_increment limiter (user_id user)
                             (user_tier user) (RateLimitMiddleware.url_path request)
                             (RateLimitMiddleware.now env)
                             (RateLimitMiddleware.limiter_request_id env)))
                   = rate_limit_per_minute (get_tier_config (user_tier user))).
  { revert Hdenied. clear.
    pose proof (check_unfold limiter
                  (RateLimit.mkCall (user_id user) (user_tier user)
                     (RateLimitMiddleware.url_path request) (RateLimitMiddleware.now env)
                     (RateLimitMiddleware.limiter_request_id env))) as Hu.
    unfold check in Hu.
    cbn [RateLimit.call_user RateLimit.call_tier RateLimit.call_endpoint RateLimit.call_now
         RateLimit.call_request_id] in Hu. rewrite Hu. cbv zeta.
    destruct (RateLimit._redis limiter) as [rd|].
    - destruct (Redis.reachable rd); [|discriminate].
      unfold Redis.RATE_LIMIT_SCRIPT. destruct (_ <? _); [discriminate|]. reflexivity.
    - unfold local_step. destruct (_ <? _); [discriminate|]. reflexivity. }
  destruct (RateLimit.check_and_increment limiter _ _ _ _ _) as [result limiter'].
  cbn [fst snd] in *. rewrite Hdenied. cbn [negb fst snd].
  split; [reflexivity|]. split; [reflexivity|]. split; [reflexivity|].
  eexists. exists (RateLimit.retry_after result (RateLimitMiddleware.clock_header env)).
  unfold RateLimitMiddleware._add_rate_limit_headers, RateLimitMiddleware.set_header.
  cbn [RateLimitMiddleware.status_code RateLimitMiddleware.headers
       RateLimitMiddleware.content RateLimitMiddleware.details_limit
       RateLimitMiddleware.details_retry_after].
  split; [reflexivity|].
  cbn [RateLimitMiddleware.details_limit RateLimitMiddleware.details_retry_after].
  split; [exact Hlimit|]. split; [apply lookup_insert_eq|].
  unfold RateLimit.retry_after.
  assert (Hmono : Py.int (RateLimitMiddleware.clock_error env)
                  <= Py.int (RateLimitMiddleware.clock_header env)).
  { rewrite !py_int_floor by lra. now apply Qfloor_resp_le. }
  lia.
Qed.

Lemma dispatch_denied_never_reaches_app_witness :
  snd (RateLimitMiddleware.dispatch true example_users busy_limiter counting_app
         jobs_request 0%nat example_env) = 0%nat.
Proof.
  apply (dispatch_denied_never_reaches_app example_users busy_limiter counting_app
           jobs_request 0%nat example_env "free_test_key" free_user).
  - unfold RateLimitMiddleware.EXCLUDED_PATHS. simpl.
    intros H. repeat (apply elem_of_cons in H as [H|H]; [discriminate|]).
    now apply not_elem_of_nil in H.
  - reflexivity.
  - discriminate.
  - reflexivity.
  - reflexivity.
  - vm_compute. reflexivity.
  - split; unfold Qle; simpl; lia.
Defined.
